(** * Held-Karp solver of [src/TSP.cpp]: shallow embedding and properties

    The file embeds the function [heldKarp] of [src/TSP.cpp] (the forward
    pass over the subset-indexed table, the extraction of the closing cost
    and the backtracking reconstruction of the route) and states the
    properties of the specification over that embedding.

    Conventions of the embedding.
    - C++ [int] values are integers of [Z].  The function converts
      [pow(2, n)] to [int]; for [n >= 31] that conversion is out of range,
      which the embedding reports as [Undefined].  For [n <= 30] every
      [int] the function computes lies in [[-1, 2^30]], so no wrap-around
      is ever taken and the arithmetic is written without it.
    - [vector<T>] is [list T]; an access [v[i]] outside [0 <= i < size] is
      undefined behaviour in C++ and yields [Undefined] here.
    - [double] is an abstract type [D] with the operations the function
      uses ([+], [<], [==], the constants [0] and [INF]) and the order laws
      of [DoubleLaws]; [Z] with exact arithmetic is an instance and is used
      for all concrete evaluations.  The operations are functions: a sum
      evaluated twice on the same operands gives the same value, as for
      [double] without excess precision.  Not-a-number values, on which
      [<] is not a total order, are outside the embedding.
    - The [while] loop of the reconstruction may not terminate; it is run
      with fuel, and [OutOfFuel] is distinct from [Undefined].
    - [heldKarp] is embedded twice: as a function of its arguments, and,
      for what one call leaves to the next, as a change of the memory
      that holds the caller's vector and the function's variables
      ([heldKarp_call]); the two are shown to agree. *)

From Stdlib Require Import ZArith List Lia Bool Permutation.
From stdpp Require Import base tactics list list_numbers.
From Stdlib Require Import Ascii.
From Stdlib Require String.
Import ListNotations.
Import String.StringSyntax.
Delimit Scope string_scope with string.

Local Open Scope Z_scope.

(** ** Outcomes of a run *)

Inductive outcome (A : Type) : Type :=
| Ok (a : A)
| Undefined
| OutOfFuel.

Arguments Ok {A} a.
Arguments Undefined {A}.
Arguments OutOfFuel {A}.

Definition bind {A B} (m : outcome A) (k : A -> outcome B) : outcome B :=
  match m with
  | Ok a => k a
  | Undefined => Undefined
  | OutOfFuel => OutOfFuel
  end.

Notation "'let*' x ':=' m 'in' k" := (bind m (fun x => k))
  (at level 10, x pattern, m at level 100, k at level 200).

(** A [for] loop over the elements of a list, threading the state. *)
Fixpoint foldM {S A} (body : A -> S -> outcome S) (l : list A) (s : S) : outcome S :=
  match l with
  | [] => Ok s
  | a :: l' => let* s' := body a s in foldM body l' s'
  end.

(** [for (int i = 0; i < n; ++i) body] *)
Definition for_upto {S} (n : Z) (body : Z -> S -> outcome S) (s : S) : outcome S :=
  foldM body (seqZ 0 n) s.

(** ** The arithmetic of [double] used by the solver *)

Class DoubleOps (D : Type) := {
  dzero : D;              (* the literal 0 *)
  INF : D;                (* numeric_limits<int>::max(), converted to double *)
  dadd : D -> D -> D;     (* + *)
  dlt : D -> D -> bool;   (* < *)
  deq : D -> D -> bool    (* == *)
}.

(** [a <= b] in the sense of [!(b < a)]. *)
Definition dle {D} `{DoubleOps D} (a b : D) : Prop := dlt b a = false.

(** The laws the proofs rely on: [<] is a strict total order decided
    together with [==], addition is monotone in each argument and [0] is
    neutral on the right.  Associativity of [+] is not assumed. *)
Class DoubleLaws (D : Type) `{DoubleOps D} : Prop := {
  deq_spec : forall x y, deq x y = true <-> x = y;
  dlt_irrefl : forall x, dlt x x = false;
  dlt_trans : forall x y z, dlt x y = true -> dlt y z = true -> dlt x z = true;
  dlt_connex : forall x y, dlt x y = false -> dlt y x = false -> x = y;
  dadd_mono_l : forall x y c, dle x y -> dle (dadd x c) (dadd y c);
  dadd_mono_r : forall x c d, dle c d -> dle (dadd x c) (dadd x d);
  dadd_zero_r : forall x, dadd x dzero = x;
  dzero_lt_INF : dlt dzero INF = true
}.

(** [std::min(a, b)]: returns [b] when [b < a], and [a] otherwise. *)
Definition dmin {D} `{DoubleOps D} (a b : D) : D := if dlt b a then b else a.

(** Exact integer costs. *)
#[export] Instance Z_ops : DoubleOps Z := {|
  dzero := 0;
  INF := 2147483647;
  dadd := Z.add;
  dlt := Z.ltb;
  deq := Z.eqb
|}.

(** ** Vectors and the table *)

(** [v[i]] *)
Definition at_ {A} (v : list A) (i : Z) : outcome A :=
  if i <? 0 then Undefined
  else match v !! Z.to_nat i with
       | Some a => Ok a
       | None => Undefined
       end.

(** [m[r][c]] read *)
Definition get2 {A} (m : list (list A)) (r c : Z) : outcome A :=
  let* row := at_ m r in at_ row c.

(** [m[r][c] = x] *)
Definition set2 {A} (m : list (list A)) (r c : Z) (x : A) : outcome (list (list A)) :=
  let* row := at_ m r in
  let* _ := at_ row c in
  Ok (<[Z.to_nat r := <[Z.to_nat c := x]> row]> m).

(** [1 << k]; the shift is undefined for a negative count, and [1 << 31]
    is not a non-negative [int]. *)
Definition shl1 (k : Z) : outcome Z :=
  if (0 <=? k) && (k <? 31) then Ok (Z.shiftl 1 k) else Undefined.

(** [subset & (1 << i)] taken as a condition, for a loop index [i]. *)
Definition in_subset (subset i : Z) : bool :=
  negb (Z.land subset (Z.shiftl 1 i) =? 0).

Section Solver.

Context {D : Type} `{DoubleOps D}.

Definition table := list (list D).

(** Line 42:
    [dp[subset][i] = min(dp[subset][i], dp[subset ^ (1 << i)][j] + graph[j][i])] *)
Definition relax (graph : table) (subset i j : Z) (dp : table) : outcome table :=
  let* cur := get2 dp subset i in
  let* prev := get2 dp (Z.lxor subset (Z.shiftl 1 i)) j in
  let* c := get2 graph j i in
  set2 dp subset i (dmin cur (dadd prev c)).

(** Lines 38-43: the loop over [j] and its body. *)
Definition body_j (graph : table) (subset i j : Z) (dp : table) : outcome table :=
  if negb (in_subset subset j) || (i =? j) then Ok dp
  else relax graph subset i j dp.

Definition loop_j (graph : table) (n subset i : Z) : table -> outcome table :=
  for_upto n (body_j graph subset i).

(** Lines 33-44: the loop over [i] and its body. *)
Definition body_i (graph : table) (n subset i : Z) (dp : table) : outcome table :=
  if negb (in_subset subset i) then Ok dp
  else loop_j graph n subset i dp.

Definition loop_i (graph : table) (n subset : Z) : table -> outcome table :=
  for_upto n (body_i graph n subset).

(** Lines 32-45: the forward pass. *)
Definition forward (graph : table) (n subsetCount : Z) : table -> outcome table :=
  for_upto subsetCount (loop_i graph n).

(** The table at the moment the three loops stand at [(subset, i, j)]:
    the subsets below [subset] are done, then the locations below [i] of
    [subset], then the candidates below [j] for [(subset, i)]. *)
Definition forward_at (graph : table) (n subset i j : Z) (dp : table) : outcome table :=
  let* dp := forward graph n subset dp in
  let* dp := for_upto i (body_i graph n subset) dp in
  if in_subset subset i then for_upto j (body_j graph subset i) dp else Ok dp.

(** Lines 26-29: the table with its base cell. *)
Definition init_table (n subsetCount startNode : Z) : outcome table :=
  let dp := replicate (Z.to_nat subsetCount) (replicate (Z.to_nat n) INF) in
  let* b := shl1 (startNode - 1) in
  set2 dp b (startNode - 1) dzero.

(** Lines 48-57: the closing loop, on the state [(minDistance, lastNode)]. *)
Definition closing (graph : table) (n subsetCount startNode : Z) (dp : table)
  : outcome (D * Z) :=
  for_upto n (fun i '(minDistance, lastNode) =>
    if i =? startNode - 1 then Ok (minDistance, lastNode)
    else
      let* a := get2 dp (subsetCount - 1) i in
      let* c := get2 graph i (startNode - 1) in
      let cost := dadd a c in
      if dlt cost minDistance then Ok (cost, i) else Ok (minDistance, lastNode))
    (INF, -1).

(** Lines 70-77: the search for a predecessor of [currentNode]; [Some i]
    when the loop leaves by [break] at [i], [None] when it runs to its end. *)
Fixpoint find_pred (graph dp : table) (subset currentNode prevSubset : Z)
    (candidates : list Z) : outcome (option Z) :=
  match candidates with
  | [] => Ok None
  | i :: rest =>
      if (i =? currentNode) || negb (in_subset subset i)
      then find_pred graph dp subset currentNode prevSubset rest
      else
        let* a := get2 dp subset currentNode in
        let* b := get2 dp prevSubset i in
        let* c := get2 graph i currentNode in
        if deq a (dadd b c) then Ok (Some i)
        else find_pred graph dp subset currentNode prevSubset rest
  end.

(** Lines 67-78: the [while] loop, one iteration per unit of fuel. *)
Fixpoint reconstruct (fuel : nat) (graph dp : table) (n startNode : Z)
    (subset currentNode : Z) (path : list Z) : outcome (list Z) :=
  if currentNode =? startNode - 1 then Ok path
  else match fuel with
       | O => OutOfFuel
       | S fuel' =>
           let path := path ++ [currentNode + 1] in
           let* b := shl1 currentNode in
           let prevSubset := Z.lxor subset b in
           let* found := find_pred graph dp subset currentNode prevSubset (seqZ 0 n) in
           match found with
           | Some i => reconstruct fuel' graph dp n startNode prevSubset i path
           | None => reconstruct fuel' graph dp n startNode subset currentNode path
           end
       end.

(** Lines 24-57: everything before the reconstruction; the value
    [minDistance] is the one [heldKarp] returns at line 88. *)
Definition solve_table (graph : table) (startNode : Z) : outcome (table * D * Z) :=
  let n := Z.of_nat (length graph) in
  if 31 <=? n then Undefined
  else
    let subsetCount := 2 ^ n in
    let* dp := init_table n subsetCount startNode in
    let* dp := forward graph n subsetCount dp in
    let* (minDistance, lastNode) := closing graph n subsetCount startNode dp in
    Ok (dp, minDistance, lastNode).

(** [heldKarp(graph, startNode, bestRoute)]: the returned [double] and the
    final content of the reference parameter [bestRoute]. *)
Definition heldKarp (fuel : nat) (graph : table) (startNode : Z)
    (bestRoute : list Z) : outcome (D * list Z) :=
  let n := Z.of_nat (length graph) in
  let* (dp, minDistance, lastNode) := solve_table graph startNode in
  let subsetCount := 2 ^ n in
  let path := [startNode] in
  let* path := reconstruct fuel graph dp n startNode (subsetCount - 1) lastNode path in
  let path := path ++ [startNode] in
  let path := reverse path in
  let bestRoute := path in
  Ok (minDistance, bestRoute).

End Solver.

(** ** The objects of a call *)

(** The objects [heldKarp] names, apart from the matrix and the start,
    which it cannot modify: the caller's vector bound to the reference
    parameter [bestRoute], and the variables of the function's own block.
    The variables declared inside the loops (the counters, [cost],
    [prevSubset]) are initialised where they are declared, in every
    round, and stay arguments of the loop functions.  The only other
    object of the program that outlives a call is the constant [INF].
    A call may be started in any memory: nothing is
    assumed about what the storage of the variables holds on entry, so
    whatever an earlier call has left there is covered. *)
Module Mem.

Record memory (D : Type) : Type := Memory {
  bestRoute : list Z;
  n : Z;
  subsetCount : Z;
  dp : list (list D);
  minDistance : D;
  lastNode : Z;
  path : list Z;
  subset : Z;
  currentNode : Z
}.

Arguments Memory {D}.
Arguments bestRoute {D}.
Arguments n {D}.
Arguments subsetCount {D}.
Arguments dp {D}.
Arguments minDistance {D}.
Arguments lastNode {D}.
Arguments path {D}.
Arguments subset {D}.
Arguments currentNode {D}.

Definition set_bestRoute {D} (v : list Z) (mu : memory D) : memory D :=
  Memory v (n mu) (subsetCount mu) (dp mu) (minDistance mu) (lastNode mu)
    (path mu) (subset mu) (currentNode mu).

Definition set_n {D} (v : Z) (mu : memory D) : memory D :=
  Memory (bestRoute mu) v (subsetCount mu) (dp mu) (minDistance mu) (lastNode mu)
    (path mu) (subset mu) (currentNode mu).

Definition set_subsetCount {D} (v : Z) (mu : memory D) : memory D :=
  Memory (bestRoute mu) (n mu) v (dp mu) (minDistance mu) (lastNode mu)
    (path mu) (subset mu) (currentNode mu).

Definition set_dp {D} (v : list (list D)) (mu : memory D) : memory D :=
  Memory (bestRoute mu) (n mu) (subsetCount mu) v (minDistance mu) (lastNode mu)
    (path mu) (subset mu) (currentNode mu).

Definition set_minDistance {D} (v : D) (mu : memory D) : memory D :=
  Memory (bestRoute mu) (n mu) (subsetCount mu) (dp mu) v (lastNode mu)
    (path mu) (subset mu) (currentNode mu).

Definition set_lastNode {D} (v : Z) (mu : memory D) : memory D :=
  Memory (bestRoute mu) (n mu) (subsetCount mu) (dp mu) (minDistance mu) v
    (path mu) (subset mu) (currentNode mu).

Definition set_path {D} (v : list Z) (mu : memory D) : memory D :=
  Memory (bestRoute mu) (n mu) (subsetCount mu) (dp mu) (minDistance mu) (lastNode mu)
    v (subset mu) (currentNode mu).

Definition set_subset {D} (v : Z) (mu : memory D) : memory D :=
  Memory (bestRoute mu) (n mu) (subsetCount mu) (dp mu) (minDistance mu) (lastNode mu)
    (path mu) v (currentNode mu).

Definition set_currentNode {D} (v : Z) (mu : memory D) : memory D :=
  Memory (bestRoute mu) (n mu) (subsetCount mu) (dp mu) (minDistance mu) (lastNode mu)
    (path mu) (subset mu) v.

End Mem.

Section Call.

Context {D : Type} `{DoubleOps D}.

(** Lines 67-78: the [while] loop on the variables [path], [subset] and
    [currentNode], which reads [dp] and [n]; one iteration per unit of
    fuel. *)
Fixpoint reconstruct_in (fuel : nat) (graph : list (list D)) (startNode : Z)
    (mu : Mem.memory D) : outcome (Mem.memory D) :=
  if Mem.currentNode mu =? startNode - 1 then Ok mu
  else match fuel with
       | O => OutOfFuel
       | S fuel' =>
           let mu := Mem.set_path (Mem.path mu ++ [Mem.currentNode mu + 1]) mu in
           let* b := shl1 (Mem.currentNode mu) in
           let prevSubset := Z.lxor (Mem.subset mu) b in
           let* found :=
             find_pred graph (Mem.dp mu) (Mem.subset mu) (Mem.currentNode mu)
               prevSubset (seqZ 0 (Mem.n mu)) in
           match found with
           | Some i =>
               let mu := Mem.set_currentNode i mu in
               let mu := Mem.set_subset prevSubset mu in
               reconstruct_in fuel' graph startNode mu
           | None => reconstruct_in fuel' graph startNode mu
           end
       end.

(** Lines 23-89: a call of [heldKarp] as a change of the memory, one
    statement after the other; the result is the returned [double] and the
    memory the call leaves. *)
Definition heldKarp_call (fuel : nat) (graph : list (list D)) (startNode : Z)
    (mu : Mem.memory D) : outcome (D * Mem.memory D) :=
  (* 24 *) let mu := Mem.set_n (Z.of_nat (length graph)) mu in
  (* 25 *) let* mu :=
             if 31 <=? Mem.n mu then Undefined
             else Ok (Mem.set_subsetCount (2 ^ Mem.n mu) mu) in
  (* 26-29 *) let* dp := init_table (Mem.n mu) (Mem.subsetCount mu) startNode in
              let mu := Mem.set_dp dp mu in
  (* 32-45 *) let* dp := forward graph (Mem.n mu) (Mem.subsetCount mu) (Mem.dp mu) in
              let mu := Mem.set_dp dp mu in
  (* 48-57 *) let* (minDistance, lastNode) :=
                closing graph (Mem.n mu) (Mem.subsetCount mu) startNode (Mem.dp mu) in
              let mu := Mem.set_minDistance minDistance mu in
              let mu := Mem.set_lastNode lastNode mu in
  (* 60 *) let mu := Mem.set_path [] mu in
  (* 61 *) let mu := Mem.set_subset (Mem.subsetCount mu - 1) mu in
  (* 62 *) let mu := Mem.set_currentNode (Mem.lastNode mu) mu in
  (* 65 *) let mu := Mem.set_path (Mem.path mu ++ [startNode]) mu in
  (* 67-78 *) let* mu := reconstruct_in fuel graph startNode mu in
  (* 80 *) let mu := Mem.set_path (Mem.path mu ++ [startNode]) mu in
  (* 83 *) let mu := Mem.set_path (reverse (Mem.path mu)) mu in
  (* 86 *) let mu := Mem.set_bestRoute (Mem.path mu) mu in
  (* 88 *) Ok (Mem.minDistance mu, mu).

(** What the caller sees of a call: the returned [double] and the content
    of its vector afterwards. *)
Definition seen (r : outcome (D * Mem.memory D)) : outcome (D * list Z) :=
  let* (cost, mu) := r in Ok (cost, Mem.bestRoute mu).

End Call.

(** ** The console and the rest of the program *)

(** What the program sends to [cout], operand by operand, and its calls
    of [system].  How the stream renders a number is not modelled: an
    inserted number is recorded as such, with the manipulators that
    precede it. *)
Inductive event (D : Type) : Type :=
| Put_char (c : ascii)
| Put_text (t : String.string)
| Put_int (z : Z)
| Put_double (d : D)
| Put_endl
| Set_width (w : Z)
| Set_fixed
| Set_precision (p : Z)
| System (command : String.string).

Arguments Put_char {D} c.
Arguments Put_text {D} t.
Arguments Put_int {D} z.
Arguments Put_double {D} d.
Arguments Put_endl {D}.
Arguments Set_width {D} w.
Arguments Set_fixed {D}.
Arguments Set_precision {D} p.
Arguments System {D} command.

Section Program.

Context {D : Type} `{DoubleOps D}.

(** Lines 97-102: [printLine(ch, length)]. *)
Definition printLine (ch : ascii) (length : Z) (cout : list (event D))
  : outcome (list (event D)) :=
  let* cout := for_upto length (fun _ cout => Ok (cout ++ [Put_char ch])) cout in
  Ok (cout ++ [Put_endl]).

(** Lines 109-117: [printMatrix(matrix)]; the two loops range over the
    rows and over the values of a row, without indices. *)
Definition printMatrix (matrix : list (list D)) (cout : list (event D))
  : outcome (list (event D)) :=
  let cout :=
    cout ++ [Put_text (String.String (ascii_of_nat 10) "Distance Matrix:"%string); Put_endl] in
  foldM (fun row cout =>
    let* cout :=
      foldM (fun val cout =>
        Ok (cout ++ [Set_width 8; Put_double val; Put_text " "%string])) row cout in
    Ok (cout ++ [Put_endl])) matrix cout.

(** Lines 130-137: the matrix is allocated with [n] rows of [n] zeros (an
    allocation with a negative [n] throws, which ends the program without
    a result: [Undefined] here) and filled row by row; [cell i j] is the
    value the extraction [cin >> graph[i][j]] delivers. *)
Definition read_graph (n : Z) (cell : Z -> Z -> D) (cout : list (event D))
  : outcome (list (event D) * list (list D)) :=
  let* graph :=
    if n <? 0 then Undefined
    else Ok (replicate (Z.to_nat n) (replicate (Z.to_nat n) dzero)) in
  let cout :=
    cout ++ [Put_text "Enter the distance matrix (space-separated row-wise):"%string;
             Put_endl] in
  for_upto n (fun i =>
    for_upto n (fun j '(cout, graph) =>
      let cout :=
        cout ++ [Put_text "Enter time for ["%string; Put_int (i + 1); Put_text "]["%string;
                 Put_int (j + 1); Put_text "]: "%string] in
      let* graph := set2 graph i j (cell i j) in
      Ok (cout, graph)))
    (cout, graph).

(** Lines 163-170: the route, its entries joined by arrows; [size_t] is
    taken as 64 bits wide. *)
Definition print_route (bestRoute : list Z) (cout : list (event D))
  : outcome (list (event D)) :=
  let size := Z.of_nat (length bestRoute) in
  let cout := cout ++ [Put_text "Route: "%string] in
  let* cout :=
    for_upto size (fun i cout =>
      let* r := at_ bestRoute i in
      let cout := cout ++ [Put_int r] in
      if i <? (size - 1) mod 2 ^ 64 then Ok (cout ++ [Put_text " -> "%string])
      else Ok cout) cout in
  Ok (cout ++ [Put_endl]).

(** Lines 172-176: one line per location of the route. *)
Definition print_locations (bestRoute : list Z) (cout : list (event D))
  : outcome (list (event D)) :=
  let cout :=
    cout ++ [Put_text (String.String (ascii_of_nat 10)
                         "Locations in the route (one by one):"%string); Put_endl] in
  foldM (fun location cout =>
    Ok (cout ++ [Put_text "Location "%string; Put_int location; Put_endl])) bestRoute cout.

(** Lines 147-180: everything printed after the call of [heldKarp]. *)
Definition report (graph : list (list D)) (minDistance : D) (bestRoute : list Z)
    (cout : list (event D)) : outcome (list (event D)) :=
  let cout := cout ++ [Put_endl; System "cls"%string] in
  let* cout := printLine "="%char 50 cout in
  let cout := cout ++ [Set_width 30; Put_text "Input Summary"%string; Put_endl] in
  let* cout := printLine "="%char 50 cout in
  let* cout := printMatrix graph cout in
  let* cout := printLine "="%char 50 cout in
  let cout := cout ++ [Set_width 30; Put_text "Optimal Delivery Route"%string; Put_endl] in
  let* cout := printLine "="%char 50 cout in
  let* cout := print_route bestRoute cout in
  let* cout := print_locations bestRoute cout in
  let* cout := printLine "-"%char 50 cout in
  let cout :=
    cout ++ [Put_text "Minimum distance: "%string; Set_fixed; Set_precision 2;
             Put_double minDistance; Put_text " units"%string; Put_endl] in
  printLine "="%char 50 cout.

(** Lines 122-183: [main], for the values [n], [cell i j] and [startNode]
    that its extractions from [cin] deliver; the result is what was sent
    to [cout] and the returned status. *)
Definition main (fuel : nat) (n : Z) (cell : Z -> Z -> D) (startNode : Z)
  : outcome (list (event D) * Z) :=
  let cout :=
    [System "cls"%string;
     Put_text "Enter the number of locations in the delivery route: "%string] in
  let* (cout, graph) := read_graph n cell cout in
  let cout :=
    cout ++ [Put_text "Enter the starting location (1 to "%string; Put_int n;
             Put_text "): "%string] in
  let bestRoute := [] in
  let* (minDistance, bestRoute) := heldKarp fuel graph startNode bestRoute in
  let* cout := report graph minDistance bestRoute cout in
  Ok (cout, 0).

(** The matrix whose entry [(i, j)] is [cell i j]. *)
Definition matrix_of (n : Z) (cell : Z -> Z -> D) : list (list D) :=
  (fun i => cell i <$> seqZ 0 n) <$> seqZ 0 n.

(** The entries of a route with an arrow between each two neighbours. *)
Definition arrows (route : list Z) : list (event D) :=
  match route with
  | [] => []
  | r :: rest =>
      Put_int r :: flat_map (fun r' => [Put_text " -> "%string; Put_int r']) rest
  end.

End Program.


(** ** Specification-side notions *)

Section Notions.

Context {D : Type} `{DoubleOps D}.

(** [graph[j][i]] as a total function, for stating costs of walks. *)
Definition edge (graph : list (list D)) (j i : Z) : D :=
  match get2 graph j i with
  | Ok c => c
  | _ => dzero
  end.

(** Cost of a walk given in visiting order, accumulated from the left:
    [((0 + c(v0,v1)) + c(v1,v2)) + ...]. *)
Fixpoint walk_from (graph : list (list D)) (acc : D) (u : Z) (w : list Z) : D :=
  match w with
  | [] => acc
  | v :: w' => walk_from graph (dadd acc (edge graph u v)) v w'
  end.

Definition walk_cost (graph : list (list D)) (w : list Z) : D :=
  match w with
  | [] => dzero
  | u :: w' => walk_from graph dzero u w'
  end.

(** [w] is a simple path over the locations [0 .. n-1] that starts at [s],
    ends at [i] and visits exactly the members of the bit set [S]. *)
Definition simple_path (n s S i : Z) (w : list Z) : Prop :=
  head w = Some s /\ last w = Some i /\ NoDup w /\
  forall k, k ∈ w <-> 0 <= k < n /\ Z.testbit S k = true.

(** [t] is a Hamiltonian cycle over [0 .. n-1] that begins and ends at [s]. *)
Definition tour (n s : Z) (t : list Z) : Prop :=
  exists w, t = w ++ [s] /\ head w = Some s /\ NoDup w /\
            forall k, k ∈ w <-> 0 <= k < n.

(** Every entry of the matrix is [>= 0]. *)
Definition nonneg (graph : list (list D)) : Prop :=
  Forall (Forall (dle dzero)) graph.

(** The matrix is square. *)
Definition square (graph : list (list D)) : Prop :=
  Forall (fun row => length row = length graph) graph.

(** A square matrix of at most 30 rows with a start in [1 .. n]: every
    index the solver computes up to line 57 is then in range. *)
Definition well_formed (graph : list (list D)) (startNode : Z) : Prop :=
  square graph /\
  Z.of_nat (length graph) <= 30 /\
  1 <= startNode <= Z.of_nat (length graph).

(** Inputs on which the solver is meant to run: a square matrix of
    non-negative entries and a start in [1 .. n]. *)
Definition valid_input (graph : list (list D)) (startNode : Z) : Prop :=
  square graph /\ nonneg graph /\
  1 <= startNode <= Z.of_nat (length graph).

(** The value of cell [(S, i)] before the forward pass. *)
Definition init_val (s S i : Z) : D :=
  if (S =? Z.shiftl 1 s) && (i =? s) then dzero else INF.

(** A table of [rows] rows of [cols] cells. *)
Definition shaped (rows cols : Z) (dp : list (list D)) : Prop :=
  Z.of_nat (length dp) = rows /\ Forall (fun r => Z.of_nat (length r) = cols) dp.

(** [v] is the lesser of [INF] and the least cost of a simple path from
    [s] through exactly [S] to [i]. *)
Definition capped_min (graph : list (list D)) (n s S i : Z) (v : D) : Prop :=
  dle v INF /\
  (forall w, simple_path n s S i w -> dle v (walk_cost graph w)) /\
  (dlt v INF = true -> exists w, simple_path n s S i w /\ walk_cost graph w = v).

(** Every cell below [INF] belongs to a subset that contains the start
    and the cell's own location. *)
Definition finite_cells_reached (s : Z) (dp : list (list D)) : Prop :=
  forall S i v, get2 dp S i = Ok v -> dlt v INF = true ->
    Z.testbit S s = true /\ Z.testbit S i = true.

(** Some entry of the matrix is negative. *)
Definition has_negative_entry (graph : list (list D)) : Prop :=
  Exists (Exists (fun c => dlt c dzero = true)) graph.

(** Cell [(S, i)] of the table holds its final value. *)
Definition cell_final (graph : list (list D)) (n s : Z) (dp : list (list D))
    (S i : Z) : Prop :=
  exists v, get2 dp S i = Ok v /\ capped_min graph n s S i v.

(** The locations other than the start, in the 1-based numbering of the
    route. *)
Definition others (n startNode : Z) : list Z :=
  filter (fun k => k <> startNode) (seqZ 1 n).

(** The states [(subset, currentNode)] the [while] loop of the
    reconstruction passes through, from [(2^n - 1, lastNode)]. *)
Inductive reached (graph dp : list (list D)) (n s lastNode : Z) : Z -> Z -> Prop :=
| reached_first : reached graph dp n s lastNode (2 ^ n - 1) lastNode
| reached_next subset currentNode i :
    reached graph dp n s lastNode subset currentNode ->
    currentNode <> s ->
    find_pred graph dp subset currentNode
      (Z.lxor subset (Z.shiftl 1 currentNode)) (seqZ 0 n) = Ok (Some i) ->
    reached graph dp n s lastNode (Z.lxor subset (Z.shiftl 1 currentNode)) i.

(** Cells that no path from the start can reach hold [INF]. *)
Definition unreached_INF (s : Z) (dp : list (list D)) : Prop :=
  forall S i v, get2 dp S i = Ok v ->
    Z.testbit S s = false \/ Z.testbit S i = false -> v = INF.

End Notions.

(** ** Sample inputs, with exact integer costs *)

(** The four-location asymmetric instance of the textbooks. *)
Definition classic4 : list (list Z) :=
  [[0; 10; 15; 20]; [5; 0; 9; 10]; [6; 13; 0; 12]; [8; 8; 9; 0]].

(** Two and three locations, every edge of cost [2^30]. *)
Definition big2 : list (list Z) :=
  [[0; 1073741824]; [1073741824; 0]].

Definition big3 : list (list Z) :=
  [[0; 1073741824; 1073741824];
   [1073741824; 0; 1073741824];
   [1073741824; 1073741824; 0]].

(** Thirty-one locations, every edge of cost [0]. *)
Definition zero31 : list (list Z) := replicate 31 (replicate 31 0).

(** Two locations with negative costs. *)
Definition neg2 : list (list Z) := [[0; -1]; [-1; 0]].

(** Two locations, the edge from the first to the second barred by the
    sentinel. *)
Definition gap2 : list (list Z) := [[0; 2147483647]; [0; 0]].

(** Three locations, every edge of cost [-1]. *)
Definition neg3 : list (list Z) := [[0; -1; -1]; [-1; 0; -1]; [-1; -1; 0]].


(** Two rows of three entries, and [classic4] with its last row cut short. *)
Definition wide2 : list (list Z) := [[0; 3; 77]; [4; 0; 88]].

Definition short4 : list (list Z) :=
  [[0; 10; 15; 20]; [5; 0; 9; 10]; [6; 13; 0; 12]; [8; 8]].

(** ** The order on costs *)

Section Order.

Context {D : Type} `{DoubleLaws D}.

Lemma dle_refl x : dle x x.
Proof. apply dlt_irrefl. Qed.

Lemma dlt_asym x y : dlt x y = true -> dlt y x = false.
Proof.
  intros Hxy. destruct (dlt y x) eqn:E; [|done].
  pose proof (dlt_trans _ _ _ Hxy E) as Hc.
  rewrite dlt_irrefl in Hc. done.
Qed.

Lemma dlt_dle x y : dlt x y = true -> dle x y.
Proof. apply dlt_asym. Qed.

Lemma dle_cases x y : dle x y -> dlt x y = true \/ x = y.
Proof.
  intros Hle. destruct (dlt x y) eqn:E; [by left|right].
  by apply dlt_connex.
Qed.

Lemma dle_trans x y z : dle x y -> dle y z -> dle x z.
Proof.
  intros Hxy Hyz. unfold dle in *. destruct (dlt z x) eqn:E; [|done].
  destruct (dle_cases _ _ Hxy) as [Hlt | ->].
  - rewrite (dlt_trans _ _ _ E Hlt) in Hyz. done.
  - congruence.
Qed.

Lemma dle_antisym x y : dle x y -> dle y x -> x = y.
Proof. intros Hxy Hyx. by apply dlt_connex. Qed.

Lemma dle_lt_trans x y z : dle x y -> dlt y z = true -> dlt x z = true.
Proof.
  intros Hxy Hyz. destruct (dle_cases _ _ Hxy) as [Hlt | ->]; [|done].
  by eapply dlt_trans.
Qed.

Lemma dlt_le_trans x y z : dlt x y = true -> dle y z -> dlt x z = true.
Proof.
  intros Hxy Hyz. destruct (dle_cases _ _ Hyz) as [Hlt | <-]; [|done].
  by eapply dlt_trans.
Qed.

Lemma dadd_nonneg x c : dle dzero c -> dle x (dadd x c).
Proof.
  intros Hc. rewrite <- (dadd_zero_r x) at 1. by apply dadd_mono_r.
Qed.

Lemma dmin_le_l a b : dle (dmin a b) a.
Proof.
  unfold dmin. destruct (dlt b a) eqn:E; [by apply dlt_dle | apply dle_refl].
Qed.

Lemma dmin_le_r a b : dle (dmin a b) b.
Proof.
  unfold dmin. destruct (dlt b a) eqn:E; [apply dle_refl | exact E].
Qed.

Lemma dmin_cases a b : dmin a b = a \/ dmin a b = b.
Proof. unfold dmin. destruct (dlt b a); auto. Qed.

Lemma dzero_le_INF : dle dzero INF.
Proof. apply dlt_dle, dzero_lt_INF. Qed.

(** A sum below [INF] has its left summand below [INF]. *)
Lemma dadd_lt_INF x c :
  dle dzero c -> dlt (dadd x c) INF = true -> dlt x INF = true.
Proof. intros Hc Hlt. eapply dle_lt_trans; [by apply dadd_nonneg|done]. Qed.

End Order.

(** ** Bit sets *)

Lemma in_subset_testbit S i : 0 <= i -> in_subset S i = Z.testbit S i.
Proof.
  intros Hi. unfold in_subset. destruct (Z.testbit S i) eqn:E.
  - apply negb_true_iff, Z.eqb_neq. intros H0.
    assert (Z.testbit (Z.land S (Z.shiftl 1 i)) i = true) as Hb.
    { rewrite Z.land_spec, E, Z.shiftl_1_l, Z.pow2_bits_true; done. }
    rewrite H0, Z.bits_0 in Hb. done.
  - apply negb_false_iff, Z.eqb_eq, Z.bits_inj'. intros k Hk.
    rewrite Z.land_spec, Z.bits_0, Z.shiftl_1_l, Z.pow2_bits_eqb by done.
    destruct (Z.eqb_spec i k) as [->|]; [by rewrite E|by rewrite andb_false_r].
Qed.

Lemma lxor_bit_testbit S i k :
  0 <= i -> Z.testbit (Z.lxor S (Z.shiftl 1 i)) k = xorb (Z.testbit S k) (i =? k).
Proof.
  intros Hi. by rewrite Z.lxor_spec, Z.shiftl_1_l, Z.pow2_bits_eqb.
Qed.

Lemma lxor_bit_sub S i :
  0 <= i -> Z.testbit S i = true -> Z.lxor S (Z.shiftl 1 i) = S - 2 ^ i.
Proof.
  intros Hi Hb.
  assert (Z.land (Z.lxor S (Z.shiftl 1 i)) (Z.shiftl 1 i) = 0) as Hd.
  { apply Z.bits_inj'. intros k Hk.
    rewrite Z.land_spec, lxor_bit_testbit, Z.bits_0 by done.
    rewrite Z.shiftl_1_l, Z.pow2_bits_eqb by done.
    destruct (Z.eqb_spec i k) as [->|]; [by rewrite Hb|by rewrite andb_false_r]. }
  apply Z.add_nocarry_lxor in Hd.
  rewrite Z.lxor_assoc, Z.lxor_nilpotent, Z.lxor_0_r in Hd.
  rewrite Z.shiftl_1_l in *. lia.
Qed.

(** Removing a member gives a numerically smaller, non-negative subset. *)
Lemma lxor_bit_smaller S i :
  0 <= i -> 0 <= S -> Z.testbit S i = true ->
  0 <= Z.lxor S (Z.shiftl 1 i) < S.
Proof.
  intros Hi HS Hb. split.
  - apply Z.lxor_nonneg. rewrite Z.shiftl_1_l.
    split; intros _; [apply Z.pow_nonneg; lia | done].
  - rewrite lxor_bit_sub by done.
    assert (0 < 2 ^ i) by (apply Z.pow_pos_nonneg; lia). lia.
Qed.

Lemma testbit_above S n k :
  0 <= S < 2 ^ n -> n <= k -> Z.testbit S k = false.
Proof.
  intros [HS Hlt] Hk.
  destruct (Z.eq_dec S 0) as [->|Hne]; [apply Z.bits_0|].
  apply Z.bits_above_log2; [done|].
  assert (0 <= n).
  { destruct (Z.le_gt_cases 0 n); [done|]. rewrite Z.pow_neg_r in Hlt; lia. }
  assert (Z.log2 S < n) by (apply Z.log2_lt_pow2; lia). lia.
Qed.

Lemma testbit_full n k : 0 <= k < n -> Z.testbit (2 ^ n - 1) k = true.
Proof.
  intros Hk. replace (2 ^ n - 1) with (Z.ones n).
  - by apply Z.ones_spec_low.
  - rewrite Z.ones_equiv. lia.
Qed.

Lemma pow2_testbit s k : 0 <= s -> Z.testbit (Z.shiftl 1 s) k = (s =? k).
Proof. intros Hs. by rewrite Z.shiftl_1_l, Z.pow2_bits_eqb. Qed.

(** A subset of [0 .. n-1] whose only member is [s] is [1 << s]. *)
Lemma singleton_subset S n s :
  0 <= S < 2 ^ n -> 0 <= s < n ->
  (forall k, 0 <= k < n -> Z.testbit S k = true -> k = s) ->
  Z.testbit S s = true ->
  S = Z.shiftl 1 s.
Proof.
  intros HS Hs Hall Hb. apply Z.bits_inj'. intros k Hk.
  rewrite pow2_testbit by lia.
  destruct (Z.eqb_spec s k) as [<-|Hne]; [done|].
  destruct (Z.lt_ge_cases k n) as [Hlt|Hge].
  - destruct (Z.testbit S k) eqn:E; [|done].
    exfalso. apply Hne. symmetry. by apply Hall.
  - by eapply testbit_above.
Qed.

Lemma pow2_lt n s : 0 <= s < n -> 0 <= Z.shiftl 1 s < 2 ^ n.
Proof.
  intros Hs. rewrite Z.shiftl_1_l. split; [apply Z.pow_nonneg; lia|].
  apply Z.pow_lt_mono_r; lia.
Qed.

(** ** Vector accesses *)

Lemma at_Ok {A} (v : list A) i a :
  at_ v i = Ok a <-> 0 <= i /\ v !! Z.to_nat i = Some a.
Proof.
  unfold at_. destruct (Z.ltb_spec i 0) as [Hneg|Hpos].
  - split; [done|lia].
  - destruct (v !! Z.to_nat i) as [b|].
    + split; [intros [= ->]; done | intros [_ [= ->]]; done].
    + split; [done | intros [_ [=]]].
Qed.

Lemma get2_Ok {A} (m : list (list A)) r c a :
  get2 m r c = Ok a <->
  0 <= r /\ 0 <= c /\
  exists row, m !! Z.to_nat r = Some row /\ row !! Z.to_nat c = Some a.
Proof.
  unfold get2. split.
  - destruct (at_ m r) as [row| |] eqn:E; simpl; try done.
    intros [Hc Ha]%at_Ok. apply at_Ok in E as [Hr E]. eauto.
  - intros (Hr & Hc & row & Hrow & Ha).
    assert (at_ m r = Ok row) as -> by (by apply at_Ok).
    simpl. by apply at_Ok.
Qed.

Lemma shaped_row {A} (m : list (list A)) R C k row :
  shaped R C m -> m !! k = Some row -> Z.of_nat (length row) = C.
Proof.
  intros [_ HC] Hrow. rewrite Forall_forall in HC. apply HC.
  apply list_elem_of_lookup. eauto.
Qed.

Lemma get2_shaped_Ok {A} (m : list (list A)) R C r c :
  shaped R C m -> 0 <= r < R -> 0 <= c < C -> exists a, get2 m r c = Ok a.
Proof.
  intros Hsh Hr Hc.
  destruct (lookup_lt_is_Some_2 m (Z.to_nat r)) as [row Hrow].
  { destruct Hsh as [HR _]. lia. }
  destruct (lookup_lt_is_Some_2 row (Z.to_nat c)) as [a Ha].
  { pose proof (shaped_row _ _ _ _ _ Hsh Hrow). lia. }
  exists a. apply get2_Ok. split; [lia|]. split; [lia|]. eauto.
Qed.

Lemma get2_shaped_range {A} (m : list (list A)) R C r c a :
  shaped R C m -> get2 m r c = Ok a -> 0 <= r < R /\ 0 <= c < C.
Proof.
  intros Hsh (Hr & Hc & row & Hrow & Ha)%get2_Ok.
  pose proof (shaped_row _ _ _ _ _ Hsh Hrow) as Hlen.
  apply lookup_lt_Some in Ha. pose proof (lookup_lt_Some _ _ _ Hrow) as Hlt.
  destruct Hsh as [HR _]. lia.
Qed.

(** A write into a cell that exists: the shape is kept, the cell holds
    the new value and every other cell is unchanged. *)
Lemma set2_spec {A} (m : list (list A)) R C r c a x :
  shaped R C m -> get2 m r c = Ok a ->
  exists m', set2 m r c x = Ok m' /\ shaped R C m' /\
             get2 m' r c = Ok x /\
             forall r' c', (r', c') <> (r, c) -> get2 m' r' c' = get2 m r' c'.
Proof.
  intros Hsh Hget.
  pose proof Hget as (Hr & Hc & row & Hrow & Ha)%get2_Ok.
  pose proof (lookup_lt_Some _ _ _ Hrow) as Hrlt.
  pose proof (lookup_lt_Some _ _ _ Ha) as Hclt.
  exists (<[Z.to_nat r := <[Z.to_nat c := x]> row]> m).
  split; [|split; [|split]].
  - unfold set2.
    assert (at_ m r = Ok row) as -> by (by apply at_Ok). simpl.
    assert (at_ row c = Ok a) as -> by (by apply at_Ok). done.
  - destruct Hsh as [HR HC]. split.
    + by rewrite length_insert.
    + apply Forall_insert; [done|]. rewrite length_insert.
      rewrite Forall_forall in HC. apply HC, list_elem_of_lookup. eauto.
  - apply get2_Ok. split; [done|]. split; [done|].
    exists (<[Z.to_nat c := x]> row). split.
    + by apply list_lookup_insert_eq.
    + by apply list_lookup_insert_eq.
  - intros r' c' Hne. unfold get2, at_.
    destruct (Z.ltb_spec r' 0) as [|Hr']; [done|].
    destruct (Z.eq_dec r' r) as [->|Hrne].
    + rewrite list_lookup_insert_eq by done. rewrite Hrow. simpl.
      destruct (Z.ltb_spec c' 0) as [|Hc']; [done|].
      rewrite list_lookup_insert_ne; [done|].
      intros Heq. apply Hne. f_equal. lia.
    + rewrite list_lookup_insert_ne; [done|]. lia.
Qed.

(** ** Loops *)

Lemma foldM_app {S A} (body : A -> S -> outcome S) l1 l2 s :
  foldM body (l1 ++ l2) s = let* s' := foldM body l1 s in foldM body l2 s'.
Proof.
  revert s. induction l1 as [|a l1 IH]; intros s; simpl; [done|].
  destruct (body a s); simpl; auto.
Qed.

Lemma for_upto_nonpos {S} n (body : Z -> S -> outcome S) s :
  n <= 0 -> for_upto n body s = Ok s.
Proof. intros Hn. unfold for_upto. by rewrite seqZ_nil. Qed.

Lemma for_upto_succ {S} n (body : Z -> S -> outcome S) s :
  0 <= n ->
  for_upto (n + 1) body s = let* s' := for_upto n body s in body n s'.
Proof.
  intros Hn. unfold for_upto. rewrite seqZ_app by lia. rewrite foldM_app.
  destruct (foldM body (seqZ 0 n) s) as [s'| |]; [|done|done].
  replace (seqZ (0 + n) 1) with [n].
  - simpl. by destruct (body n s').
  - rewrite seqZ_cons by lia. by rewrite seqZ_nil by lia.
Qed.

(** The invariant rule of the [for] loop. *)
Lemma for_upto_inv {S} (P : Z -> S -> Prop) n (body : Z -> S -> outcome S) s0 :
  0 <= n -> P 0 s0 ->
  (forall k s, 0 <= k < n -> P k s -> exists s', body k s = Ok s' /\ P (k + 1) s') ->
  exists s', for_upto n body s0 = Ok s' /\ P n s'.
Proof.
  intros Hn H0 Hstep.
  assert (forall m, 0 <= m -> m <= n ->
            exists s', for_upto m body s0 = Ok s' /\ P m s') as Hall.
  { intros m Hm. pattern m. apply natlike_ind; [| |done].
    - intros _. exists s0. by rewrite for_upto_nonpos.
    - intros k Hk IH Hle. destruct IH as (s1 & Hrun & HP); [lia|].
      destruct (Hstep k s1) as (s2 & Hbody & HP2); [lia|done|].
      exists s2. unfold Z.succ. rewrite for_upto_succ by done.
      rewrite Hrun. simpl. done. }
  apply Hall; lia.
Qed.

(** ** Walks and simple paths *)

Section Paths.

Context {D : Type} `{DoubleOps D}.

Variable graph : list (list D).

Lemma walk_from_snoc w acc u v j :
  last (u :: w) = Some j ->
  walk_from graph acc u (w ++ [v]) = dadd (walk_from graph acc u w) (edge graph j v).
Proof.
  revert acc u. induction w as [|a w IH]; intros acc u Hl; simpl.
  - by injection Hl as ->.
  - apply IH. by rewrite last_cons_cons in Hl.
Qed.

Lemma walk_cost_snoc w j v :
  last w = Some j ->
  walk_cost graph (w ++ [v]) = dadd (walk_cost graph w) (edge graph j v).
Proof.
  destruct w as [|u w]; [done|]. intros Hl. simpl. by apply walk_from_snoc.
Qed.

Lemma simple_path_members n s S i w :
  simple_path n s S i w ->
  (0 <= i < n /\ Z.testbit S i = true) /\ (0 <= s < n /\ Z.testbit S s = true).
Proof.
  intros (Hh & Hl & Hnd & Hel). split; apply Hel.
  - by apply last_Some_elem_of.
  - by apply head_Some_elem_of.
Qed.

Lemma simple_path_start n s :
  0 <= s < n -> simple_path n s (Z.shiftl 1 s) s [s].
Proof.
  intros Hs. split; [done|]. split; [done|]. split; [apply NoDup_singleton|].
  intros k. rewrite list_elem_of_singleton, pow2_testbit by lia. split.
  - intros ->. split; [done|apply Z.eqb_refl].
  - intros [_ Hk%Z.eqb_eq]. done.
Qed.

Lemma simple_path_extend n s S i j w :
  0 <= i < n -> Z.testbit S i = true ->
  simple_path n s (Z.lxor S (Z.shiftl 1 i)) j w ->
  simple_path n s S i (w ++ [i]) /\
  walk_cost graph (w ++ [i]) = dadd (walk_cost graph w) (edge graph j i).
Proof.
  intros Hi Hb (Hh & Hl & Hnd & Hel). split; [|by apply walk_cost_snoc].
  split. { apply head_Some in Hh as [l' ->]. done. }
  split. { apply last_snoc. }
  split.
  { apply NoDup_app. split; [done|]. split; [|apply NoDup_singleton].
    intros x Hx ->%list_elem_of_singleton. apply Hel in Hx as [_ Hx].
    rewrite lxor_bit_testbit, Hb, Z.eqb_refl in Hx by lia. done. }
  intros k. rewrite elem_of_app, list_elem_of_singleton, Hel, lxor_bit_testbit by lia.
  destruct (Z.eqb_spec i k) as [->|Hne].
  - rewrite Hb. simpl. split; [intros [[_ [=]]|_]; done | intros _; by right].
  - rewrite xorb_false_r. split; [intros [?| ->]; done | intros ?; by left].
Qed.

Lemma simple_path_inv n s S i w :
  simple_path n s S i w ->
  (w = [s] /\ i = s /\ (forall k, 0 <= k < n -> Z.testbit S k = true -> k = s)) \/
  exists w' j, w = w' ++ [i] /\ j <> i /\
               simple_path n s (Z.lxor S (Z.shiftl 1 i)) j w'.
Proof.
  intros (Hh & Hl & Hnd & Hel).
  apply last_Some in Hl as [w' ->].
  assert (0 <= i < n /\ Z.testbit S i = true) as [Hi Hb].
  { apply Hel, elem_of_app. right. by apply list_elem_of_singleton. }
  destruct (last w') as [j|] eqn:Hj.
  - right. exists w', j. split; [done|].
    apply NoDup_app in Hnd as (Hnd' & Hdisj & _).
    assert (j ∈ w') as Hjin by (by apply last_Some_elem_of).
    assert (i ∉ w') as Hinot.
    { intros Hin. apply (Hdisj i Hin). by apply list_elem_of_singleton. }
    split. { intros ->. done. }
    split. { destruct w'; [done|]. done. }
    split; [done|]. split; [done|].
    intros k. rewrite lxor_bit_testbit by lia.
    destruct (Z.eqb_spec i k) as [<-|Hne].
    + rewrite Hb. simpl. split; [done|intros [_ [=]]].
    + rewrite xorb_false_r, <- Hel, elem_of_app, list_elem_of_singleton.
      split; [by left|intros [?| ->]; done].
  - left. apply last_None in Hj as ->. simpl in *. injection Hh as ->.
    split; [done|]. split; [done|]. intros k Hk Hbk.
    assert (k ∈ [s]) as Hin by (by apply Hel). by apply list_elem_of_singleton in Hin.
Qed.

Lemma head_last_NoDup (w : list Z) x :
  head w = Some x -> last w = Some x -> NoDup w -> w = [x].
Proof.
  destruct w as [|y w]; [done|]. intros [= ->] Hl Hnd.
  destruct w as [|z w]; [done|]. exfalso.
  rewrite last_cons_cons in Hl. apply last_Some_elem_of in Hl.
  by apply NoDup_cons in Hnd as [Hnot _].
Qed.

(** A path that ends where it starts is the one-element path. *)
Lemma simple_path_at_start n s S w :
  simple_path n s S s w ->
  w = [s] /\ forall k, 0 <= k < n -> Z.testbit S k = true -> k = s.
Proof.
  intros (Hh & Hl & Hnd & Hel).
  assert (w = [s]) as -> by (by apply head_last_NoDup).
  split; [done|]. intros k Hk Hb.
  assert (k ∈ [s]) as Hin by (by apply Hel). by apply list_elem_of_singleton in Hin.
Qed.

(** All simple paths through the same subset have the same length. *)
Lemma simple_path_length n s S i j w1 w2 :
  simple_path n s S i w1 -> simple_path n s S j w2 -> length w1 = length w2.
Proof.
  intros (_ & _ & Hnd1 & Hel1) (_ & _ & Hnd2 & Hel2).
  apply Permutation_length, NoDup_Permutation; [done|done|].
  intros k. by rewrite Hel1, Hel2.
Qed.

(** A Hamiltonian cycle is a simple path through all locations, closed
    by the edge back to the start. *)
Lemma tour_split n s t :
  2 <= n -> tour n s t ->
  exists w i, t = w ++ [s] /\ i <> s /\ 0 <= i < n /\
    simple_path n s (2 ^ n - 1) i w /\
    walk_cost graph t = dadd (walk_cost graph w) (edge graph i s).
Proof.
  intros Hn (w & -> & Hh & Hnd & Hel).
  destruct (last w) as [i|] eqn:Hl;
    [|apply last_None in Hl as ->; done].
  exists w, i. split; [done|].
  assert (0 <= i < n) as Hi by (by apply Hel, last_Some_elem_of).
  assert (i <> s) as Hne.
  { intros ->. assert (w = [s]) as -> by (by apply head_last_NoDup).
    destruct (Z.eq_dec s 0) as [->|Hs0].
    - assert (1 ∈ [0]) as Hin by (apply Hel; lia).
      by apply list_elem_of_singleton in Hin.
    - assert (0 ∈ [s]) as Hin by (apply Hel; lia).
      apply list_elem_of_singleton in Hin. lia. }
  split; [done|]. split; [done|]. split; [|by apply walk_cost_snoc].
  split; [done|]. split; [done|]. split; [done|].
  intros k. rewrite Hel. split.
  - intros Hk. split; [done|]. by apply testbit_full.
  - by intros [Hk _].
Qed.

Lemma tour_of_path n s i w :
  simple_path n s (2 ^ n - 1) i w ->
  tour n s (w ++ [s]) /\
  walk_cost graph (w ++ [s]) = dadd (walk_cost graph w) (edge graph i s).
Proof.
  intros (Hh & Hl & Hnd & Hel). split; [|by apply walk_cost_snoc].
  exists w. split; [done|]. split; [done|]. split; [done|].
  intros k. rewrite Hel. split.
  - by intros [Hk _].
  - intros Hk. split; [done|]. by apply testbit_full.
Qed.

End Paths.

(** ** Inputs *)

Lemma valid_well_formed {D : Type} `{DoubleOps D} (graph : list (list D)) startNode :
  valid_input graph startNode -> Z.of_nat (length graph) <= 30 ->
  well_formed graph startNode /\ nonneg graph.
Proof. intros (Hsq & Hnn & Hs) Hn. repeat split; try done; lia. Qed.

(** With more than 30 locations the number of subsets is not an [int]. *)
Lemma solve_table_too_many {D : Type} `{DoubleOps D} (graph : list (list D)) startNode :
  31 <= Z.of_nat (length graph) -> solve_table graph startNode = Undefined.
Proof.
  intros Hn. unfold solve_table.
  by replace (31 <=? Z.of_nat (length graph)) with true
    by (symmetry; by apply Z.leb_le).
Qed.

(** ** The forward pass *)

Section Forward.

Context {D : Type} `{DoubleLaws D}.

Variable graph : list (list D).
Variable startNode : Z.
Hypothesis Hwf : well_formed graph startNode.
Hypothesis Hnn : nonneg graph.

Let n := Z.of_nat (length graph).
Let s := startNode - 1.

Lemma n_range : 1 <= n <= 30.
Proof. destruct Hwf as (_ & ? & ?). unfold n. lia. Qed.

Lemma s_range : 0 <= s < n.
Proof. destruct Hwf as (_ & ? & ?). unfold n, s. lia. Qed.

Lemma graph_shaped : shaped n n graph.
Proof.
  destruct Hwf as (Hsq & _ & _). split; [done|].
  unfold square in Hsq. eapply Forall_impl; [exact Hsq|].
  simpl. intros row ->. done.
Qed.

Lemma graph_get j i :
  0 <= j < n -> 0 <= i < n -> get2 graph j i = Ok (edge graph j i).
Proof.
  intros Hj Hi.
  destruct (get2_shaped_Ok graph n n j i graph_shaped Hj Hi) as [c Hc].
  unfold edge. by rewrite Hc.
Qed.

Lemma graph_nonneg j i :
  0 <= j < n -> 0 <= i < n -> dle dzero (edge graph j i).
Proof.
  intros Hj Hi. pose proof (graph_get j i Hj Hi) as Hc.
  apply get2_Ok in Hc as (_ & _ & row & Hrow & Hc).
  unfold nonneg in Hnn. rewrite Forall_forall in Hnn.
  assert (Forall (dle dzero) row) as Hr.
  { apply Hnn, list_elem_of_lookup. eauto. }
  rewrite Forall_forall in Hr. apply Hr, list_elem_of_lookup. eauto.
Qed.

Lemma init_table_spec :
  exists dp0, init_table n (2 ^ n) startNode = Ok dp0 /\
    shaped (2 ^ n) n dp0 /\
    forall S i, 0 <= S < 2 ^ n -> 0 <= i < n ->
      get2 dp0 S i = Ok (init_val s S i).
Proof.
  pose proof n_range as Hn. pose proof s_range as Hs.
  set (dp := replicate (Z.to_nat (2 ^ n)) (replicate (Z.to_nat n) INF)).
  assert (0 < 2 ^ n) as Hpow by (apply Z.pow_pos_nonneg; lia).
  assert (shaped (2 ^ n) n dp) as Hsh.
  { split.
    - unfold dp. rewrite length_replicate. lia.
    - apply Forall_replicate. rewrite length_replicate. lia. }
  assert (forall S i, 0 <= S < 2 ^ n -> 0 <= i < n -> get2 dp S i = Ok INF) as Hget.
  { intros S i HS Hi. apply get2_Ok. split; [lia|]. split; [lia|].
    exists (replicate (Z.to_nat n) INF). split.
    - unfold dp. apply lookup_replicate_2. lia.
    - apply lookup_replicate_2. lia. }
  pose proof (pow2_lt n s Hs) as Hb.
  destruct (set2_spec dp (2 ^ n) n (Z.shiftl 1 s) s INF dzero Hsh)
    as (dp0 & Hset & Hsh0 & Hsame & Hother).
  { by apply Hget. }
  exists dp0. split; [|split; [done|]].
  - unfold init_table, shl1. fold s. fold dp.
    replace ((0 <=? s) && (s <? 31)) with true; [simpl; done|].
    symmetry. apply andb_true_iff. split; [apply Z.leb_le|apply Z.ltb_lt]; lia.
  - intros S i HS Hi. unfold init_val.
    destruct (Z.eqb_spec S (Z.shiftl 1 s)) as [->|HneS]; simpl.
    + destruct (Z.eqb_spec i s) as [->|Hnei]; [done|].
      rewrite Hother; [by apply Hget|]. intros [= ?]. done.
    + rewrite Hother; [by apply Hget|]. intros [= ? ?]. done.
Qed.

(** One relaxation, with its guards satisfied. *)
Lemma relax_spec dp S i j :
  shaped (2 ^ n) n dp -> 0 <= S < 2 ^ n ->
  0 <= i < n -> 0 <= j < n -> Z.testbit S i = true ->
  exists cur prev dp',
    get2 dp S i = Ok cur /\
    get2 dp (Z.lxor S (Z.shiftl 1 i)) j = Ok prev /\
    relax graph S i j dp = Ok dp' /\
    shaped (2 ^ n) n dp' /\
    get2 dp' S i = Ok (dmin cur (dadd prev (edge graph j i))) /\
    forall r c, (r, c) <> (S, i) -> get2 dp' r c = get2 dp r c.
Proof.
  intros Hsh HS Hi Hj Hb.
  pose proof (lxor_bit_smaller S i ltac:(lia) ltac:(lia) Hb) as Hsm.
  destruct (get2_shaped_Ok dp _ _ S i Hsh HS Hi) as [cur Hcur].
  destruct (get2_shaped_Ok dp _ _ (Z.lxor S (Z.shiftl 1 i)) j Hsh) as [prev Hprev];
    [lia|done|].
  pose proof (graph_get j i Hj Hi) as Hc.
  destruct (set2_spec dp _ _ S i cur (dmin cur (dadd prev (edge graph j i))) Hsh Hcur)
    as (dp' & Hset & Hsh' & Hsame & Hother).
  exists cur, prev, dp'. split; [done|]. split; [done|].
  split; [|done].
  unfold relax. rewrite Hcur. simpl. rewrite Hprev. simpl. rewrite Hc. simpl. done.
Qed.

(** The loop over [j] stopped after [m] rounds, for a member [i] of [S]:
    only cell [(S, i)] changes, and its value is the least of its old value
    and the candidates [dp[S ^ (1 << i)][j] + graph[j][i]] seen so far. *)
Lemma loop_j_prefix dp S i m :
  shaped (2 ^ n) n dp -> 0 <= S < 2 ^ n -> 0 <= i < n ->
  Z.testbit S i = true -> 0 <= m <= n ->
  exists v0 w dp',
    get2 dp S i = Ok v0 /\
    for_upto m (body_j graph S i) dp = Ok dp' /\
    shaped (2 ^ n) n dp' /\
    (forall r c, (r, c) <> (S, i) -> get2 dp' r c = get2 dp r c) /\
    get2 dp' S i = Ok w /\
    dle w v0 /\
    (forall j, 0 <= j < m -> Z.testbit S j = true -> j <> i ->
       exists a, get2 dp (Z.lxor S (Z.shiftl 1 i)) j = Ok a /\
                 dle w (dadd a (edge graph j i))) /\
    (w = v0 \/
     exists j a, 0 <= j < m /\ Z.testbit S j = true /\ j <> i /\
       get2 dp (Z.lxor S (Z.shiftl 1 i)) j = Ok a /\
       w = dadd a (edge graph j i)).
Proof.
  intros Hsh HS Hi Hb Hm.
  destruct (get2_shaped_Ok dp _ _ S i Hsh HS Hi) as [v0 Hv0].
  pose proof (lxor_bit_smaller S i ltac:(lia) ltac:(lia) Hb) as Hsm.
  set (P := fun (k : Z) (dp' : list (list D)) =>
    shaped (2 ^ n) n dp' /\
    (forall r c, (r, c) <> (S, i) -> get2 dp' r c = get2 dp r c) /\
    exists w, get2 dp' S i = Ok w /\ dle w v0 /\
      (forall j, 0 <= j < k -> Z.testbit S j = true -> j <> i ->
         exists a, get2 dp (Z.lxor S (Z.shiftl 1 i)) j = Ok a /\
                   dle w (dadd a (edge graph j i))) /\
      (w = v0 \/
       exists j a, 0 <= j < k /\ Z.testbit S j = true /\ j <> i /\
         get2 dp (Z.lxor S (Z.shiftl 1 i)) j = Ok a /\
         w = dadd a (edge graph j i))).
  destruct (for_upto_inv P m (body_j graph S i) dp) as (dp' & Hrun & HP).
  - lia.
  - split; [done|]. split; [done|]. exists v0. split; [done|].
    split; [apply dle_refl|]. split; [intros; lia|by left].
  - intros k dp1 Hk (Hsh1 & Hfr1 & w & Hw & Hle & Hlow & Hatt).
    unfold body_j. rewrite in_subset_testbit by lia.
    destruct (negb (Z.testbit S k) || (i =? k)) eqn:Hguard.
    + exists dp1. split; [done|]. split; [done|]. split; [done|].
      exists w. split; [done|]. split; [done|]. split.
      * intros j Hj Hbj Hne. destruct (Z.eq_dec j k) as [->|Hjk].
        -- apply orb_true_iff in Hguard as [Hg|Hg%Z.eqb_eq]; [|done].
           rewrite Hbj in Hg. done.
        -- apply Hlow; [lia|done|done].
      * destruct Hatt as [->|(j & a & Hj & Hrest)]; [by left|].
        right. exists j, a. split; [lia|done].
    + apply orb_false_iff in Hguard as [Hbk%negb_false_iff Hne%Z.eqb_neq].
      destruct (relax_spec dp1 S i k Hsh1 HS Hi ltac:(lia) Hb)
        as (cur & prev & dp2 & Hcur & Hprev & Hrel & Hsh2 & Hnew & Hfr2).
      assert (cur = w) as -> by congruence.
      rewrite Hfr1 in Hprev by (intros [= ? ?]; lia).
      exists dp2. split; [done|]. split; [done|]. split.
      { intros r c Hrc. rewrite Hfr2 by done. by apply Hfr1. }
      exists (dmin w (dadd prev (edge graph k i))). split; [done|].
      split. { eapply dle_trans; [apply dmin_le_l|done]. }
      split.
      * intros j Hj Hbj Hnej. destruct (Z.eq_dec j k) as [->|Hjk].
        -- exists prev. split; [done|apply dmin_le_r].
        -- destruct (Hlow j) as (a & Ha & Hla); [lia|done|done|].
           exists a. split; [done|]. eapply dle_trans; [apply dmin_le_l|done].
      * destruct (dmin_cases w (dadd prev (edge graph k i))) as [->| ->].
        -- destruct Hatt as [->|(j & a & Hj & Hrest)]; [by left|].
           right. exists j, a. split; [lia|done].
        -- right. exists k, prev. split; [lia|]. split; [done|].
           split; [congruence|done].
  - destruct HP as (Hsh' & Hfr & w & Hw & Hle & Hlow & Hatt).
    exists v0, w, dp'. repeat (split; [done|]). done.
Qed.

Lemma init_val_le_INF S i : dle (init_val s S i) INF.
Proof.
  unfold init_val. destruct ((S =? Z.shiftl 1 s) && (i =? s));
    [apply dzero_le_INF|apply dle_refl].
Qed.

(** A cell outside its own subset keeps [INF], which is also its final value. *)
Lemma capped_min_nonmember S i :
  Z.testbit S i = false -> capped_min graph n s S i INF.
Proof.
  intros Hb. split; [apply dle_refl|]. split.
  - intros w [[_ Hi] _]%simple_path_members. congruence.
  - rewrite dlt_irrefl. done.
Qed.

Lemma init_val_nonmember S i :
  Z.testbit S i = false -> init_val s S i = INF.
Proof.
  intros Hb. unfold init_val.
  destruct (Z.eqb_spec S (Z.shiftl 1 s)) as [->|]; [|done].
  destruct (Z.eqb_spec i s) as [->|]; [|done].
  pose proof s_range. rewrite pow2_testbit, Z.eqb_refl in Hb by lia. done.
Qed.

(** The value left by the loop over [j] is final once the cells of the
    smaller subset [S ^ (1 << i)] are. *)
Lemma capped_min_relaxed dp S i w :
  0 <= S < 2 ^ n -> 0 <= i < n -> Z.testbit S i = true ->
  dle w (init_val s S i) ->
  (forall j, 0 <= j < n -> Z.testbit S j = true -> j <> i ->
     exists a, get2 dp (Z.lxor S (Z.shiftl 1 i)) j = Ok a /\
               dle w (dadd a (edge graph j i))) ->
  (w = init_val s S i \/
   exists j a, 0 <= j < n /\ Z.testbit S j = true /\ j <> i /\
     get2 dp (Z.lxor S (Z.shiftl 1 i)) j = Ok a /\
     w = dadd a (edge graph j i)) ->
  (forall j, 0 <= j < n -> cell_final graph n s dp (Z.lxor S (Z.shiftl 1 i)) j) ->
  capped_min graph n s S i w.
Proof.
  intros HS Hi Hb Hle Hlow Hatt Hprev. pose proof s_range as Hs.
  split; [|split].
  - eapply dle_trans; [done|apply init_val_le_INF].
  - intros p Hp. destruct (simple_path_inv _ _ _ _ _ Hp)
      as [(-> & -> & Hsing)|(p' & j & -> & Hne & Hp')].
    + assert (S = Z.shiftl 1 s) as -> by (by eapply singleton_subset).
      unfold init_val in Hle. rewrite !Z.eqb_refl in Hle. done.
    + pose proof (simple_path_members _ _ _ _ _ Hp') as [[Hj Hbj] _].
      rewrite lxor_bit_testbit in Hbj by lia.
      replace (i =? j) with false in Hbj by (symmetry; apply Z.eqb_neq; lia).
      rewrite xorb_false_r in Hbj.
      destruct (Hlow j Hj Hbj Hne) as (a & Ha & Hwa).
      destruct (Hprev j Hj) as (a' & Ha' & _ & Hlb & _).
      assert (a' = a) as -> by congruence.
      destruct (simple_path_extend graph _ _ _ _ _ _ Hi Hb Hp') as [_ ->].
      eapply dle_trans; [done|]. apply dadd_mono_l. by apply Hlb.
  - intros Hlt. destruct Hatt as [->|(j & a & Hj & Hbj & Hne & Ha & ->)].
    + unfold init_val in Hlt.
      destruct (Z.eqb_spec S (Z.shiftl 1 s)) as [->|];
        [|simpl in Hlt; by rewrite dlt_irrefl in Hlt].
      destruct (Z.eqb_spec i s) as [->|];
        [|simpl in Hlt; by rewrite dlt_irrefl in Hlt].
      exists [s]. split; [by apply simple_path_start|].
      unfold init_val. by rewrite !Z.eqb_refl.
    + pose proof (dadd_lt_INF _ _ (graph_nonneg j i Hj Hi) Hlt) as Hlta.
      destruct (Hprev j Hj) as (a' & Ha' & _ & _ & Hwit).
      assert (a' = a) as -> by congruence.
      destruct (Hwit Hlta) as (p' & Hp' & Hcost).
      destruct (simple_path_extend graph _ _ _ _ _ _ Hi Hb Hp') as [Hp Hc].
      exists (p' ++ [i]). split; [done|]. by rewrite Hc, Hcost.
Qed.

(** The loop over [i] of subset [S], stopped after [i0] rounds. *)
Lemma loop_i_prefix dp S i0 :
  shaped (2 ^ n) n dp -> 0 <= S < 2 ^ n -> 0 <= i0 <= n ->
  (forall S' j, 0 <= S' < S -> 0 <= j < n -> cell_final graph n s dp S' j) ->
  (forall i, 0 <= i < n -> get2 dp S i = Ok (init_val s S i)) ->
  exists dp',
    for_upto i0 (body_i graph n S) dp = Ok dp' /\
    shaped (2 ^ n) n dp' /\
    (forall r c, r <> S -> get2 dp' r c = get2 dp r c) /\
    (forall i, 0 <= i < i0 -> cell_final graph n s dp' S i) /\
    (forall i, i0 <= i < n -> get2 dp' S i = Ok (init_val s S i)).
Proof.
  intros Hsh HS Hi0 Hrows Hrow.
  set (P := fun (k : Z) (dp' : list (list D)) =>
    shaped (2 ^ n) n dp' /\
    (forall r c, r <> S -> get2 dp' r c = get2 dp r c) /\
    (forall i, 0 <= i < k -> cell_final graph n s dp' S i) /\
    (forall i, k <= i < n -> get2 dp' S i = Ok (init_val s S i))).
  apply (for_upto_inv P); [lia| |].
  - split; [done|]. split; [done|]. split; [intros; lia|].
    intros i Hi. apply Hrow. lia.
  - intros k dp1 Hk (Hsh1 & Hfr1 & Hdone & Htodo).
    unfold body_i. rewrite in_subset_testbit by lia.
    destruct (Z.testbit S k) eqn:Hbk; simpl.
    + destruct (loop_j_prefix dp1 S k n Hsh1 HS ltac:(lia) Hbk ltac:(pose proof n_range; lia))
        as (v0 & w & dp2 & Hv0 & Hrun & Hsh2 & Hfr2 & Hw & Hle & Hlow & Hatt).
      rewrite Htodo in Hv0 by lia. injection Hv0 as <-.
      exists dp2. split; [done|]. split; [done|]. split; [|split].
      * intros r c Hr. rewrite Hfr2 by (intros [= ? ?]; done). by apply Hfr1.
      * intros i Hi. destruct (Z.eq_dec i k) as [->|Hne].
        -- exists w. split; [done|].
           pose proof (lxor_bit_smaller S k ltac:(lia) ltac:(lia) Hbk) as Hsm.
           apply (capped_min_relaxed dp1); try done; try lia.
           intros j Hj. destruct (Hrows (Z.lxor S (Z.shiftl 1 k)) j) as (a & Ha & Hfin);
             [lia|done|].
           exists a. split; [|done]. rewrite Hfr1 by lia. done.
        -- destruct (Hdone i) as (v & Hv & Hfin); [lia|].
           exists v. split; [|done]. rewrite Hfr2 by (intros [= ?]; done). done.
      * intros i Hi. rewrite Hfr2 by (intros [= ?]; lia). apply Htodo. lia.
    + exists dp1. split; [done|]. split; [done|]. split; [done|]. split.
      * intros i Hi. destruct (Z.eq_dec i k) as [->|Hne]; [|apply Hdone; lia].
        exists INF. split; [|by apply capped_min_nonmember].
        rewrite Htodo by lia. by rewrite init_val_nonmember.
      * intros i Hi. apply Htodo. lia.
Qed.

(** The forward pass stopped after the subsets below [S0]: their rows are
    final, the other rows are as [init_table] left them. *)
Lemma forward_prefix dp0 S0 :
  shaped (2 ^ n) n dp0 ->
  (forall S i, 0 <= S < 2 ^ n -> 0 <= i < n -> get2 dp0 S i = Ok (init_val s S i)) ->
  0 <= S0 <= 2 ^ n ->
  exists dp,
    forward graph n S0 dp0 = Ok dp /\
    shaped (2 ^ n) n dp /\
    (forall S i, 0 <= S < S0 -> 0 <= i < n -> cell_final graph n s dp S i) /\
    (forall S i, S0 <= S < 2 ^ n -> 0 <= i < n -> get2 dp S i = Ok (init_val s S i)).
Proof.
  intros Hsh0 Hinit HS0. pose proof n_range as Hn.
  set (P := fun (k : Z) (dp : list (list D)) =>
    shaped (2 ^ n) n dp /\
    (forall S i, 0 <= S < k -> 0 <= i < n -> cell_final graph n s dp S i) /\
    (forall S i, k <= S < 2 ^ n -> 0 <= i < n -> get2 dp S i = Ok (init_val s S i))).
  apply (for_upto_inv P); [lia| |].
  - split; [done|]. split; [intros; lia|]. intros S i HS Hi. apply Hinit; lia.
  - intros k dp1 Hk (Hsh1 & Hdone & Htodo).
    destruct (loop_i_prefix dp1 k n Hsh1 ltac:(lia) ltac:(lia))
      as (dp2 & Hrun & Hsh2 & Hfr & Hrow & _).
    { intros S' j HS' Hj. apply Hdone; lia. }
    { intros i Hi. apply Htodo; lia. }
    exists dp2. split; [done|]. split; [done|]. split.
    + intros S i HS Hi. destruct (Z.eq_dec S k) as [->|Hne]; [by apply Hrow|].
      destruct (Hdone S i) as (v & Hv & Hfin); [lia|done|].
      exists v. split; [|done]. by rewrite Hfr.
    + intros S i HS Hi. rewrite Hfr by lia. apply Htodo; lia.
Qed.

(** *** Properties kept by every relaxation *)

Section Stable.

Variable Q : list (list D) -> Prop.

Hypothesis Q_relax : forall dp S i j dp',
  shaped (2 ^ n) n dp -> Q dp ->
  0 <= S < 2 ^ n -> 0 <= i < n -> 0 <= j < n ->
  Z.testbit S i = true -> Z.testbit S j = true -> i <> j ->
  relax graph S i j dp = Ok dp' -> Q dp'.

Lemma loop_j_stable dp S i m :
  shaped (2 ^ n) n dp -> Q dp -> 0 <= S < 2 ^ n -> 0 <= i < n ->
  Z.testbit S i = true -> 0 <= m <= n ->
  exists dp', for_upto m (body_j graph S i) dp = Ok dp' /\
              shaped (2 ^ n) n dp' /\ Q dp'.
Proof.
  intros Hsh HQ HS Hi Hb Hm.
  apply (for_upto_inv (fun _ dp' => shaped (2 ^ n) n dp' /\ Q dp')); [lia|done|].
  intros k dp1 Hk [Hsh1 HQ1]. unfold body_j. rewrite in_subset_testbit by lia.
  destruct (negb (Z.testbit S k) || (i =? k)) eqn:Hguard; [by exists dp1|].
  apply orb_false_iff in Hguard as [Hbk%negb_false_iff Hne%Z.eqb_neq].
  destruct (relax_spec dp1 S i k Hsh1 HS Hi ltac:(lia) Hb)
    as (cur & prev & dp2 & _ & _ & Hrel & Hsh2 & _).
  exists dp2. split; [done|]. split; [done|].
  apply (Q_relax dp1 S i k); try done. lia.
Qed.

Lemma loop_i_stable dp S m :
  shaped (2 ^ n) n dp -> Q dp -> 0 <= S < 2 ^ n -> 0 <= m <= n ->
  exists dp', for_upto m (body_i graph n S) dp = Ok dp' /\
              shaped (2 ^ n) n dp' /\ Q dp'.
Proof.
  intros Hsh HQ HS Hm. pose proof n_range as Hn.
  apply (for_upto_inv (fun _ dp' => shaped (2 ^ n) n dp' /\ Q dp')); [lia|done|].
  intros k dp1 Hk [Hsh1 HQ1]. unfold body_i. rewrite in_subset_testbit by lia.
  destruct (Z.testbit S k) eqn:Hbk; simpl; [|by exists dp1].
  apply loop_j_stable; try done; lia.
Qed.

Lemma forward_stable dp m :
  shaped (2 ^ n) n dp -> Q dp -> 0 <= m <= 2 ^ n ->
  exists dp', forward graph n m dp = Ok dp' /\ shaped (2 ^ n) n dp' /\ Q dp'.
Proof.
  intros Hsh HQ Hm. pose proof n_range as Hn.
  apply (for_upto_inv (fun _ dp' => shaped (2 ^ n) n dp' /\ Q dp')); [lia|done|].
  intros k dp1 Hk [Hsh1 HQ1]. apply loop_i_stable; try done; lia.
Qed.

Lemma forward_at_stable dp S i j :
  shaped (2 ^ n) n dp -> Q dp ->
  0 <= S < 2 ^ n -> 0 <= i < n -> 0 <= j <= n ->
  exists dp', forward_at graph n S i j dp = Ok dp' /\
              shaped (2 ^ n) n dp' /\ Q dp'.
Proof.
  intros Hsh HQ HS Hi Hj. unfold forward_at.
  destruct (forward_stable dp S Hsh HQ ltac:(lia)) as (dp1 & -> & Hsh1 & HQ1).
  simpl.
  destruct (loop_i_stable dp1 S i Hsh1 HQ1 HS ltac:(lia)) as (dp2 & -> & Hsh2 & HQ2).
  simpl. rewrite in_subset_testbit by lia.
  destruct (Z.testbit S i) eqn:Hb; [|by exists dp2].
  by apply loop_j_stable.
Qed.

End Stable.

(** With non-negative entries a relaxation leaves the unreachable cells
    at [INF]: both operands of its [min] are [>= INF] there. *)
Lemma relax_unreached dp S i j dp' :
  shaped (2 ^ n) n dp -> unreached_INF s dp ->
  0 <= S < 2 ^ n -> 0 <= i < n -> 0 <= j < n ->
  Z.testbit S i = true -> Z.testbit S j = true -> i <> j ->
  relax graph S i j dp = Ok dp' -> unreached_INF s dp'.
Proof.
  intros Hsh HQ HS Hi Hj Hbi Hbj Hne Hrel. pose proof s_range as Hs.
  destruct (relax_spec dp S i j Hsh HS Hi Hj Hbi)
    as (cur & prev & dp2 & Hcur & Hprev & Hrel2 & _ & Hnew & Hfr).
  assert (dp2 = dp') as -> by congruence.
  intros S' i' v Hv Hout.
  destruct (decide ((S', i') = (S, i))) as [[= -> ->]|Hother].
  - destruct Hout as [Hs0|Hi0]; [|congruence].
    assert (cur = INF) as -> by (apply (HQ S i); auto).
    assert (prev = INF) as ->.
    { apply (HQ (Z.lxor S (Z.shiftl 1 i)) j); [done|]. left.
      rewrite lxor_bit_testbit, Hs0 by lia.
      destruct (Z.eqb_spec i s) as [->|]; [congruence|done]. }
    rewrite Hnew in Hv. injection Hv as <-. unfold dmin.
    by rewrite (dadd_nonneg INF _ (graph_nonneg j i Hj Hi)).
  - rewrite Hfr in Hv by done. by apply (HQ S' i').
Qed.

Lemma init_unreached dp0 :
  shaped (2 ^ n) n dp0 ->
  (forall S i, 0 <= S < 2 ^ n -> 0 <= i < n -> get2 dp0 S i = Ok (init_val s S i)) ->
  unreached_INF s dp0.
Proof.
  intros Hsh Hinit S i v Hv Hout. pose proof s_range as Hs.
  destruct (get2_shaped_range _ _ _ _ _ _ Hsh Hv) as [HS Hi].
  rewrite Hinit in Hv by done. injection Hv as <-. unfold init_val.
  destruct (Z.eqb_spec S (Z.shiftl 1 s)) as [->|]; [|done].
  destruct (Z.eqb_spec i s) as [->|]; [|done].
  rewrite pow2_testbit, Z.eqb_refl in Hout by lia. by destruct Hout.
Qed.

(** *** The closing loop *)

Lemma closing_spec dp :
  shaped (2 ^ n) n dp ->
  exists m last,
    closing graph n (2 ^ n) startNode dp = Ok (m, last) /\
    dle m INF /\
    (forall i, 0 <= i < n -> i <> s ->
       exists a, get2 dp (2 ^ n - 1) i = Ok a /\ dle m (dadd a (edge graph i s))) /\
    ((m = INF /\ last = -1) \/
     (0 <= last < n /\ last <> s /\ dlt m INF = true /\
      exists a, get2 dp (2 ^ n - 1) last = Ok a /\ m = dadd a (edge graph last s))).
Proof.
  intros Hsh. pose proof n_range as Hn. pose proof s_range as Hs.
  assert (0 < 2 ^ n) as Hpow by (apply Z.pow_pos_nonneg; lia).
  set (P := fun (k : Z) (st : D * Z) =>
    dle (fst st) INF /\
    (forall i, 0 <= i < k -> i <> s ->
       exists a, get2 dp (2 ^ n - 1) i = Ok a /\
                 dle (fst st) (dadd a (edge graph i s))) /\
    ((fst st = INF /\ snd st = -1) \/
     (0 <= snd st < k /\ snd st <> s /\ dlt (fst st) INF = true /\
      exists a, get2 dp (2 ^ n - 1) (snd st) = Ok a /\
                fst st = dadd a (edge graph (snd st) s)))).
  unfold closing.
  destruct (for_upto_inv P n
    (fun i '(minDistance, lastNode) =>
       if i =? startNode - 1 then Ok (minDistance, lastNode)
       else
         let* a := get2 dp (2 ^ n - 1) i in
         let* c := get2 graph i (startNode - 1) in
         let cost := dadd a c in
         if dlt cost minDistance then Ok (cost, i) else Ok (minDistance, lastNode))
    (INF, -1)) as ([m last] & Hrun & Hle & Hlow & Hatt).
  - lia.
  - split; [apply dle_refl|]. split; [intros; lia|by left].
  - intros k [m last] Hk (Hle & Hlow & Hatt). simpl in *. fold s.
    destruct (Z.eqb_spec k s) as [->|Hks].
    + exists (m, last). split; [done|]. unfold P. simpl. split; [done|]. split.
      * intros i Hi Hne. apply Hlow; [lia|done].
      * destruct Hatt as [?|(? & ?)]; [by left|right]. split; [lia|done].
    + destruct (get2_shaped_Ok dp _ _ (2 ^ n - 1) k Hsh) as [a Ha]; [lia|lia|].
      rewrite Ha. simpl. rewrite (graph_get k s) by lia. simpl.
      destruct (dlt (dadd a (edge graph k s)) m) eqn:Hlt.
      * exists (dadd a (edge graph k s), k). split; [done|]. unfold P. simpl. split.
        { eapply dle_trans; [by apply dlt_dle|done]. }
        split.
        -- intros i Hi Hne. destruct (Z.eq_dec i k) as [->|Hik].
           ++ exists a. split; [done|apply dle_refl].
           ++ destruct (Hlow i) as (b & Hb & Hmb); [lia|done|].
              exists b. split; [done|].
              eapply dle_trans; [by apply dlt_dle|done].
        -- right. split; [lia|]. split; [done|]. split.
           ++ by eapply dlt_le_trans.
           ++ by exists a.
      * exists (m, last). split; [done|]. unfold P. simpl. split; [done|]. split.
        -- intros i Hi Hne. destruct (Z.eq_dec i k) as [->|Hik].
           ++ by exists a.
           ++ apply Hlow; [lia|done].
        -- destruct Hatt as [?|(? & ?)]; [by left|right]. split; [lia|done].
  - exists m, last. simpl in *. done.
Qed.

(** *** Lines 24-57 as a whole *)

(** Without any assumption on the sign of the entries, lines 24-57 run
    to their end on a well-formed input; [minDistance] is then the least
    of [INF] and the closing costs, and [lastNode] is [-1] exactly when no
    closing cost is below [INF]. *)
Lemma solve_table_total :
  exists dp m last,
    solve_table graph startNode = Ok (dp, m, last) /\
    shaped (2 ^ n) n dp /\
    dle m INF /\
    (forall i, 0 <= i < n -> i <> s ->
       exists a, get2 dp (2 ^ n - 1) i = Ok a /\ dle m (dadd a (edge graph i s))) /\
    ((m = INF /\ last = -1) \/
     (0 <= last < n /\ last <> s /\ dlt m INF = true /\
      exists a, get2 dp (2 ^ n - 1) last = Ok a /\ m = dadd a (edge graph last s))).
Proof.
  pose proof n_range as Hn.
  destruct init_table_spec as (dp0 & Hinit & Hsh0 & _).
  assert (0 < 2 ^ n) as Hpow by (apply Z.pow_pos_nonneg; lia).
  destruct (forward_stable (fun _ => True) ltac:(done) dp0 (2 ^ n) Hsh0 I ltac:(lia))
    as (dp & Hfw & Hsh & _).
  destruct (closing_spec dp Hsh) as (m & last & Hcl & Hrest).
  exists dp, m, last. split; [|done]. unfold solve_table. fold n.
  replace (31 <=? n) with false by (symmetry; apply Z.leb_gt; lia).
  rewrite Hinit. simpl. rewrite Hfw. simpl. rewrite Hcl. done.
Qed.

Lemma solve_table_spec :
  exists dp m last,
    solve_table graph startNode = Ok (dp, m, last) /\
    shaped (2 ^ n) n dp /\
    (forall S i, 0 <= S < 2 ^ n -> 0 <= i < n -> cell_final graph n s dp S i) /\
    dle m INF /\
    (forall i, 0 <= i < n -> i <> s ->
       exists a, get2 dp (2 ^ n - 1) i = Ok a /\ dle m (dadd a (edge graph i s))) /\
    ((m = INF /\ last = -1) \/
     (0 <= last < n /\ last <> s /\ dlt m INF = true /\
      exists a, get2 dp (2 ^ n - 1) last = Ok a /\ m = dadd a (edge graph last s))).
Proof.
  pose proof n_range as Hn.
  destruct init_table_spec as (dp0 & Hinit & Hsh0 & Hcells).
  assert (0 < 2 ^ n) as Hpow by (apply Z.pow_pos_nonneg; lia).
  destruct (forward_prefix dp0 (2 ^ n) Hsh0 Hcells ltac:(lia))
    as (dp & Hfw & Hsh & Hfin & _).
  destruct (closing_spec dp Hsh) as (m & last & Hcl & Hrest).
  exists dp, m, last. split; [|done]. unfold solve_table. fold n.
  replace (31 <=? n) with false by (symmetry; apply Z.leb_gt; lia).
  rewrite Hinit. simpl. rewrite Hfw. simpl. rewrite Hcl. done.
Qed.

(** The value of [minDistance] after line 57 is the lesser of [INF] and
    the least cost of a Hamiltonian cycle through the start. *)
Lemma closing_min_tour dp m last :
  2 <= n ->
  (forall S i, 0 <= S < 2 ^ n -> 0 <= i < n -> cell_final graph n s dp S i) ->
  (forall i, 0 <= i < n -> i <> s ->
     exists a, get2 dp (2 ^ n - 1) i = Ok a /\ dle m (dadd a (edge graph i s))) ->
  ((m = INF /\ last = -1) \/
   (0 <= last < n /\ last <> s /\ dlt m INF = true /\
    exists a, get2 dp (2 ^ n - 1) last = Ok a /\ m = dadd a (edge graph last s))) ->
  (forall t, tour n s t -> dle m (walk_cost graph t)) /\
  (dlt m INF = true -> exists t, tour n s t /\ walk_cost graph t = m).
Proof.
  intros Hn2 Hfin Hlow Hatt. pose proof s_range as Hs.
  assert (0 < 2 ^ n) as Hpow by (apply Z.pow_pos_nonneg; lia).
  split.
  - intros t Ht.
    destruct (tour_split graph n s t Hn2 Ht) as (w & i & -> & Hne & Hi & Hw & ->).
    destruct (Hlow i Hi Hne) as (a & Ha & Hma).
    destruct (Hfin (2 ^ n - 1) i) as (a' & Ha' & _ & Hlb & _); [lia|done|].
    assert (a' = a) as -> by congruence.
    eapply dle_trans; [done|]. apply dadd_mono_l. by apply Hlb.
  - intros Hlt. destruct Hatt as [[-> _]|(Hl & Hne & _ & a & Ha & ->)].
    { by rewrite dlt_irrefl in Hlt. }
    pose proof (dadd_lt_INF _ _ (graph_nonneg last s Hl Hs) Hlt) as Hlta.
    destruct (Hfin (2 ^ n - 1) last) as (a' & Ha' & _ & _ & Hwit); [lia|done|].
    assert (a' = a) as -> by congruence.
    destruct (Hwit Hlta) as (w & Hw & Hcost).
    destruct (tour_of_path graph n s last w Hw) as [Ht Hc].
    exists (w ++ [s]). split; [done|]. by rewrite Hc, Hcost.
Qed.

(** *** The reconstruction *)

Section Reconstruction.

Variable dp : list (list D).
Hypothesis Hsh : shaped (2 ^ n) n dp.
Hypothesis Hfin :
  forall S i, 0 <= S < 2 ^ n -> 0 <= i < n -> cell_final graph n s dp S i.

(** A cell below [INF] other than the base cell equals one of the
    candidates it was relaxed with. *)
Lemma pred_exists S cur v :
  0 <= S < 2 ^ n -> 0 <= cur < n -> cur <> s ->
  get2 dp S cur = Ok v -> dlt v INF = true ->
  Z.testbit S cur = true /\
  exists j a, 0 <= j < n /\ j <> cur /\ Z.testbit S j = true /\
    get2 dp (Z.lxor S (Z.shiftl 1 cur)) j = Ok a /\
    v = dadd a (edge graph j cur).
Proof.
  intros HS Hc Hne Hv Hlt.
  destruct (Hfin S cur HS Hc) as (v' & Hv' & _ & Hlb & Hwit).
  assert (v' = v) as -> by congruence.
  destruct (Hwit Hlt) as (w & Hw & Hcost).
  pose proof (simple_path_members _ _ _ _ _ Hw) as [[_ Hb] _].
  split; [done|].
  destruct (simple_path_inv _ _ _ _ _ Hw)
    as [(_ & -> & _)|(w' & j & -> & Hjne & Hw')]; [done|].
  pose proof (simple_path_members _ _ _ _ _ Hw') as [[Hj Hbj] _].
  rewrite lxor_bit_testbit in Hbj by lia.
  replace (cur =? j) with false in Hbj by (symmetry; apply Z.eqb_neq; lia).
  rewrite xorb_false_r in Hbj.
  pose proof (lxor_bit_smaller S cur ltac:(lia) ltac:(lia) Hb) as Hsm.
  destruct (Hfin (Z.lxor S (Z.shiftl 1 cur)) j) as (a & Ha & _ & Hlba & Hwita);
    [lia|done|].
  exists j, a. split; [done|]. split; [done|]. split; [done|]. split; [done|].
  destruct (simple_path_extend graph _ _ _ _ _ _ Hc Hb Hw') as [_ Hext].
  rewrite Hext in Hcost.
  assert (dle (dadd a (edge graph j cur)) v) as Hle1.
  { rewrite <- Hcost. apply dadd_mono_l. by apply Hlba. }
  apply dle_antisym; [|done].
  assert (dlt a INF = true) as Hlta.
  { eapply dle_lt_trans; [|exact Hlt].
    eapply dle_trans; [|exact Hle1]. apply dadd_nonneg. by apply graph_nonneg. }
  destruct (Hwita Hlta) as (w2 & Hw2 & Hcost2).
  destruct (simple_path_extend graph _ _ _ _ _ _ Hc Hb Hw2) as [Hp2 Hext2].
  rewrite <- Hcost2, <- Hext2. by apply Hlb.
Qed.

(** The search of lines 70-77 finds the first matching candidate. *)
Lemma find_pred_spec S cur v l :
  0 <= S < 2 ^ n -> 0 <= cur < n -> Z.testbit S cur = true ->
  get2 dp S cur = Ok v ->
  (forall i, i ∈ l -> 0 <= i < n) ->
  (exists j a, j ∈ l /\ j <> cur /\ Z.testbit S j = true /\
     get2 dp (Z.lxor S (Z.shiftl 1 cur)) j = Ok a /\
     v = dadd a (edge graph j cur)) ->
  exists p a,
    find_pred graph dp S cur (Z.lxor S (Z.shiftl 1 cur)) l = Ok (Some p) /\
    p ∈ l /\ p <> cur /\ Z.testbit S p = true /\
    get2 dp (Z.lxor S (Z.shiftl 1 cur)) p = Ok a /\
    v = dadd a (edge graph p cur).
Proof.
  intros HS Hc Hb Hv.
  pose proof (lxor_bit_smaller S cur ltac:(lia) ltac:(lia) Hb) as Hsm.
  induction l as [|i rest IH]; intros Hrange (j & a & Hj & Hne & Hbj & Ha & Heq).
  { by apply elem_of_nil in Hj. }
  assert (0 <= i < n) as Hi by (apply Hrange; left).
  assert (forall k, k ∈ rest -> 0 <= k < n) as Hrange'.
  { intros k Hk. apply Hrange. by right. }
  simpl. rewrite in_subset_testbit by lia.
  destruct ((i =? cur) || negb (Z.testbit S i)) eqn:Hguard.
  - destruct IH as (p & b & Hrun & Hp & Hrest); [done| |].
    + exists j, a. split; [|done].
      apply elem_of_cons in Hj as [->|Hj]; [|done]. exfalso.
      apply orb_true_iff in Hguard as [Hg%Z.eqb_eq|Hg]; [done|].
      by rewrite Hbj in Hg.
    + exists p, b. split; [done|]. split; [by right|done].
  - apply orb_false_iff in Hguard as [Hine%Z.eqb_neq Hbi%negb_false_iff].
    rewrite Hv. simpl.
    destruct (get2_shaped_Ok dp _ _ (Z.lxor S (Z.shiftl 1 cur)) i Hsh) as [b Hb'];
      [lia|done|].
    rewrite Hb'. simpl. rewrite (graph_get i cur) by done. simpl.
    destruct (deq v (dadd b (edge graph i cur))) eqn:Hdeq.
    + apply deq_spec in Hdeq. exists i, b. split; [done|]. split; [by left|done].
    + destruct IH as (p & c & Hrun & Hp & Hrest); [done| |].
      * exists j, a. split; [|done].
        apply elem_of_cons in Hj as [->|Hj]; [|done]. exfalso.
        assert (b = a) as -> by congruence.
        assert (deq v (dadd a (edge graph i cur)) = true) by (by apply deq_spec).
        congruence.
      * exists p, c. split; [done|]. split; [by right|done].
Qed.

(** The [while] loop, started in a cell below [INF], reaches the start
    after one round per remaining location and pushes each of them once. *)
Lemma reconstruct_ok L :
  forall fuel S cur v path w,
    simple_path n s S cur w -> length w = Datatypes.S L -> (L <= fuel)%nat ->
    0 <= S < 2 ^ n -> get2 dp S cur = Ok v -> dlt v INF = true ->
    exists visited,
      reconstruct fuel graph dp n startNode S cur path
        = Ok (path ++ ((fun k => k + 1) <$> visited)) /\
      NoDup visited /\
      forall k, k ∈ visited <-> (0 <= k < n /\ Z.testbit S k = true) /\ k <> s.
Proof.
  pose proof n_range as Hn.
  induction L as [|L IH]; intros fuel S cur v path w Hw Hlen Hfuel HS Hv Hlt.
  - (* the path is [s] *)
    destruct w as [|x [|y w]]; [done| |done].
    destruct Hw as (Hh & Hl & Hnd & Hel). injection Hh as ->. injection Hl as <-.
    exists []. split; [|split; [apply NoDup_nil_2|]].
    + rewrite app_nil_r. destruct fuel; simpl; fold s; by rewrite Z.eqb_refl.
    + intros k. split; [by intros ?%elem_of_nil|].
      intros [Hk Hne]. apply Hel in Hk. by apply list_elem_of_singleton in Hk.
  - pose proof (simple_path_members _ _ _ _ _ Hw) as [[Hc Hb] _].
    assert (cur <> s) as Hne.
    { intros ->. apply simple_path_at_start in Hw as [-> _]. done. }
    destruct fuel as [|fuel]; [lia|]. simpl. fold s.
    replace (cur =? s) with false by (symmetry; by apply Z.eqb_neq).
    unfold shl1.
    replace ((0 <=? cur) && (cur <? 31)) with true
      by (symmetry; apply andb_true_iff; split; [apply Z.leb_le|apply Z.ltb_lt]; lia).
    simpl.
    destruct (pred_exists S cur v HS Hc Hne Hv Hlt) as (_ & j & a & Hj & Hrest).
    destruct (find_pred_spec S cur v (seqZ 0 n) HS Hc Hb Hv)
      as (p & b & Hrun & Hp & Hpne & Hbp & Hgb & Heq).
    { intros i Hi%elem_of_seqZ. lia. }
    { exists j, a. split; [apply elem_of_seqZ; lia|done]. }
    rewrite Hrun. simpl.
    apply elem_of_seqZ in Hp.
    pose proof (lxor_bit_smaller S cur ltac:(lia) ltac:(lia) Hb) as Hsm.
    assert (dlt b INF = true) as Hltb.
    { rewrite Heq in Hlt. eapply dadd_lt_INF; [|exact Hlt].
      apply graph_nonneg; lia. }
    destruct (Hfin (Z.lxor S (Z.shiftl 1 cur)) p) as (b' & Hb' & _ & _ & Hwit);
      [lia|lia|].
    assert (b' = b) as -> by congruence.
    destruct (Hwit Hltb) as (w2 & Hw2 & _).
    destruct (simple_path_extend graph _ _ _ _ _ _ Hc Hb Hw2) as [Hw2' _].
    pose proof (simple_path_length _ _ _ _ _ _ _ Hw Hw2') as Hlen2.
    rewrite length_app in Hlen2. simpl in Hlen2.
    destruct (IH fuel (Z.lxor S (Z.shiftl 1 cur)) p b (path ++ [cur + 1]) w2)
      as (visited & Hrec & Hnd & Hel); [done|lia|lia|lia|done|done|].
    exists (cur :: visited). split; [|split].
    + rewrite Hrec, fmap_cons, <- app_assoc. done.
    + apply NoDup_cons. split; [|done]. intros [[_ Hcb] _]%Hel.
      rewrite lxor_bit_testbit, Hb, Z.eqb_refl in Hcb by lia. done.
    + intros k. rewrite elem_of_cons, Hel, lxor_bit_testbit by lia.
      destruct (Z.eqb_spec cur k) as [<-|Hck].
      * rewrite Hb. simpl. split; [intros [_|[[_ [=]] _]]; done|by left].
      * rewrite xorb_false_r. split; [intros [->|?]; done|by right].
Qed.

(** Every state the loop passes through is a cell below [INF]. *)
Lemma reached_inv last S cur :
  0 <= last < n ->
  (exists a, get2 dp (2 ^ n - 1) last = Ok a /\ dlt a INF = true) ->
  reached graph dp n s last S cur ->
  0 <= S < 2 ^ n /\ 0 <= cur < n /\
  exists v, get2 dp S cur = Ok v /\ dlt v INF = true.
Proof.
  intros Hl Hstart Hreach. pose proof n_range as Hn.
  assert (0 < 2 ^ n) as Hpow by (apply Z.pow_pos_nonneg; lia).
  induction Hreach as [|S cur i Hreach IH Hne Hfind].
  - split; [lia|]. split; [done|]. done.
  - destruct IH as (HS & Hc & v & Hv & Hlt).
    destruct (pred_exists S cur v HS Hc Hne Hv Hlt) as (Hb & j & a & Hj & Hrest).
    destruct (find_pred_spec S cur v (seqZ 0 n) HS Hc Hb Hv)
      as (p & b & Hrun & Hp & Hpne & Hbp & Hgb & Heq).
    { intros k Hk%elem_of_seqZ. lia. }
    { exists j, a. split; [apply elem_of_seqZ; lia|done]. }
    assert (p = i) as -> by congruence.
    apply elem_of_seqZ in Hp.
    pose proof (lxor_bit_smaller S cur ltac:(lia) ltac:(lia) Hb) as Hsm.
    split; [lia|]. split; [lia|]. exists b. split; [done|].
    rewrite Heq in Hlt. eapply dadd_lt_INF; [|exact Hlt].
    apply graph_nonneg; lia.
Qed.

(** In every such state other than the start, the search finds a
    predecessor that satisfies the equality of line 72. *)
Lemma reached_finds last S cur :
  0 <= last < n ->
  (exists a, get2 dp (2 ^ n - 1) last = Ok a /\ dlt a INF = true) ->
  reached graph dp n s last S cur -> cur <> s ->
  exists p v a,
    find_pred graph dp S cur (Z.lxor S (Z.shiftl 1 cur)) (seqZ 0 n) = Ok (Some p) /\
    p <> cur /\ Z.testbit S p = true /\
    get2 dp S cur = Ok v /\
    get2 dp (Z.lxor S (Z.shiftl 1 cur)) p = Ok a /\
    v = dadd a (edge graph p cur).
Proof.
  intros Hl Hstart Hreach Hne.
  destruct (reached_inv last S cur Hl Hstart Hreach) as (HS & Hc & v & Hv & Hlt).
  destruct (pred_exists S cur v HS Hc Hne Hv Hlt) as (Hb & j & a & Hj & Hrest).
  destruct (find_pred_spec S cur v (seqZ 0 n) HS Hc Hb Hv)
    as (p & b & Hrun & Hp & Hpne & Hbp & Hgb & Heq).
  { intros k Hk%elem_of_seqZ. lia. }
  { exists j, a. split; [apply elem_of_seqZ; lia|done]. }
  exists p, v, b. done.
Qed.

End Reconstruction.

(** *** The whole function *)

Lemma full_path_length i w :
  simple_path n s (2 ^ n - 1) i w -> length w = Z.to_nat n.
Proof.
  intros (_ & _ & Hnd & Hel). rewrite <- (length_seqZ 0 n).
  apply Permutation_length, NoDup_Permutation; [done|apply NoDup_seqZ|].
  intros k. rewrite Hel, elem_of_seqZ. split.
  - intros [Hk _]. lia.
  - intros Hk. split; [lia|]. apply testbit_full. lia.
Qed.

(** When some Hamiltonian cycle costs less than [INF], the function
    returns: the closing loop picks a last location, the reconstruction
    walks back from it to the start, and the route lists every other
    location once. *)
Lemma heldKarp_ok fuel bestRoute :
  2 <= n ->
  (exists t, tour n s t /\ dlt (walk_cost graph t) INF = true) ->
  (Z.to_nat n <= fuel)%nat ->
  exists dp m last visited,
    solve_table graph startNode = Ok (dp, m, last) /\
    shaped (2 ^ n) n dp /\
    (forall S i, 0 <= S < 2 ^ n -> 0 <= i < n -> cell_final graph n s dp S i) /\
    dlt m INF = true /\
    (forall t, tour n s t -> dle m (walk_cost graph t)) /\
    (exists t, tour n s t /\ walk_cost graph t = m) /\
    (0 <= last < n /\ last <> s) /\
    (exists a, get2 dp (2 ^ n - 1) last = Ok a /\ dlt a INF = true /\
               m = dadd a (edge graph last s)) /\
    (forall i, 0 <= i < n -> i <> s ->
       exists a, get2 dp (2 ^ n - 1) i = Ok a /\ dle m (dadd a (edge graph i s))) /\
    reconstruct fuel graph dp n startNode (2 ^ n - 1) last [startNode]
      = Ok ([startNode] ++ ((fun k => k + 1) <$> visited)) /\
    NoDup visited /\
    (forall k, k ∈ visited <-> 0 <= k < n /\ k <> s) /\
    heldKarp fuel graph startNode bestRoute
      = Ok (m, startNode :: reverse ((fun k => k + 1) <$> visited) ++ [startNode]).
Proof.
  intros Hn2 (t0 & Ht0 & Hlt0) Hfuel. pose proof n_range as Hn. pose proof s_range as Hs.
  assert (0 < 2 ^ n) as Hpow by (apply Z.pow_pos_nonneg; lia).
  destruct solve_table_spec as (dp & m & last & Hsolve & Hsh & Hfin & Hle & Hlow & Hatt).
  destruct (closing_min_tour dp m last Hn2 Hfin Hlow Hatt) as [Hlb Hwit].
  assert (dlt m INF = true) as Hlt.
  { eapply dle_lt_trans; [|exact Hlt0]. by apply Hlb. }
  destruct Hatt as [[-> _]|(Hl & Hne & _ & a & Ha & Hm)].
  { by rewrite dlt_irrefl in Hlt. }
  assert (dlt a INF = true) as Hlta.
  { rewrite Hm in Hlt. eapply dadd_lt_INF; [|exact Hlt]. by apply graph_nonneg. }
  destruct (Hfin (2 ^ n - 1) last) as (a' & Ha' & _ & _ & Hpath); [lia|done|].
  assert (a' = a) as -> by congruence.
  destruct (Hpath Hlta) as (w & Hw & _).
  pose proof (full_path_length last w Hw) as Hlen.
  destruct (reconstruct_ok dp Hsh Hfin (Z.to_nat n - 1) fuel (2 ^ n - 1) last a
              [startNode] w Hw) as (visited & Hrec & Hnd & Hel);
    [lia|lia|lia|done|done|].
  exists dp, m, last, visited.
  split; [done|]. split; [done|]. split; [done|]. split; [done|].
  split; [done|]. split; [by apply Hwit|]. split; [done|].
  split; [by exists a|]. split; [done|]. split; [done|]. split; [done|].
  split.
  - intros k. rewrite Hel. split.
    + intros [[Hk _] Hks]. done.
    + intros [Hk Hks]. split; [|done]. split; [done|]. by apply testbit_full.
  - unfold heldKarp. rewrite Hsolve. cbn [bind]. fold n. rewrite Hrec. cbn [bind].
    f_equal. f_equal. by rewrite reverse_snoc, reverse_app, reverse_singleton.
Qed.

(** When the closing loop leaves [lastNode] at [-1], the reconstruction
    shifts by [-1]. *)
Lemma heldKarp_no_last fuel bestRoute dp m :
  solve_table graph startNode = Ok (dp, m, -1) ->
  heldKarp (S fuel) graph startNode bestRoute = Undefined.
Proof.
  intros Hsolve. pose proof s_range as Hs. unfold heldKarp.
  rewrite Hsolve. cbn [bind reconstruct]. fold s.
  destruct (Z.eqb_spec (-1) s) as [Heq|_]; [lia|]. reflexivity.
Qed.

Lemma capped_min_unique S i v v' :
  capped_min graph n s S i v -> capped_min graph n s S i v' -> v = v'.
Proof.
  assert (forall a b, capped_min graph n s S i a -> capped_min graph n s S i b ->
                      dle a b) as Hle.
  { intros a b (Ha & Hlba & _) (_ & _ & Hwb).
    destruct (dlt b INF) eqn:Hb.
    - destruct (Hwb eq_refl) as (w & Hw & <-). by apply Hlba.
    - by eapply dle_trans. }
  intros Hv Hv'. apply dle_antisym; by apply Hle.
Qed.

(** The forward pass stopped after [k] subsets has already given the rows
    below [k] the values they have at the end. *)
Lemma forward_rows_final dp0 dp k :
  shaped (2 ^ n) n dp0 ->
  (forall S i, 0 <= S < 2 ^ n -> 0 <= i < n -> get2 dp0 S i = Ok (init_val s S i)) ->
  forward graph n (2 ^ n) dp0 = Ok dp ->
  0 <= k <= 2 ^ n ->
  exists dpk, forward graph n k dp0 = Ok dpk /\
    forall S i, 0 <= S < k -> 0 <= i < n -> get2 dpk S i = get2 dp S i.
Proof.
  intros Hsh0 Hinit Hfw Hk. pose proof n_range as Hn.
  assert (0 < 2 ^ n) as Hpow by (apply Z.pow_pos_nonneg; lia).
  destruct (forward_prefix dp0 k Hsh0 Hinit Hk) as (dpk & Hrun & _ & Hfink & _).
  destruct (forward_prefix dp0 (2 ^ n) Hsh0 Hinit ltac:(lia)) as (dp' & Hrun' & _ & Hfin & _).
  assert (dp' = dp) as -> by congruence.
  exists dpk. split; [done|]. intros S i HS Hi.
  destruct (Hfink S i HS Hi) as (v & -> & Hv).
  destruct (Hfin S i ltac:(lia) Hi) as (v' & -> & Hv').
  f_equal. by eapply capped_min_unique.
Qed.

End Forward.

(** ** Raising an entry of the matrix *)

Section Monotone.

Context {D : Type} `{DoubleLaws D}.

Lemma walk_from_mono (g g' : list (list D)) acc acc' u w :
  (forall j i, dle (edge g j i) (edge g' j i)) ->
  dle acc acc' -> dle (walk_from g acc u w) (walk_from g' acc' u w).
Proof.
  intros Hedge. revert acc acc' u. induction w as [|v w IH]; intros acc acc' u Hacc.
  - done.
  - simpl. apply IH. eapply dle_trans; [by apply dadd_mono_l|].
    by apply dadd_mono_r.
Qed.

Lemma walk_cost_mono (g g' : list (list D)) w :
  (forall j i, dle (edge g j i) (edge g' j i)) ->
  dle (walk_cost g w) (walk_cost g' w).
Proof.
  intros Hedge. destruct w as [|u w]; [apply dle_refl|].
  simpl. apply walk_from_mono; [done|apply dle_refl].
Qed.

Lemma set2_Ok_inv {A} (m m' : list (list A)) r c x :
  set2 m r c x = Ok m' ->
  exists row a, get2 m r c = Ok a /\ m !! Z.to_nat r = Some row /\
    m' = <[Z.to_nat r := <[Z.to_nat c := x]> row]> m.
Proof.
  unfold set2, get2. destruct (at_ m r) as [row| |] eqn:Hrow; simpl; try done.
  destruct (at_ row c) as [a| |] eqn:Ha; simpl; try done.
  intros [= <-]. exists row, a. split; [done|].
  apply at_Ok in Hrow as [_ Hrow]. done.
Qed.

(** Raising one entry keeps the input valid and raises no other edge. *)
Lemma raise_entry_valid (graph graph' : list (list D)) startNode r c old x :
  valid_input graph startNode ->
  get2 graph r c = Ok old -> dle old x -> set2 graph r c x = Ok graph' ->
  valid_input graph' startNode /\
  length graph' = length graph /\
  forall j i, dle (edge graph j i) (edge graph' j i).
Proof.
  intros (Hsq & Hnn & Hs) Hold Hle Hset.
  destruct (set2_Ok_inv _ _ _ _ _ Hset) as (row & a & Ha & Hrow & ->).
  assert (a = old) as -> by congruence.
  assert (Forall (dle dzero) row) as Hrow_nn.
  { unfold nonneg in Hnn. rewrite Forall_forall in Hnn.
    apply Hnn, list_elem_of_lookup. eauto. }
  assert (dle dzero old) as Hold_nn.
  { apply get2_Ok in Hold as (_ & _ & row' & Hrow' & Hc).
    assert (row' = row) as -> by congruence.
    rewrite Forall_forall in Hrow_nn. apply Hrow_nn, list_elem_of_lookup. eauto. }
  assert (length row = length graph) as Hlen.
  { unfold square in Hsq. rewrite Forall_forall in Hsq.
    apply Hsq, list_elem_of_lookup. eauto. }
  split; [|split].
  - split; [|split].
    + unfold square. rewrite length_insert. apply Forall_insert; [done|].
      by rewrite length_insert.
    + unfold nonneg. apply Forall_insert; [done|].
      apply Forall_insert; [done|]. by eapply dle_trans.
    + by rewrite length_insert.
  - by rewrite length_insert.
  - intros j i.
    assert (shaped (Z.of_nat (length graph)) (Z.of_nat (length graph)) graph) as Hsh.
    { split; [done|]. unfold square in Hsq. eapply Forall_impl; [exact Hsq|].
      simpl. intros ? ->. done. }
    destruct (set2_spec graph _ _ r c old x Hsh Hold) as (g2 & Hset2 & _ & Hnew & Hfr).
    assert (g2 = <[Z.to_nat r := <[Z.to_nat c := x]> row]> graph) as -> by congruence.
    unfold edge. destruct (decide ((j, i) = (r, c))) as [[= -> ->]|Hne].
    + by rewrite Hnew, Hold.
    + rewrite Hfr by done. destruct (get2 graph j i); apply dle_refl.
Qed.

(** The value of [minDistance] is monotone in the matrix. *)
Lemma minDistance_mono (g g' : list (list D)) startNode dp m last dp' m' last' :
  well_formed g startNode -> nonneg g ->
  well_formed g' startNode -> nonneg g' ->
  length g' = length g ->
  (forall j i, dle (edge g j i) (edge g' j i)) ->
  solve_table g startNode = Ok (dp, m, last) ->
  solve_table g' startNode = Ok (dp', m', last') ->
  dle m m'.
Proof.
  intros Hwf Hnn Hwf' Hnn' Hlen Hedge Hsolve Hsolve'.
  destruct (solve_table_spec g startNode Hwf Hnn)
    as (dp1 & m1 & l1 & Hs1 & _ & Hfin & Hle & Hlow & _).
  destruct (solve_table_spec g' startNode Hwf' Hnn')
    as (dp2 & m2 & l2 & Hs2 & _ & Hfin' & _ & _ & Hatt').
  rewrite Hsolve in Hs1. injection Hs1 as <- <- <-.
  rewrite Hsolve' in Hs2. injection Hs2 as <- <- <-.
  rewrite Hlen in *.
  set (n := Z.of_nat (length g)) in *. set (s := startNode - 1) in *.
  assert (0 <= s < n) as Hs by (destruct Hwf as (_ & ? & ?); unfold n, s; lia).
  assert (0 < 2 ^ n) as Hpow by (apply Z.pow_pos_nonneg; lia).
  destruct Hatt' as [[-> _]|(Hl & Hne & Hlt' & a' & Ha' & ->)]; [done|].
  assert (dlt a' INF = true) as Hlta'.
  { eapply dadd_lt_INF; [|exact Hlt'].
    apply (graph_nonneg g' startNode Hwf' Hnn'); rewrite ?Hlen; done. }
  destruct (Hfin' (2 ^ n - 1) last') as (b' & Hb' & _ & _ & Hwit); [lia|done|].
  assert (b' = a') as -> by congruence.
  destruct (Hwit Hlta') as (w & Hw & <-).
  destruct (Hlow last' Hl Hne) as (a & Ha & Hma).
  destruct (Hfin (2 ^ n - 1) last') as (b & Hb & _ & Hlb & _); [lia|done|].
  assert (b = a) as -> by congruence.
  eapply dle_trans; [exact Hma|].
  eapply dle_trans; [apply dadd_mono_l, Hlb, Hw|].
  eapply dle_trans; [apply dadd_mono_l, walk_cost_mono, Hedge|].
  apply dadd_mono_r, Hedge.
Qed.

End Monotone.

(** ** Exact integer costs satisfy the laws *)

#[export] Instance Z_laws : DoubleLaws Z.
Proof.
  split; unfold dle; simpl.
  - intros x y. apply Z.eqb_eq.
  - intros x. apply Z.ltb_irrefl.
  - intros x y z Hxy%Z.ltb_lt Hyz%Z.ltb_lt. apply Z.ltb_lt. lia.
  - intros x y Hxy%Z.ltb_ge Hyx%Z.ltb_ge. lia.
  - intros x y c Hxy%Z.ltb_ge. apply Z.ltb_ge. lia.
  - intros x c d Hcd%Z.ltb_ge. apply Z.ltb_ge. lia.
  - intros x. apply Z.add_0_r.
  - reflexivity.
Qed.

(** Closed facts about the sample inputs. *)

Ltac concrete_members :=
  let k := fresh "k" in
  intros k; rewrite ?elem_of_cons, ?elem_of_nil; lia.

Ltac concrete_valid :=
  split; [|split]; [ repeat constructor | repeat constructor | simpl; lia ].

Lemma classic4_valid : valid_input classic4 1.
Proof. concrete_valid. Defined.

Lemma big2_valid : valid_input big2 1.
Proof. concrete_valid. Defined.

Lemma big3_valid : valid_input big3 1.
Proof. concrete_valid. Defined.

Lemma gap2_valid : valid_input gap2 1.
Proof. concrete_valid. Defined.

Lemma zero31_valid : valid_input zero31 1.
Proof.
  split; [|split].
  - apply Forall_replicate. by rewrite !length_replicate.
  - apply Forall_replicate, Forall_replicate. reflexivity.
  - unfold zero31. rewrite length_replicate. lia.
Qed.

Lemma zero31_undefined fuel bestRoute :
  heldKarp fuel zero31 1 bestRoute = Undefined.
Proof.
  unfold heldKarp. rewrite solve_table_too_many; [done|].
  unfold zero31. rewrite length_replicate. lia.
Qed.

Lemma classic4_tour : tour 4 0 [0; 1; 3; 2; 0].
Proof.
  exists [0; 1; 3; 2]. split; [done|]. split; [done|]. split.
  - apply (bool_decide_unpack _). reflexivity.
  - concrete_members.
Defined.

Lemma two_tour : tour 2 0 [0; 1; 0].
Proof.
  exists [0; 1]. split; [done|]. split; [done|]. split.
  - apply (bool_decide_unpack _). reflexivity.
  - concrete_members.
Defined.

(** ** Properties of the specification *)

(** *** The returned cost *)

(** C1, as amended: for a square matrix of non-negative costs with
    [2 <= n <= 30], a start in [1 .. n] and some Hamiltonian cycle through
    the start of cost below [INF], [heldKarp] returns (given [n] rounds of
    the reconstruction loop) the least cost of a Hamiltonian cycle that
    begins and ends at the start; that value is
    [dp[full][last] + graph[last][start]] for the chosen [last <> start],
    and no other [last] gives less. *)
Theorem heldKarp_returns_min_tour_cost {D : Type} `{DoubleLaws D}
    (graph : list (list D)) (startNode : Z) (fuel : nat) (bestRoute : list Z) :
  let n := Z.of_nat (length graph) in
  let s := startNode - 1 in
  valid_input graph startNode -> 2 <= n <= 30 ->
  (exists t, tour n s t /\ dlt (walk_cost graph t) INF = true) ->
  (Z.to_nat n <= fuel)%nat ->
  exists m route dp last a,
    heldKarp fuel graph startNode bestRoute = Ok (m, route) /\
    (forall t, tour n s t -> dle m (walk_cost graph t)) /\
    (exists t, tour n s t /\ walk_cost graph t = m) /\
    solve_table graph startNode = Ok (dp, m, last) /\
    0 <= last < n /\ last <> s /\
    get2 dp (2 ^ n - 1) last = Ok a /\
    m = dadd a (edge graph last s) /\
    forall i, 0 <= i < n -> i <> s ->
      exists b, get2 dp (2 ^ n - 1) i = Ok b /\ dle m (dadd b (edge graph i s)).
Proof.
  intros n s Hvalid [Hn2 Hn30] Htour Hfuel.
  destruct (valid_well_formed graph startNode Hvalid Hn30) as [Hwf Hnn].
  destruct (heldKarp_ok graph startNode Hwf Hnn fuel bestRoute Hn2 Htour Hfuel)
    as (dp & m & last & visited & Hsolve & _ & _ & _ & Hlb & Hwit & [Hl Hne]
        & (a & Ha & _ & Hm) & Hlow & _ & _ & _ & Hrun).
  exists m, (startNode :: reverse ((fun k => k + 1) <$> visited) ++ [startNode]),
    dp, last, a.
  repeat (split; [assumption|]). exact Hlow.
Qed.

Lemma heldKarp_returns_min_tour_cost_witness :
  valid_input classic4 1 /\
  exists m route,
    heldKarp 4 classic4 1 [] = Ok (m, route) /\
    (forall t, tour 4 0 t -> dle m (walk_cost classic4 t)) /\
    (exists t, tour 4 0 t /\ walk_cost classic4 t = m).
Proof.
  split; [exact classic4_valid|].
  destruct (heldKarp_returns_min_tour_cost classic4 1 4 [])
    as (m & route & _ & _ & _ & Hrun & Hlb & Hwit & _).
  - exact classic4_valid.
  - simpl. lia.
  - exists [0; 1; 3; 2; 0]. split; [exact classic4_tour|reflexivity].
  - simpl. lia.
  - exists m, route. split; [exact Hrun|]. split; [exact Hlb|exact Hwit].
Defined.

(** C1 as stated fails: all entries of [big2] are non-negative and finite,
    its only Hamiltonian cycle from location 1 costs [2^31], and
    [heldKarp] returns no value on it; nor does it on the 31 locations of
    [zero31], whose cycles all cost [0]. *)
Lemma heldKarp_large_costs_no_value :
  (valid_input big2 1 /\ tour 2 0 [0; 1; 0] /\
   walk_cost big2 [0; 1; 0] = 2147483648 /\
   forall fuel bestRoute r, heldKarp fuel big2 1 bestRoute <> Ok r) /\
  (valid_input zero31 1 /\
   forall fuel bestRoute, heldKarp fuel zero31 1 bestRoute = Undefined).
Proof.
  split.
  - split; [exact big2_valid|]. split; [exact two_tour|]. split; [reflexivity|].
    intros fuel bestRoute r. destruct fuel; vm_compute; discriminate.
  - split; [exact zero31_valid|exact zero31_undefined].
Qed.

(** *** The table after the forward pass *)

(** C2, as amended: on a valid input of at most 30 locations the forward
    pass ends with the table [heldKarp] goes on to use, and for every
    subset [S] that contains the start and every member [i] of [S] the
    cell [dp[S][i]] is the lesser of [INF] and the least cost of a simple
    path from the start through exactly [S] to [i]: it is at most [INF],
    at most the cost of each such path, and when below [INF] it is the
    cost of one of them (so it is [INF] when there is none).  Removing a
    member from a subset gives a numerically smaller subset, and once the
    pass has gone through the subsets below [k] their rows already hold
    the values they have at the end. *)
Theorem forward_pass_cells {D : Type} `{DoubleLaws D}
    (graph : list (list D)) (startNode : Z) :
  let n := Z.of_nat (length graph) in
  let s := startNode - 1 in
  valid_input graph startNode -> n <= 30 ->
  exists dp0 dp m last,
    init_table n (2 ^ n) startNode = Ok dp0 /\
    forward graph n (2 ^ n) dp0 = Ok dp /\
    solve_table graph startNode = Ok (dp, m, last) /\
    (forall S i, 0 <= S < 2 ^ n -> 0 <= i < n ->
       Z.testbit S s = true -> Z.testbit S i = true ->
       exists v, get2 dp S i = Ok v /\ capped_min graph n s S i v) /\
    (forall S i, 0 <= S -> 0 <= i -> in_subset S i = true ->
       0 <= Z.lxor S (Z.shiftl 1 i) < S) /\
    (forall k, 0 <= k <= 2 ^ n ->
       exists dpk, forward graph n k dp0 = Ok dpk /\
         forall S i, 0 <= S < k -> 0 <= i < n -> get2 dpk S i = get2 dp S i).
Proof.
  intros n s Hvalid Hn30.
  destruct (valid_well_formed graph startNode Hvalid Hn30) as [Hwf Hnn].
  pose proof (n_range graph startNode Hwf) as Hn. fold n in Hn.
  assert (0 < 2 ^ n) as Hpow by (apply Z.pow_pos_nonneg; lia).
  destruct (init_table_spec graph startNode Hwf) as (dp0 & Hinit & Hsh0 & Hcells).
  destruct (forward_prefix graph startNode Hwf Hnn dp0 (2 ^ n) Hsh0 Hcells)
    as (dp & Hfw & Hsh & Hfin & _); [fold n; lia|].
  destruct (solve_table_total graph startNode Hwf) as (dp' & m & last & Hsolve & _).
  assert (dp' = dp) as ->.
  { unfold solve_table in Hsolve.
    replace (31 <=? Z.of_nat (length graph)) with false in Hsolve
      by (symmetry; apply Z.leb_gt; lia).
    unfold n in Hinit, Hfw.
    rewrite Hinit in Hsolve. cbn [bind] in Hsolve. rewrite Hfw in Hsolve.
    cbn [bind] in Hsolve.
    destruct (closing graph _ _ startNode dp) as [[m0 l0]| |]; [|done|done].
    by injection Hsolve as -> _ _. }
  exists dp0, dp, m, last.
  split; [exact Hinit|]. split; [exact Hfw|]. split; [exact Hsolve|]. split; [|split].
  - intros S i HS Hi _ _. by apply Hfin.
  - intros S i HS Hi Hb. rewrite in_subset_testbit in Hb by done.
    by apply lxor_bit_smaller.
  - intros k Hk. by apply (forward_rows_final graph startNode Hwf Hnn dp0 dp k).
Qed.

Lemma forward_pass_cells_witness :
  valid_input classic4 1 /\
  exists dp0 dp,
    init_table 4 16 1 = Ok dp0 /\
    forward classic4 4 16 dp0 = Ok dp /\
    (forall S i, 0 <= S < 16 -> 0 <= i < 4 ->
       Z.testbit S 0 = true -> Z.testbit S i = true ->
       exists v, get2 dp S i = Ok v /\ capped_min classic4 4 0 S i v).
Proof.
  split; [exact classic4_valid|].
  destruct (forward_pass_cells classic4 1 classic4_valid)
    as (dp0 & dp & m & last & Hinit & Hfw & _ & Hcells & _); [simpl; lia|].
  exists dp0, dp. split; [exact Hinit|]. split; [exact Hfw|exact Hcells].
Defined.

(** C2 as stated fails: on [big3] the only simple path from location 0
    through all three locations to location 2 costs [2^31], yet the cell
    holds [INF = 2^31 - 1]; and on the 31 locations of [zero31] no table
    is built. *)
Lemma big3_cell_not_min_cost :
  (valid_input big3 1 /\
   (exists dp0 dp,
      init_table 3 8 1 = Ok dp0 /\ forward big3 3 8 dp0 = Ok dp /\
      get2 dp 7 2 = Ok 2147483647) /\
   simple_path 3 0 7 2 [0; 1; 2] /\
   forall w, simple_path 3 0 7 2 w -> walk_cost big3 w = 2147483648) /\
  (valid_input zero31 1 /\ solve_table zero31 1 = Undefined).
Proof.
  split; [|split; [exact zero31_valid|reflexivity]].
  assert (simple_path 3 0 7 2 [0; 1; 2]) as Hp.
  { split; [done|]. split; [done|]. split.
    - apply (bool_decide_unpack _). reflexivity.
    - intros k. rewrite ?elem_of_cons, ?elem_of_nil. split.
      + intros [->|[->|[->|[]]]]; done.
      + intros [Hk _]. lia. }
  split; [exact big3_valid|]. split; [|split; [exact Hp|]].
  - eexists _, _. split; [vm_compute; reflexivity|].
    split; vm_compute; reflexivity.
  - intros w Hw. pose proof (simple_path_length _ _ _ _ _ _ _ Hw Hp) as Hlen.
    destruct w as [|a [|b [|c [|d w]]]]; try done.
    destruct Hw as (Hh & Hl & Hnd & Hel). injection Hh as ->. injection Hl as ->.
    assert (0 <= b < 3) as Hb by (apply Hel; right; left).
    apply NoDup_cons in Hnd as [Hn0 Hnd]. apply NoDup_cons in Hnd as [Hn1 _].
    assert (b <> 0) by (intros ->; apply Hn0; left).
    assert (b <> 2) by (intros ->; apply Hn1; left).
    assert (b = 1) as -> by lia. reflexivity.
Qed.

(** *** The route *)

Lemma others_spec n startNode k :
  k ∈ others n startNode <-> 1 <= k <= n /\ k <> startNode.
Proof.
  unfold others. rewrite list_elem_of_filter, elem_of_seqZ. split.
  - intros [Hne Hk]. split; [lia|done].
  - intros [Hk Hne]. split; [done|lia].
Qed.

Lemma others_length n startNode :
  1 <= startNode <= n -> Z.of_nat (length (others n startNode)) = n - 1.
Proof.
  intros Hs.
  assert (NoDup (others n startNode)) as Hnd.
  { unfold others. apply NoDup_filter, NoDup_seqZ. }
  assert (Permutation (startNode :: others n startNode) (seqZ 1 n)) as Hperm.
  { apply NoDup_Permutation; [|apply NoDup_seqZ|].
    - apply NoDup_cons. split; [|done]. intros [_ Hne]%others_spec. done.
    - intros k. rewrite elem_of_cons, others_spec, elem_of_seqZ.
      destruct (Z.eq_dec k startNode) as [->|Hne]; [split; [lia|by left]|].
      split; [intros [?|[? _]]; [done|lia]|intros ?; right; split; [lia|done]]. }
  apply Permutation_length in Hperm. rewrite length_seqZ in Hperm.
  simpl in Hperm. lia.
Qed.

(** C3, as amended: on a valid input with [2 <= n <= 30] and some Hamiltonian
    cycle of cost below [INF], the route produced by [heldKarp] has length
    [n + 1], its first and last elements are the start, and the [n - 1]
    elements between them are a permutation of the other [n - 1]
    locations. *)
Theorem heldKarp_route_shape {D : Type} `{DoubleLaws D}
    (graph : list (list D)) (startNode : Z) (fuel : nat) (bestRoute : list Z) :
  let n := Z.of_nat (length graph) in
  let s := startNode - 1 in
  valid_input graph startNode -> 2 <= n <= 30 ->
  (exists t, tour n s t /\ dlt (walk_cost graph t) INF = true) ->
  (Z.to_nat n <= fuel)%nat ->
  exists m route interior,
    heldKarp fuel graph startNode bestRoute = Ok (m, route) /\
    route = startNode :: interior ++ [startNode] /\
    Z.of_nat (length route) = n + 1 /\
    head route = Some startNode /\ last route = Some startNode /\
    Z.of_nat (length interior) = n - 1 /\
    Permutation interior (others n startNode).
Proof.
  intros n s Hvalid [Hn2 Hn30] Htour Hfuel.
  destruct (valid_well_formed graph startNode Hvalid Hn30) as [Hwf Hnn].
  destruct (heldKarp_ok graph startNode Hwf Hnn fuel bestRoute Hn2 Htour Hfuel)
    as (dp & m & last & visited & _ & _ & _ & _ & _ & _ & _ & _ & _ & _
        & Hnd & Hel & Hrun).
  fold n s in Hel.
  set (interior := reverse ((fun k => k + 1) <$> visited)) in *.
  assert (Permutation interior (others n startNode)) as Hperm.
  { apply NoDup_Permutation.
    - unfold interior. rewrite reverse_Permutation.
      apply NoDup_fmap_2; [|done]. intros x y Hxy. lia.
    - unfold others. apply NoDup_filter, NoDup_seqZ.
    - intros k. unfold interior.
      rewrite elem_of_reverse, list_elem_of_fmap, others_spec. split.
      + intros (k0 & -> & [Hk Hne]%Hel). unfold s in Hne. lia.
      + intros [Hk Hne]. exists (k - 1). split; [lia|].
        apply Hel. unfold s. lia. }
  assert (Z.of_nat (length interior) = n - 1) as Hlen.
  { rewrite (Permutation_length Hperm). apply others_length.
    destruct Hwf as (_ & _ & Hs). done. }
  exists m, (startNode :: interior ++ [startNode]), interior.
  split; [exact Hrun|]. split; [done|]. split; [|split; [done|split]].
  - simpl. rewrite length_app. simpl. lia.
  - rewrite last_cons, last_snoc. done.
  - split; done.
Qed.

Lemma heldKarp_route_shape_witness :
  valid_input classic4 3 /\
  exists m route interior,
    heldKarp 4 classic4 3 [] = Ok (m, route) /\
    route = 3 :: interior ++ [3] /\
    Z.of_nat (length route) = 4 + 1 /\
    head route = Some 3 /\ last route = Some 3 /\
    Z.of_nat (length interior) = 4 - 1 /\
    Permutation interior (others 4 3).
Proof.
  assert (valid_input classic4 3) as Hv by concrete_valid.
  split; [exact Hv|].
  apply (heldKarp_route_shape classic4 3 4 [] Hv).
  - simpl. lia.
  - exists [2; 0; 1; 3; 2]. split; [|reflexivity].
    change (tour 4 2 [2; 0; 1; 3; 2]).
    exists [2; 0; 1; 3]. split; [done|]. split; [done|]. split.
    + apply (bool_decide_unpack _). reflexivity.
    + concrete_members.
  - simpl. lia.
Defined.

(** C3 as stated fails: [big2] is a valid input with a Hamiltonian cycle
    through location 1, and [heldKarp] produces no route for it (its
    closing loop leaves [lastNode] at [-1]); nor does it for the 31
    locations of [zero31]. *)
Lemma heldKarp_large_costs_no_route :
  (valid_input big2 1 /\ tour 2 0 [0; 1; 0] /\
   (exists dp m, solve_table big2 1 = Ok (dp, m, -1)) /\
   forall fuel bestRoute m route,
     heldKarp fuel big2 1 bestRoute <> Ok (m, route)) /\
  (valid_input zero31 1 /\
   forall fuel bestRoute, heldKarp fuel zero31 1 bestRoute = Undefined).
Proof.
  split.
  - split; [exact big2_valid|]. split; [exact two_tour|]. split.
    + eexists _, _. vm_compute. reflexivity.
    + intros fuel bestRoute m route. destruct fuel; vm_compute; discriminate.
  - split; [exact zero31_valid|exact zero31_undefined].
Qed.

(** *** The reconstruction loop *)

(** C7, as amended: on a valid input with [2 <= n <= 30] and some Hamiltonian
    cycle of cost below [INF], in every state [(subset, currentNode)] the
    reconstruction passes through with [currentNode] not the start, the
    search finds a predecessor [p] with
    [dp[subset][currentNode] == dp[subset \ {currentNode}][p] + graph[p][currentNode]];
    and the loop ends, having reached the start, within [n] rounds. *)
Theorem reconstruction_finds_predecessors {D : Type} `{DoubleLaws D}
    (graph : list (list D)) (startNode : Z) :
  let n := Z.of_nat (length graph) in
  let s := startNode - 1 in
  valid_input graph startNode -> 2 <= n <= 30 ->
  (exists t, tour n s t /\ dlt (walk_cost graph t) INF = true) ->
  exists dp m last,
    solve_table graph startNode = Ok (dp, m, last) /\
    (forall S cur, reached graph dp n s last S cur -> cur <> s ->
       exists p v a,
         find_pred graph dp S cur (Z.lxor S (Z.shiftl 1 cur)) (seqZ 0 n)
           = Ok (Some p) /\
         p <> cur /\ Z.testbit S p = true /\
         get2 dp S cur = Ok v /\
         get2 dp (Z.lxor S (Z.shiftl 1 cur)) p = Ok a /\
         v = dadd a (edge graph p cur)) /\
    (forall fuel, (Z.to_nat n <= fuel)%nat ->
       exists path,
         reconstruct fuel graph dp n startNode (2 ^ n - 1) last [startNode]
           = Ok path).
Proof.
  intros n s Hvalid [Hn2 Hn30] Htour.
  destruct (valid_well_formed graph startNode Hvalid Hn30) as [Hwf Hnn].
  destruct (heldKarp_ok graph startNode Hwf Hnn (Z.to_nat n) [] Hn2 Htour)
    as (dp & m & last & visited & Hsolve & Hsh & Hfin & _ & _ & _ & [Hl _]
        & (a & Ha & Hlta & _) & _); [fold n; lia|].
  exists dp, m, last. split; [exact Hsolve|]. split.
  - intros S cur Hreach Hne.
    apply (reached_finds graph startNode Hwf Hnn dp Hsh Hfin last S cur);
      try done. by exists a.
  - intros fuel Hfuel.
    destruct (heldKarp_ok graph startNode Hwf Hnn fuel [] Hn2 Htour Hfuel)
      as (dp' & m' & last' & visited' & Hsolve' & _ & _ & _ & _ & _ & _ & _ & _
          & Hrec & _).
    rewrite Hsolve in Hsolve'. injection Hsolve' as <- <- <-.
    eexists. exact Hrec.
Qed.

Lemma reconstruction_finds_predecessors_witness :
  exists dp m last,
    solve_table classic4 1 = Ok (dp, m, last) /\
    (forall S cur, reached classic4 dp 4 0 last S cur -> cur <> 0 ->
       exists p v a,
         find_pred classic4 dp S cur (Z.lxor S (Z.shiftl 1 cur)) (seqZ 0 4)
           = Ok (Some p) /\
         p <> cur /\ Z.testbit S p = true /\
         get2 dp S cur = Ok v /\
         get2 dp (Z.lxor S (Z.shiftl 1 cur)) p = Ok a /\
         v = dadd a (edge classic4 p cur)) /\
    (forall fuel, (Z.to_nat 4 <= fuel)%nat ->
       exists path,
         reconstruct fuel classic4 dp 4 1 (2 ^ 4 - 1) last [1] = Ok path).
Proof.
  apply (reconstruction_finds_predecessors classic4 1 classic4_valid).
  - simpl. lia.
  - exists [0; 1; 3; 2; 0]. split; [exact classic4_tour|reflexivity].
Defined.

(** C7 as stated fails: on the valid input [big2], which has a Hamiltonian
    cycle of finite cost [2^31], the reconstruction is entered with
    [lastNode = -1] and its first round shifts by [-1]; it never reaches
    the start. *)
Lemma reconstruction_large_costs_fails :
  valid_input big2 1 /\ tour 2 0 [0; 1; 0] /\
  walk_cost big2 [0; 1; 0] = 2147483648 /\
  exists dp m,
    solve_table big2 1 = Ok (dp, m, -1) /\
    forall fuel path,
      reconstruct fuel big2 dp 2 1 (2 ^ 2 - 1) (-1) [1] <> Ok path.
Proof.
  split; [exact big2_valid|]. split; [exact two_tour|]. split; [reflexivity|].
  eexists _, _. split; [vm_compute; reflexivity|].
  intros fuel path. destruct fuel; vm_compute; discriminate.
Qed.

(** *** Inputs the function does not check *)

(** C4, as amended: [heldKarp] validates nothing and has no rejection
    path.  For every square matrix of at most 30 rows and every start in
    [1 .. n], whatever the sign of the entries, the table is built, the
    forward pass and the closing loop run to their end and yield a value
    of [minDistance]. *)
Theorem solve_table_runs_on_any_entries {D : Type} `{DoubleLaws D}
    (graph : list (list D)) (startNode : Z) :
  well_formed graph startNode ->
  exists dp m last, solve_table graph startNode = Ok (dp, m, last).
Proof.
  intros Hwf.
  destruct (solve_table_total graph startNode Hwf) as (dp & m & last & Hrun & _).
  by exists dp, m, last.
Qed.

Lemma solve_table_runs_on_any_entries_witness :
  has_negative_entry neg2 /\
  exists dp m last, solve_table neg2 1 = Ok (dp, m, last).
Proof.
  split.
  - left. right. left. reflexivity.
  - apply (solve_table_runs_on_any_entries neg2 1).
    split; [repeat constructor|]. simpl. lia.
Defined.

(** C4 as stated fails: [neg2] has negative entries and [heldKarp]
    returns a cost and a route for it. *)
Lemma negative_entries_not_rejected :
  has_negative_entry neg2 /\
  heldKarp 2 neg2 1 [] = Ok (-2, [1; 2; 1]).
Proof.
  split.
  - left. right. left. reflexivity.
  - vm_compute. reflexivity.
Qed.

(** *** No cycle below the sentinel *)

(** C5: when every cost of closing the cycle is at or above [INF], the
    closing loop ends with [minDistance = INF] and [lastNode = -1]; the
    reconstruction then evaluates [1 << -1], which is undefined, where a
    report that no tour was found is due. *)
Theorem heldKarp_no_tour_undefined {D : Type} `{DoubleLaws D}
    (graph : list (list D)) (startNode : Z)
    (dp : list (list D)) (m : D) (last : Z) :
  let n := Z.of_nat (length graph) in
  let s := startNode - 1 in
  well_formed graph startNode ->
  solve_table graph startNode = Ok (dp, m, last) ->
  (forall i a, 0 <= i < n -> i <> s ->
     get2 dp (2 ^ n - 1) i = Ok a ->
     dlt (dadd a (edge graph i s)) INF = false) ->
  m = INF /\ last = -1 /\
  forall fuel bestRoute, heldKarp (S fuel) graph startNode bestRoute = Undefined.
Proof.
  intros n s Hwf Hsolve Hnone. subst n s.
  destruct (solve_table_total graph startNode Hwf)
    as (dp' & m' & last' & Hrun & _ & _ & _ & Hatt).
  rewrite Hsolve in Hrun. injection Hrun as <- <- <-.
  destruct Hatt as [[-> ->]|(Hl & Hne & Hlt & a & Ha & ->)].
  - split; [done|]. split; [done|]. intros fuel bestRoute.
    by eapply heldKarp_no_last.
  - rewrite (Hnone last a Hl Hne Ha) in Hlt. done.
Qed.

Lemma heldKarp_no_tour_undefined_witness :
  solve_table gap2 1
    = Ok ([[2147483647; 2147483647]; [0; 2147483647];
           [2147483647; 2147483647]; [2147483647; 2147483647]],
          2147483647, -1) /\
  forall fuel bestRoute, heldKarp (S fuel) gap2 1 bestRoute = Undefined.
Proof.
  assert (solve_table gap2 1
    = Ok ([[2147483647; 2147483647]; [0; 2147483647];
           [2147483647; 2147483647]; [2147483647; 2147483647]],
          2147483647, -1)) as Hsolve by (vm_compute; reflexivity).
  split; [exact Hsolve|].
  apply (heldKarp_no_tour_undefined gap2 1 _ _ _
           (proj1 (valid_well_formed gap2 1 gap2_valid ltac:(simpl; lia))) Hsolve).
  intros i a Hi Hne Ha. simpl in Hi, Hne.
  assert (i = 1) as -> by lia.
  vm_compute in Ha. injection Ha as <-. reflexivity.
Defined.

(** *** A single location *)

(** C6: for a single location the closing loop has no candidate and
    leaves [lastNode] at [-1]; the reconstruction then evaluates
    [1 << -1].  The function does not return the route [[1; 1]] with
    cost [0]. *)
Theorem heldKarp_single_location {D : Type} `{DoubleOps D}
    (c : D) (fuel : nat) (bestRoute : list Z) :
  solve_table [[c]] 1 = Ok ([[INF]; [dzero]], INF, -1) /\
  heldKarp (S fuel) [[c]] 1 bestRoute = Undefined.
Proof. split; reflexivity. Qed.

(** *** Raising one entry *)

(** C8: on a valid input, replacing one entry of the matrix by a value
    that is not smaller never lowers the cost [heldKarp] returns; for at
    most 30 locations that cost is the value of [minDistance] after the
    closing loop, which exists whether or not the reconstruction ends and
    is itself never lowered. *)
Theorem raising_an_entry_never_lowers_cost {D : Type} `{DoubleLaws D}
    (graph graph' : list (list D)) (startNode r c : Z) (old x : D) :
  valid_input graph startNode ->
  get2 graph r c = Ok old -> dle old x ->
  set2 graph r c x = Ok graph' ->
  (forall fuel bestRoute cost route fuel' bestRoute' cost' route',
     heldKarp fuel graph startNode bestRoute = Ok (cost, route) ->
     heldKarp fuel' graph' startNode bestRoute' = Ok (cost', route') ->
     dle cost cost') /\
  (Z.of_nat (length graph) <= 30 ->
   exists dp m last dp' m' last',
     solve_table graph startNode = Ok (dp, m, last) /\
     solve_table graph' startNode = Ok (dp', m', last') /\
     dle m m').
Proof.
  intros Hvalid Hold Hle Hset.
  destruct (raise_entry_valid graph graph' startNode r c old x Hvalid Hold Hle Hset)
    as (Hvalid' & Hlen & Hedge).
  assert (Z.of_nat (length graph) <= 30 ->
          exists dp m last dp' m' last',
            solve_table graph startNode = Ok (dp, m, last) /\
            solve_table graph' startNode = Ok (dp', m', last') /\
            dle m m') as Hsmall.
  { intros Hn30.
    destruct (valid_well_formed graph startNode Hvalid Hn30) as [Hwf Hnn].
    destruct (valid_well_formed graph' startNode Hvalid') as [Hwf' Hnn'];
      [rewrite Hlen; done|].
    destruct (solve_table_total graph startNode Hwf) as (dp & m & last & Hrun & _).
    destruct (solve_table_total graph' startNode Hwf')
      as (dp' & m' & last' & Hrun' & _).
    exists dp, m, last, dp', m', last'.
    split; [exact Hrun|]. split; [exact Hrun'|].
    by apply (minDistance_mono graph graph' startNode dp m last dp' m' last'). }
  split; [|exact Hsmall].
  intros fuel bestRoute cost route fuel' bestRoute' cost' route' Hk Hk'.
  destruct (Z.le_gt_cases (Z.of_nat (length graph)) 30) as [Hn30|Hbig].
  - destruct (Hsmall Hn30) as (dp & m & last & dp' & m' & last' & Hrun & Hrun' & Hmm).
    unfold heldKarp in Hk, Hk'. rewrite Hrun in Hk. rewrite Hrun' in Hk'.
    cbn [bind] in Hk, Hk'.
    destruct (reconstruct fuel _ _ _ _ _ _ _) in Hk; try done.
    destruct (reconstruct fuel' _ _ _ _ _ _ _) in Hk'; try done.
    cbn [bind] in Hk, Hk'. injection Hk as <- _. injection Hk' as <- _. done.
  - unfold heldKarp in Hk. rewrite solve_table_too_many in Hk by lia. done.
Qed.

Lemma raising_an_entry_never_lowers_cost_witness :
  (forall fuel bestRoute cost route fuel' bestRoute' cost' route',
     heldKarp fuel classic4 1 bestRoute = Ok (cost, route) ->
     heldKarp fuel' [[0; 10; 15; 20]; [5; 0; 9; 25]; [6; 13; 0; 12]; [8; 8; 9; 0]]
       1 bestRoute' = Ok (cost', route') ->
     dle cost cost') /\
  (Z.of_nat (length classic4) <= 30 ->
   exists dp m last dp' m' last',
     solve_table classic4 1 = Ok (dp, m, last) /\
     solve_table [[0; 10; 15; 20]; [5; 0; 9; 25]; [6; 13; 0; 12]; [8; 8; 9; 0]] 1
       = Ok (dp', m', last') /\
     dle m m').
Proof.
  apply (raising_an_entry_never_lowers_cost classic4 _ 1 1 3 10 25).
  - exact classic4_valid.
  - reflexivity.
  - reflexivity.
  - reflexivity.
Defined.

(** *** Repeated calls *)

(** The [while] loop neither reads nor writes the caller's vector. *)
Lemma reconstruct_in_bestRoute {D : Type} `{DoubleOps D}
    (graph : list (list D)) (startNode : Z) (v : list Z) (fuel : nat) :
  forall mu,
    reconstruct_in fuel graph startNode (Mem.set_bestRoute v mu)
    = let* mu' := reconstruct_in fuel graph startNode mu in
      Ok (Mem.set_bestRoute v mu').
Proof.
  induction fuel as [|fuel IH]; intros mu; cbn [reconstruct_in];
    change (Mem.currentNode (Mem.set_bestRoute v mu)) with (Mem.currentNode mu);
    destruct (Mem.currentNode mu =? startNode - 1); try done.
  cbn [Mem.set_path Mem.set_bestRoute Mem.currentNode Mem.subset Mem.dp Mem.n
       Mem.path Mem.bestRoute Mem.subsetCount Mem.minDistance Mem.lastNode].
  destruct (shl1 (Mem.currentNode mu)) as [b| |]; cbn [bind]; try done.
  destruct (find_pred graph (Mem.dp mu) (Mem.subset mu) (Mem.currentNode mu)
              (Z.lxor (Mem.subset mu) b) (seqZ 0 (Mem.n mu))) as [[i|]| |];
    cbn [bind]; try done.
  - exact (IH (Mem.set_subset (Z.lxor (Mem.subset mu) b)
                 (Mem.set_currentNode i
                    (Mem.set_path (Mem.path mu ++ [Mem.currentNode mu + 1]) mu)))).
  - exact (IH (Mem.set_path (Mem.path mu ++ [Mem.currentNode mu + 1]) mu)).
Qed.

(** The loop on the memory computes the path of [reconstruct] and leaves
    the variables it does not name as they are. *)
Lemma reconstruct_in_path {D : Type} `{DoubleOps D}
    (graph : list (list D)) (startNode : Z) (fuel : nat) :
  forall mu,
    match reconstruct_in fuel graph startNode mu with
    | Ok mu' =>
        reconstruct fuel graph (Mem.dp mu) (Mem.n mu) startNode (Mem.subset mu)
          (Mem.currentNode mu) (Mem.path mu) = Ok (Mem.path mu') /\
        Mem.minDistance mu' = Mem.minDistance mu /\
        Mem.currentNode mu' = startNode - 1
    | Undefined =>
        reconstruct fuel graph (Mem.dp mu) (Mem.n mu) startNode (Mem.subset mu)
          (Mem.currentNode mu) (Mem.path mu) = Undefined
    | OutOfFuel =>
        reconstruct fuel graph (Mem.dp mu) (Mem.n mu) startNode (Mem.subset mu)
          (Mem.currentNode mu) (Mem.path mu) = OutOfFuel
    end.
Proof.
  induction fuel as [|fuel IH]; intros mu; cbn [reconstruct_in reconstruct];
    destruct (Z.eqb_spec (Mem.currentNode mu) (startNode - 1)) as [Hcur|Hcur];
    try done.
  cbn [Mem.set_path Mem.currentNode Mem.subset Mem.dp Mem.n Mem.path].
  destruct (shl1 (Mem.currentNode mu)) as [b| |]; cbn [bind]; try done.
  destruct (find_pred graph (Mem.dp mu) (Mem.subset mu) (Mem.currentNode mu)
              (Z.lxor (Mem.subset mu) b) (seqZ 0 (Mem.n mu))) as [[i|]| |];
    cbn [bind]; try done.
  - exact (IH (Mem.set_subset (Z.lxor (Mem.subset mu) b)
                 (Mem.set_currentNode i
                    (Mem.set_path (Mem.path mu ++ [Mem.currentNode mu + 1]) mu)))).
  - exact (IH (Mem.set_path (Mem.path mu ++ [Mem.currentNode mu + 1]) mu)).
Qed.

Ltac mem_simpl :=
  cbv beta iota zeta delta
    [Mem.set_bestRoute Mem.set_n Mem.set_subsetCount Mem.set_dp
     Mem.set_minDistance Mem.set_lastNode Mem.set_path Mem.set_subset
     Mem.set_currentNode Mem.bestRoute Mem.n Mem.subsetCount Mem.dp
     Mem.minDistance Mem.lastNode Mem.path Mem.subset Mem.currentNode].

Ltac mem_simpl_in H :=
  cbv beta iota zeta delta
    [Mem.set_bestRoute Mem.set_n Mem.set_subsetCount Mem.set_dp
     Mem.set_minDistance Mem.set_lastNode Mem.set_path Mem.set_subset
     Mem.set_currentNode Mem.bestRoute Mem.n Mem.subsetCount Mem.dp
     Mem.minDistance Mem.lastNode Mem.path Mem.subset Mem.currentNode] in H.

(** What the caller sees of a call on the memory is what [heldKarp]
    computes. *)
Lemma heldKarp_call_seen {D : Type} `{DoubleOps D}
    (fuel : nat) (graph : list (list D)) (startNode : Z) (mu : Mem.memory D) :
  seen (heldKarp_call fuel graph startNode mu)
  = heldKarp fuel graph startNode (Mem.bestRoute mu).
Proof.
  destruct mu as [bestRoute0 n0 subsetCount0 dp0 minDistance0 lastNode0 path0
                  subset0 currentNode0].
  unfold heldKarp_call, heldKarp, solve_table. mem_simpl.
  destruct (31 <=? Z.of_nat (length graph)); [reflexivity|]. cbn [bind].
  destruct (init_table _ _ _) as [dp1| |]; [|reflexivity|reflexivity]. cbn [bind].
  destruct (forward _ _ _ _) as [dp2| |]; [|reflexivity|reflexivity]. cbn [bind].
  destruct (closing _ _ _ _ _) as [[m last]| |]; [|reflexivity|reflexivity].
  cbn [bind].
  match goal with
  | |- context [reconstruct_in fuel graph startNode ?mu0] =>
      pose proof (reconstruct_in_path graph startNode fuel mu0) as Hloop;
      destruct (reconstruct_in fuel graph startNode mu0) as [mu'| |]
  end.
  - destruct mu' as [bestRoute' n' subsetCount' dp' minDistance' lastNode' path'
                     subset' currentNode'].
    mem_simpl_in Hloop. destruct Hloop as (Hpath & -> & _).
    change ([] ++ [startNode]) with [startNode] in Hpath.
    rewrite Hpath. reflexivity.
  - mem_simpl_in Hloop. change ([] ++ [startNode]) with [startNode] in Hloop.
    by rewrite Hloop.
  - mem_simpl_in Hloop. change ([] ++ [startNode]) with [startNode] in Hloop.
    by rewrite Hloop.
Qed.

(** Every variable is written before it is read, and the caller's vector
    is written without being read: the memory a call starts in has no
    influence on its outcome, nor on the memory it leaves. *)
Lemma heldKarp_call_any_memory {D : Type} `{DoubleOps D}
    (fuel : nat) (graph : list (list D)) (startNode : Z) (mu1 mu2 : Mem.memory D) :
  heldKarp_call fuel graph startNode mu1 = heldKarp_call fuel graph startNode mu2.
Proof.
  destruct mu1 as [bestRoute1 n1 subsetCount1 dp1 minDistance1 lastNode1 path1
                   subset1 currentNode1].
  destruct mu2 as [bestRoute2 n2 subsetCount2 dp2 minDistance2 lastNode2 path2
                   subset2 currentNode2].
  unfold heldKarp_call. mem_simpl.
  destruct (31 <=? Z.of_nat (length graph)); [reflexivity|]. cbn [bind].
  destruct (init_table _ _ _) as [dp| |]; [|reflexivity|reflexivity]. cbn [bind].
  destruct (forward _ _ _ _) as [dp'| |]; [|reflexivity|reflexivity]. cbn [bind].
  destruct (closing _ _ _ _ _) as [[m last]| |]; [|reflexivity|reflexivity].
  cbn [bind].
  set (mu0 := Mem.Memory bestRoute1 (Z.of_nat (length graph))
                (2 ^ Z.of_nat (length graph)) dp' m last ([] ++ [startNode])
                (2 ^ Z.of_nat (length graph) - 1) last).
  change (Mem.Memory bestRoute2 (Z.of_nat (length graph))
            (2 ^ Z.of_nat (length graph)) dp' m last ([] ++ [startNode])
            (2 ^ Z.of_nat (length graph) - 1) last)
    with (Mem.set_bestRoute bestRoute2 mu0).
  rewrite reconstruct_in_bestRoute.
  destruct (reconstruct_in fuel graph startNode mu0) as [mu'| |]; [|done|done].
  destruct mu'. reflexivity.
Qed.

(** C9: a call of [heldKarp] started in any memory (whatever an earlier
    call, or anything else, has left in the caller's vector and in the
    storage of the function's variables) has the same outcome: the same
    cost and route, or the same failure, and the same memory afterwards.
    So a second call with the same matrix and start, run on the memory
    the first has left, returns the same cost and route and changes
    nothing.  What the caller sees of a call is the result of the
    function [heldKarp] of the other properties. *)
Theorem heldKarp_deterministic {D : Type} `{DoubleOps D}
    (fuel : nat) (graph : list (list D)) (startNode : Z) (mu1 mu2 : Mem.memory D) :
  heldKarp_call fuel graph startNode mu1 = heldKarp_call fuel graph startNode mu2 /\
  (forall cost mu',
     heldKarp_call fuel graph startNode mu1 = Ok (cost, mu') ->
     heldKarp_call fuel graph startNode mu' = Ok (cost, mu')) /\
  seen (heldKarp_call fuel graph startNode mu1)
  = heldKarp fuel graph startNode (Mem.bestRoute mu1).
Proof.
  split; [apply heldKarp_call_any_memory|]. split; [|apply heldKarp_call_seen].
  intros cost mu' Hrun.
  by rewrite (heldKarp_call_any_memory fuel graph startNode mu' mu1).
Qed.

Lemma heldKarp_deterministic_witness :
  exists mu',
    heldKarp_call 4 classic4 1 (Mem.Memory [7; 7] 0 0 [] 0 0 [9] 5 5) = Ok (35, mu') /\
    Mem.bestRoute mu' = [1; 2; 4; 3; 1] /\
    heldKarp_call 4 classic4 1 mu' = Ok (35, mu').
Proof.
  assert (exists mu',
            heldKarp_call 4 classic4 1 (Mem.Memory [7; 7] 0 0 [] 0 0 [9] 5 5)
            = Ok (35, mu') /\
            Mem.bestRoute mu' = [1; 2; 4; 3; 1]) as (mu' & Hrun & Hroute)
    by (eexists; split; vm_compute; reflexivity).
  exists mu'. split; [exact Hrun|]. split; [exact Hroute|].
  destruct (heldKarp_deterministic 4 classic4 1
              (Mem.Memory [7; 7] 0 0 [] 0 0 [9] 5 5)
              (Mem.Memory [] 0 0 [] 0 0 [] 0 0)) as (_ & Hagain & _).
  exact (Hagain 35 mu' Hrun).
Defined.

(** *** Cells outside the reach of the start *)

Lemma unreached_finite {D : Type} `{DoubleLaws D} s (dp : list (list D)) :
  unreached_INF s dp -> finite_cells_reached s dp.
Proof.
  intros HQ S i v Hv Hlt.
  destruct (Z.testbit S s) eqn:Hs, (Z.testbit S i) eqn:Hi; try done;
    rewrite (HQ S i v Hv) in Hlt by auto; by rewrite dlt_irrefl in Hlt.
Qed.

(** C10: on a valid input, whose entries are not negative (and of at
    most 30 locations, as the forward pass is not reached otherwise), at
    every moment of the forward pass (the loops standing at any
    [(subset, i, j)]) and after it, every cell below [INF] belongs to a
    subset that contains the start and the cell's own location, and every
    cell of a subset without the start, or of a location outside its
    subset, holds [INF]. *)
Theorem finite_cells_contain_start {D : Type} `{DoubleLaws D}
    (graph : list (list D)) (startNode : Z) :
  let n := Z.of_nat (length graph) in
  let s := startNode - 1 in
  valid_input graph startNode -> n <= 30 ->
  exists dp0,
    init_table n (2 ^ n) startNode = Ok dp0 /\
    (forall subset i j, 0 <= subset < 2 ^ n -> 0 <= i < n -> 0 <= j <= n ->
       exists dp, forward_at graph n subset i j dp0 = Ok dp /\
                  finite_cells_reached s dp /\ unreached_INF s dp) /\
    (exists dp, forward graph n (2 ^ n) dp0 = Ok dp /\
                finite_cells_reached s dp /\ unreached_INF s dp).
Proof.
  intros n s Hvalid Hn30.
  destruct (valid_well_formed graph startNode Hvalid Hn30) as [Hwf Hnn].
  pose proof (n_range graph startNode Hwf) as Hn. fold n in Hn.
  assert (0 < 2 ^ n) as Hpow by (apply Z.pow_pos_nonneg; lia).
  destruct (init_table_spec graph startNode Hwf) as (dp0 & Hinit & Hsh0 & Hcells).
  pose proof (init_unreached graph startNode Hwf dp0 Hsh0 Hcells) as HQ0.
  exists dp0. split; [exact Hinit|]. split.
  - intros subset i j HS Hi Hj.
    destruct (forward_at_stable graph startNode Hwf (unreached_INF s)
                (relax_unreached graph startNode Hwf Hnn) dp0 subset i j Hsh0 HQ0 HS Hi Hj)
      as (dp & Hrun & _ & HQ).
    exists dp. split; [exact Hrun|]. split; [by apply unreached_finite|exact HQ].
  - destruct (forward_stable graph startNode Hwf (unreached_INF s)
                (relax_unreached graph startNode Hwf Hnn) dp0 (2 ^ n) Hsh0 HQ0)
      as (dp & Hrun & _ & HQ); [fold n; lia|].
    exists dp. split; [exact Hrun|]. split; [by apply unreached_finite|exact HQ].
Qed.

Lemma finite_cells_contain_start_witness :
  exists dp0,
    init_table 4 16 1 = Ok dp0 /\
    (forall subset i j, 0 <= subset < 16 -> 0 <= i < 4 -> 0 <= j <= 4 ->
       exists dp, forward_at classic4 4 subset i j dp0 = Ok dp /\
                  finite_cells_reached 0 dp /\ unreached_INF 0 dp) /\
    (exists dp, forward classic4 4 16 dp0 = Ok dp /\
                finite_cells_reached 0 dp /\ unreached_INF 0 dp).
Proof.
  apply (finite_cells_contain_start classic4 1 classic4_valid). simpl. lia.
Defined.

(** C10 as stated fails when an entry is negative: on the square matrix
    [neg3] with start [1], after the forward pass the cell [dp[6][1]] of
    the subset [{1, 2}], which does not contain the start [0], holds
    [INF - 1]: line 42 has stored [dp[4][2] + graph[2][1] = INF + (-1)],
    which is below the sentinel. *)
Lemma negative_entries_finite_cell_without_start :
  well_formed neg3 1 /\
  exists dp0 dp,
    init_table 3 8 1 = Ok dp0 /\
    forward neg3 3 8 dp0 = Ok dp /\
    get2 dp 6 1 = Ok 2147483646 /\
    dlt 2147483646 INF = true /\
    Z.testbit 6 0 = false /\
    ~ finite_cells_reached 0 dp /\ ~ unreached_INF 0 dp.
Proof.
  split.
  { split; [|split; simpl; lia]. unfold square, neg3. by repeat constructor. }
  eexists _, _.
  split; [vm_compute; reflexivity|].
  split; [vm_compute; reflexivity|].
  split; [reflexivity|]. split; [reflexivity|]. split; [reflexivity|].
  split.
  - intros Hfin. destruct (Hfin 6 1 2147483646) as [Hstart _]; done.
  - intros Hunr. by specialize (Hunr 6 1 2147483646 eq_refl (or_introl eq_refl)).
Qed.

(** ** Further properties of [heldKarp] *)

(** *** The route and its cost *)

(** More rounds do not change what the [while] loop returns. *)
Lemma reconstruct_more_fuel {D : Type} `{DoubleOps D} (graph dp : list (list D))
    n startNode fuel :
  forall fuel' subset currentNode path result,
    (fuel <= fuel')%nat ->
    reconstruct fuel graph dp n startNode subset currentNode path = Ok result ->
    reconstruct fuel' graph dp n startNode subset currentNode path = Ok result.
Proof.
  induction fuel as [|fuel IH]; intros fuel' subset cur path result Hle Hrun.
  - destruct fuel'; simpl in *;
      destruct (cur =? startNode - 1); done.
  - destruct fuel' as [|fuel']; [lia|]. simpl in *.
    destruct (cur =? startNode - 1); [done|].
    destruct (shl1 cur) as [b| |]; simpl in *; try done.
    destruct (find_pred graph dp subset cur (Z.lxor subset b) (seqZ 0 n))
      as [[i|]| |]; simpl in *; try done; apply IH; try done; lia.
Qed.

Section Route.

Context {D : Type} `{DoubleLaws D}.

Variable graph : list (list D).
Variable startNode : Z.
Hypothesis Hwf : well_formed graph startNode.
Hypothesis Hnn : nonneg graph.

Let n := Z.of_nat (length graph).
Let s := startNode - 1.

Variable dp : list (list D).
Hypothesis Hsh : shaped (2 ^ n) n dp.
Hypothesis Hfin :
  forall S i, 0 <= S < 2 ^ n -> 0 <= i < n -> cell_final graph n s dp S i.

(** The only cell of the start's column below [INF] is the base cell,
    which holds [0]. *)
Lemma start_cell S v :
  0 <= S < 2 ^ n -> get2 dp S s = Ok v -> dlt v INF = true ->
  S = Z.shiftl 1 s /\ v = dzero.
Proof.
  intros HS Hv Hlt. pose proof (s_range graph startNode Hwf) as Hs. fold n s in Hs.
  destruct (Hfin S s HS Hs) as (v' & Hv' & _ & _ & Hwit).
  assert (v' = v) as -> by congruence.
  destruct (Hwit Hlt) as (w & Hw & <-).
  pose proof (simple_path_members _ _ _ _ _ Hw) as [[_ Hb] _].
  destruct (simple_path_at_start _ _ _ _ Hw) as [-> Hsing].
  split; [|done]. by eapply singleton_subset.
Qed.

(** The locations the [while] loop pushes, read backwards after the
    start, are a simple path that ends in the location the loop started
    from, and the cost of that path is the value of the starting cell. *)
Lemma reconstruct_walk L :
  forall fuel S cur v path w,
    simple_path n s S cur w -> length w = Datatypes.S L -> (L <= fuel)%nat ->
    0 <= S < 2 ^ n -> get2 dp S cur = Ok v -> dlt v INF = true ->
    exists visited,
      reconstruct fuel graph dp n startNode S cur path
        = Ok (path ++ ((fun k => k + 1) <$> visited)) /\
      simple_path n s S cur (s :: reverse visited) /\
      walk_cost graph (s :: reverse visited) = v.
Proof.
  pose proof (n_range graph startNode Hwf) as Hn. fold n in Hn.
  pose proof (s_range graph startNode Hwf) as Hs. fold n s in Hs.
  induction L as [|L IH]; intros fuel S cur v path w Hw Hlen Hfuel HS Hv Hlt.
  - destruct w as [|x [|y w]]; [done| |done].
    pose proof Hw as (Hh & Hl & _). injection Hh as ->. injection Hl as <-.
    destruct (start_cell S v HS Hv Hlt) as [-> ->].
    exists []. split; [|split].
    + rewrite app_nil_r. destruct fuel; simpl; fold s; by rewrite Z.eqb_refl.
    + done.
    + done.
  - pose proof (simple_path_members _ _ _ _ _ Hw) as [[Hc Hb] _].
    assert (cur <> s) as Hne.
    { intros ->. apply simple_path_at_start in Hw as [-> _]. done. }
    destruct fuel as [|fuel]; [lia|]. simpl. fold s.
    replace (cur =? s) with false by (symmetry; by apply Z.eqb_neq).
    unfold shl1.
    replace ((0 <=? cur) && (cur <? 31)) with true
      by (symmetry; apply andb_true_iff; split; [apply Z.leb_le|apply Z.ltb_lt]; lia).
    simpl.
    destruct (pred_exists graph startNode Hwf Hnn dp Hfin S cur v HS Hc Hne Hv Hlt)
      as (_ & j & a & Hj & Hrest).
    destruct (find_pred_spec graph startNode Hwf dp Hsh S cur v (seqZ 0 n) HS Hc Hb Hv)
      as (p & b & Hrun & Hp & Hpne & Hbp & Hgb & Heq).
    { intros i Hi%elem_of_seqZ. lia. }
    { exists j, a. split; [apply elem_of_seqZ; lia|done]. }
    rewrite Hrun. simpl.
    apply elem_of_seqZ in Hp.
    pose proof (lxor_bit_smaller S cur ltac:(lia) ltac:(lia) Hb) as Hsm.
    assert (dlt b INF = true) as Hltb.
    { rewrite Heq in Hlt. eapply dadd_lt_INF; [|exact Hlt].
      apply (graph_nonneg graph startNode Hwf Hnn); lia. }
    destruct (Hfin (Z.lxor S (Z.shiftl 1 cur)) p) as (b' & Hb' & _ & _ & Hwit);
      [lia|lia|].
    assert (b' = b) as -> by congruence.
    destruct (Hwit Hltb) as (w2 & Hw2 & _).
    destruct (simple_path_extend graph _ _ _ _ _ _ Hc Hb Hw2) as [Hw2' _].
    pose proof (simple_path_length _ _ _ _ _ _ _ Hw Hw2') as Hlen2.
    rewrite length_app in Hlen2. simpl in Hlen2.
    destruct (IH fuel (Z.lxor S (Z.shiftl 1 cur)) p b (path ++ [cur + 1]) w2)
      as (visited & Hrec & Hpath & Hcost); [done|lia|lia|lia|done|done|].
    exists (cur :: visited). split; [|split].
    + rewrite Hrec, fmap_cons, <- app_assoc. done.
    + replace (s :: reverse (cur :: visited)) with ((s :: reverse visited) ++ [cur])
        by (by rewrite reverse_cons).
      by apply (simple_path_extend graph _ _ _ _ p).
    + change (walk_cost graph (s :: reverse (cur :: visited)) = v).
      replace (s :: reverse (cur :: visited)) with ((s :: reverse visited) ++ [cur])
        by (by rewrite reverse_cons).
      destruct (simple_path_extend graph _ _ _ _ _ _ Hc Hb Hpath) as [_ ->].
      by rewrite Hcost, Heq.
Qed.

End Route.

Lemma reconstruct_minus_one {D : Type} `{DoubleOps D} (graph dp : list (list D))
    n startNode fuel subset path result :
  1 <= startNode ->
  reconstruct fuel graph dp n startNode subset (-1) path <> Ok result.
Proof.
  intros Hs. destruct fuel; cbn [reconstruct];
    destruct (Z.eqb_spec (-1) (startNode - 1)); try lia; discriminate.
Qed.

Lemma fmap_pred_succ (l : list Z) :
  (fun k => k - 1) <$> ((fun k => k + 1) <$> l) = l.
Proof.
  induction l as [|x l IH]; [done|]. rewrite !fmap_cons, IH. f_equal. lia.
Qed.

(** What a returning call on a valid input has computed. *)
Lemma heldKarp_returns_inv {D : Type} `{DoubleLaws D}
    (graph : list (list D)) (startNode : Z) (fuel : nat) (bestRoute : list Z)
    (m : D) (route : list Z) :
  let n := Z.of_nat (length graph) in
  let s := startNode - 1 in
  valid_input graph startNode ->
  heldKarp fuel graph startNode bestRoute = Ok (m, route) ->
  2 <= n <= 30 /\
  exists dp last visited a,
    solve_table graph startNode = Ok (dp, m, last) /\
    0 <= last < n /\ last <> s /\
    get2 dp (2 ^ n - 1) last = Ok a /\
    m = dadd a (edge graph last s) /\ dlt m INF = true /\
    route = startNode :: reverse ((fun k => k + 1) <$> visited) ++ [startNode] /\
    simple_path n s (2 ^ n - 1) last (s :: reverse visited) /\
    walk_cost graph (s :: reverse visited) = a /\
    (forall t, tour n s t -> dle m (walk_cost graph t)).
Proof.
  intros n s Hvalid Hrun.
  assert (n <= 30) as Hn30.
  { destruct (Z.le_gt_cases n 30) as [|Hbig]; [done|].
    unfold heldKarp in Hrun. rewrite solve_table_too_many in Hrun by (fold n; lia).
    done. }
  destruct (valid_well_formed graph startNode Hvalid Hn30) as [Hwf Hnn].
  pose proof (n_range graph startNode Hwf) as Hn. fold n in Hn.
  pose proof (s_range graph startNode Hwf) as Hs. fold n s in Hs.
  assert (0 < 2 ^ n) as Hpow by (apply Z.pow_pos_nonneg; lia).
  destruct (solve_table_spec graph startNode Hwf Hnn)
    as (dp & m0 & last & Hsolve & Hsh & Hfin & Hle & Hlow & Hatt).
  fold n s in Hsh, Hfin, Hlow, Hatt.
  unfold heldKarp in Hrun. rewrite Hsolve in Hrun. cbn [bind] in Hrun. fold n in Hrun.
  destruct (reconstruct fuel graph dp n startNode (2 ^ n - 1) last [startNode])
    as [path| |] eqn:Hrec; cbn [bind] in Hrun; try done.
  injection Hrun as <- <-.
  destruct Hatt as [[-> ->]|(Hl & Hne & Hlt & a & Ha & Hm)].
  { exfalso. eapply reconstruct_minus_one; [|exact Hrec]. unfold s in Hs. lia. }
  assert (2 <= n) as Hn2 by lia.
  assert (dlt a INF = true) as Hlta.
  { rewrite Hm in Hlt. eapply dadd_lt_INF; [|exact Hlt].
    by apply (graph_nonneg graph startNode Hwf Hnn). }
  destruct (Hfin (2 ^ n - 1) last) as (a' & Ha' & _ & _ & Hpath); [lia|done|].
  assert (a' = a) as -> by congruence.
  destruct (Hpath Hlta) as (w & Hw & _).
  pose proof (full_path_length graph startNode last w Hw) as Hlen. fold n in Hlen.
  destruct (reconstruct_walk graph startNode Hwf Hnn dp Hsh Hfin (Z.to_nat n - 1)
              (fuel + Z.to_nat n)%nat (2 ^ n - 1) last a [startNode] w Hw)
    as (visited & Hrec' & Hvis & Hcost);
    [lia|lia|change (0 <= 2 ^ n - 1 < 2 ^ n); lia|done|done|].
  fold n s in Hrec', Hvis.
  rewrite (reconstruct_more_fuel graph dp n startNode fuel
             (fuel + Z.to_nat n)%nat _ _ _ _ ltac:(lia) Hrec) in Hrec'.
  injection Hrec' as ->.
  split; [lia|]. exists dp, last, visited, a.
  split; [done|]. split; [done|]. split; [done|]. split; [done|].
  split; [done|]. split; [done|]. split.
  { by rewrite reverse_snoc, reverse_cons. }
  split; [done|]. split; [done|].
  refine (proj1 (closing_min_tour graph startNode Hwf Hnn dp _ last Hn2 Hfin Hlow _)).
  right. split; [done|]. split; [done|]. split; [done|]. by exists a.
Qed.

(** X1: whenever [heldKarp] returns on a valid input, the route it
    returns is, in the 0-based numbering, a Hamiltonian cycle that begins
    and ends at the start; the returned cost is the cost of that very
    route, no Hamiltonian cycle through the start costs less, and the
    number of locations is between 2 and 30. *)
Theorem heldKarp_returns_optimal_route {D : Type} `{DoubleLaws D}
    (graph : list (list D)) (startNode : Z) (fuel : nat) (bestRoute : list Z)
    (m : D) (route : list Z) :
  let n := Z.of_nat (length graph) in
  let s := startNode - 1 in
  valid_input graph startNode ->
  heldKarp fuel graph startNode bestRoute = Ok (m, route) ->
  tour n s ((fun k => k - 1) <$> route) /\
  walk_cost graph ((fun k => k - 1) <$> route) = m /\
  (forall t, tour n s t -> dle m (walk_cost graph t)) /\
  2 <= n <= 30.
Proof.
  intros n s Hvalid Hrun.
  destruct (heldKarp_returns_inv graph startNode fuel bestRoute m route Hvalid Hrun)
    as (Hn & dp & last & visited & a & _ & _ & _ & _ & Hm & _ & -> & Hvis & Hcost & Hlb).
  fold n s in Hvis, Hlb, Hm, Hcost.
  assert ((fun k => k - 1) <$> (startNode :: reverse ((fun k => k + 1) <$> visited)
                                 ++ [startNode])
          = (s :: reverse visited) ++ [s]) as ->.
  { rewrite fmap_cons, fmap_app, fmap_reverse, fmap_pred_succ. done. }
  destruct (tour_of_path graph n s last _ Hvis) as [Ht Hc].
  split; [exact Ht|]. split; [|split; [exact Hlb|exact Hn]].
  by rewrite Hc, Hcost, Hm.
Qed.

Lemma heldKarp_returns_optimal_route_witness :
  tour 4 0 [0; 1; 3; 2; 0] /\
  walk_cost classic4 [0; 1; 3; 2; 0] = 35 /\
  (forall t, tour 4 0 t -> dle 35 (walk_cost classic4 t)).
Proof.
  destruct (heldKarp_returns_optimal_route classic4 1 4 [] 35 [1; 2; 4; 3; 1])
    as (Ht & Hc & Hlb & _).
  - exact classic4_valid.
  - vm_compute. reflexivity.
  - split; [exact Ht|]. split; [exact Hc|exact Hlb].
Defined.

(** *** Calls on arbitrary inputs *)

Lemma foldM_Ok_inv {S A} (P : S -> Prop) (body : A -> S -> outcome S) l :
  forall s0 s',
    P s0 ->
    (forall a s s1, a ∈ l -> P s -> body a s = Ok s1 -> P s1) ->
    foldM body l s0 = Ok s' -> P s'.
Proof.
  induction l as [|a l IH]; intros s0 s' H0 Hstep Hrun; simpl in Hrun.
  - by injection Hrun as <-.
  - destruct (body a s0) as [s1| |] eqn:Hbody; simpl in Hrun; try done.
    apply (IH s1 s'); [|intros b t t1 Hb; apply Hstep; by right|done].
    apply (Hstep a s0); [by left|done|done].
Qed.

Lemma at_cases {A} (v : list A) i :
  at_ v i = Undefined \/
  exists a, at_ v i = Ok a /\ 0 <= i /\ v !! Z.to_nat i = Some a.
Proof.
  unfold at_. destruct (Z.ltb_spec i 0); [by left|].
  destruct (v !! Z.to_nat i) as [a|]; [right; by exists a|by left].
Qed.

Lemma get2_cases {A} (m : list (list A)) r c :
  get2 m r c = Undefined \/ exists a, get2 m r c = Ok a.
Proof.
  unfold get2. destruct (at_cases m r) as [->|(row & -> & _)]; [by left|].
  simpl. destruct (at_cases row c) as [->|(a & -> & _)]; [by left|right; by exists a].
Qed.

Lemma solve_table_Ok_inv {D : Type} `{DoubleOps D}
    (graph : list (list D)) startNode dp m last :
  let n := Z.of_nat (length graph) in
  solve_table graph startNode = Ok (dp, m, last) ->
  n <= 30 /\
  exists dp0,
    init_table n (2 ^ n) startNode = Ok dp0 /\
    forward graph n (2 ^ n) dp0 = Ok dp /\
    closing graph n (2 ^ n) startNode dp = Ok (m, last).
Proof.
  intros n Hrun. unfold solve_table in Hrun. fold n in Hrun.
  destruct (Z.leb_spec 31 n) as [|Hn]; [done|]. split; [lia|].
  destruct (init_table n (2 ^ n) startNode) as [dp0| |] eqn:Hinit;
    simpl in Hrun; try done.
  destruct (forward graph n (2 ^ n) dp0) as [dp1| |] eqn:Hfw;
    simpl in Hrun; try done.
  destruct (closing graph n (2 ^ n) startNode dp1) as [[m1 l1]| |] eqn:Hcl;
    simpl in Hrun; try done.
  injection Hrun as -> -> ->. by exists dp0.
Qed.

(** The base cell can only be written for a start in [1 .. n]. *)
Lemma init_table_Ok_inv {D : Type} `{DoubleOps D} n subsetCount startNode
    (dp0 : list (list D)) :
  init_table n subsetCount startNode = Ok dp0 -> 1 <= startNode <= n.
Proof.
  unfold init_table, shl1, set2.
  destruct (Z.leb_spec 0 (startNode - 1)) as [Hs|]; simpl; [|done].
  destruct (startNode - 1 <? 31); simpl; [|done].
  destruct (at_cases (replicate (Z.to_nat subsetCount) (replicate (Z.to_nat n) INF))
              (Z.shiftl 1 (startNode - 1))) as [->|(row & -> & _ & Hrow)]; [done|].
  simpl. apply lookup_replicate in Hrow as [-> _].
  destruct (at_cases (replicate (Z.to_nat n) (@INF D _)) (startNode - 1))
    as [->|(a & -> & _ & Ha)]; [done|].
  intros _. apply lookup_replicate in Ha as [_ Ha]. lia.
Qed.

Lemma heldKarp_bad_start {D : Type} `{DoubleOps D}
    (graph : list (list D)) (startNode : Z) (fuel : nat) (bestRoute : list Z) :
  ~ (1 <= startNode <= Z.of_nat (length graph)) ->
  heldKarp fuel graph startNode bestRoute = Undefined.
Proof.
  intros Hout. unfold heldKarp, solve_table.
  destruct (31 <=? Z.of_nat (length graph)); [done|].
  destruct (init_table (Z.of_nat (length graph)) (2 ^ Z.of_nat (length graph)) startNode)
    as [dp0| |] eqn:Hinit; [|done|].
  - by apply init_table_Ok_inv in Hinit.
  - exfalso. revert Hinit. unfold init_table, shl1, set2.
    destruct ((0 <=? startNode - 1) && (startNode - 1 <? 31)); simpl; [|done].
    destruct (at_cases (replicate (Z.to_nat (2 ^ Z.of_nat (length graph)))
                (replicate (Z.to_nat (Z.of_nat (length graph))) (@INF D _)))
                (Z.shiftl 1 (startNode - 1))) as [->|(row & -> & _)]; [done|].
    simpl. destruct (at_cases row (startNode - 1)) as [->|(a & -> & _)]; done.
Qed.

(** X2: for a start outside [1 .. n] (in particular for an empty matrix,
    whatever the start) the call is undefined: the write of the base cell
    at line 29 is out of range, or the shift count is. *)
Theorem heldKarp_start_out_of_range {D : Type} `{DoubleOps D}
    (graph : list (list D)) (startNode : Z) (fuel : nat) (bestRoute : list Z) :
  ~ (1 <= startNode <= Z.of_nat (length graph)) ->
  heldKarp fuel graph startNode bestRoute = Undefined.
Proof. apply heldKarp_bad_start. Qed.

Lemma heldKarp_start_out_of_range_witness :
  heldKarp 4 classic4 5 [] = Undefined /\
  heldKarp 4 classic4 0 [] = Undefined /\
  heldKarp 4 (@nil (list Z)) 1 [] = Undefined.
Proof.
  split; [|split].
  - apply (heldKarp_start_out_of_range classic4 5 4 []). simpl. lia.
  - apply (heldKarp_start_out_of_range classic4 0 4 []). simpl. lia.
  - apply (heldKarp_start_out_of_range (@nil (list Z)) 1 4 []). simpl. lia.
Defined.

(** What the closing loop can return, on any input. *)
Lemma closing_Ok_inv {D : Type} `{DoubleLaws D}
    (graph dp : list (list D)) n subsetCount startNode m last :
  closing graph n subsetCount startNode dp = Ok (m, last) ->
  (m = INF /\ last = -1) \/
  (dlt m INF = true /\ 0 <= last < n /\ last <> startNode - 1).
Proof.
  unfold closing, for_upto. intros Hrun.
  pose (P := fun st : D * Z =>
    dle (fst st) INF /\
    ((fst st = INF /\ snd st = -1) \/
     (dlt (fst st) INF = true /\ 0 <= snd st < n /\ snd st <> startNode - 1))).
  assert (P (m, last)) as [_ HP]; [|exact HP].
  refine (foldM_Ok_inv P _ (seqZ 0 n) (INF, -1) (m, last) _ _ Hrun).
  - split; [apply dle_refl|by left].
  - intros i [m0 l0] [m1 l1] Hi%elem_of_seqZ [Hle Hatt] Hbody.
    destruct (Z.eqb_spec i (startNode - 1)) as [->|Hne].
    + injection Hbody as <- <-. by split.
    + destruct (get2 dp (subsetCount - 1) i) as [a| |]; simpl in Hbody; try done.
      destruct (get2 graph i (startNode - 1)) as [c| |]; simpl in Hbody; try done.
      destruct (dlt (dadd a c) m0) eqn:Hlt; injection Hbody as <- <-.
      * split; simpl.
        -- eapply dle_trans; [by apply dlt_dle|done].
        -- right. split; [by eapply dlt_le_trans|]. split; [lia|done].
      * by split.
Qed.

(** X3: on any input whatever (any signs, any shape), a call that
    returns never returns the sentinel or more: the cost is strictly
    below [INF]. *)
Theorem heldKarp_cost_below_INF {D : Type} `{DoubleLaws D}
    (graph : list (list D)) (startNode : Z) (fuel : nat) (bestRoute : list Z)
    (m : D) (route : list Z) :
  heldKarp fuel graph startNode bestRoute = Ok (m, route) ->
  dlt m INF = true.
Proof.
  intros Hrun. unfold heldKarp in Hrun.
  destruct (solve_table graph startNode) as [[[dp m0] last]| |] eqn:Hsolve;
    cbn [bind] in Hrun; try done.
  destruct (reconstruct fuel graph dp _ startNode _ last [startNode])
    as [path| |] eqn:Hrec; cbn [bind] in Hrun; try done.
  injection Hrun as <- _.
  destruct (solve_table_Ok_inv graph startNode dp m0 last Hsolve)
    as (_ & dp0 & Hinit & _ & Hclose).
  apply init_table_Ok_inv in Hinit as [Hs _].
  destruct (closing_Ok_inv _ _ _ _ _ _ _ Hclose) as [[_ ->]|[Hlt _]]; [|done].
  exfalso. by eapply reconstruct_minus_one.
Qed.

Lemma heldKarp_cost_below_INF_witness :
  heldKarp 2 neg2 1 [] = Ok (-2, [1; 2; 1]) /\
  dlt (-2) (@INF Z _) = true.
Proof.
  split; [vm_compute; reflexivity|].
  apply (heldKarp_cost_below_INF neg2 1 2 [] (-2) [1; 2; 1]).
  vm_compute. reflexivity.
Defined.

(** The search leaves by [break] at the first candidate that passes the
    guards and satisfies the equality of line 72. *)
Lemma find_pred_Some_inv {D : Type} `{DoubleOps D}
    (graph dp : list (list D)) subset cur prev l p :
  find_pred graph dp subset cur prev l = Ok (Some p) ->
  exists l1 l2 a b c,
    l = l1 ++ p :: l2 /\
    p <> cur /\ in_subset subset p = true /\
    get2 dp subset cur = Ok a /\ get2 dp prev p = Ok b /\
    get2 graph p cur = Ok c /\ deq a (dadd b c) = true /\
    forall i, i ∈ l1 ->
      i = cur \/ in_subset subset i = false \/
      exists b' c', get2 dp prev i = Ok b' /\ get2 graph i cur = Ok c' /\
                    deq a (dadd b' c') = false.
Proof.
  induction l as [|i rest IH]; simpl; [done|].
  destruct ((i =? cur) || negb (in_subset subset i)) eqn:Hguard.
  - intros Hrun. destruct (IH Hrun) as (l1 & l2 & a & b & c & -> & Hrest).
    exists (i :: l1), l2, a, b, c. split; [done|].
    destruct Hrest as (? & ? & ? & ? & ? & ? & Hbefore).
    repeat (split; [done|]).
    intros k [->|Hk]%elem_of_cons; [|by apply Hbefore].
    apply orb_true_iff in Hguard as [Hg%Z.eqb_eq|Hg%negb_true_iff]; auto.
  - apply orb_false_iff in Hguard as [Hne%Z.eqb_neq Hin%negb_false_iff].
    destruct (get2 dp subset cur) as [a| |] eqn:Ha; simpl; try done.
    destruct (get2 dp prev i) as [b| |] eqn:Hb; simpl; try done.
    destruct (get2 graph i cur) as [c| |] eqn:Hc; simpl; try done.
    destruct (deq a (dadd b c)) eqn:Heq.
    + intros [= <-]. exists [], rest, a, b, c.
      repeat (split; [done|]). by intros k ?%elem_of_nil.
    + intros Hrun.
      destruct (IH Hrun) as (l1 & l2 & a' & b' & c' & -> & Hrest).
      destruct Hrest as (? & ? & Ha' & ? & ? & ? & Hbefore).
      injection Ha' as <-.
      exists (i :: l1), l2, a, b', c'. repeat (split; [done|]).
      intros k [->|Hk]%elem_of_cons; [|by apply Hbefore].
      right. right. by exists b, c.
Qed.

Lemma seqZ_split_at (n p : Z) l1 l2 :
  seqZ 0 n = l1 ++ p :: l2 ->
  0 <= p < n /\ forall i, 0 <= i < p -> i ∈ l1.
Proof.
  intros Hsplit.
  assert (seqZ 0 n !! length l1 = Some p) as Hp.
  { rewrite Hsplit. by apply list_lookup_middle. }
  apply lookup_seqZ in Hp as [Hp Hlt].
  split; [lia|]. intros i Hi.
  assert (seqZ 0 n !! Z.to_nat i = Some i) as Hlook.
  { apply lookup_seqZ. lia. }
  rewrite Hsplit, lookup_app_l in Hlook by lia.
  apply list_elem_of_lookup. eauto.
Qed.

(** X4: the predecessor the reconstruction moves to is the location of
    least index, among the members of the current subset other than the
    current location, whose table cell satisfies the equality of line 72;
    every candidate of smaller index fails that equality. *)
Theorem find_pred_takes_first_match {D : Type} `{DoubleLaws D}
    (graph dp : list (list D)) (n subset currentNode prevSubset p : Z) :
  find_pred graph dp subset currentNode prevSubset (seqZ 0 n) = Ok (Some p) ->
  0 <= p < n /\ p <> currentNode /\ in_subset subset p = true /\
  exists a,
    get2 dp subset currentNode = Ok a /\
    (exists b c, get2 dp prevSubset p = Ok b /\ get2 graph p currentNode = Ok c /\
                 a = dadd b c) /\
    forall i, 0 <= i < p -> i <> currentNode -> in_subset subset i = true ->
      exists b c, get2 dp prevSubset i = Ok b /\ get2 graph i currentNode = Ok c /\
                  a <> dadd b c.
Proof.
  intros Hrun.
  destruct (find_pred_Some_inv _ _ _ _ _ _ _ Hrun)
    as (l1 & l2 & a & b & c & Hsplit & Hne & Hin & Ha & Hb & Hc & Heq & Hbefore).
  destruct (seqZ_split_at n p l1 l2 Hsplit) as [Hp Hall].
  split; [done|]. split; [done|]. split; [done|].
  exists a. split; [done|]. split.
  - exists b, c. split; [done|]. split; [done|]. by apply deq_spec.
  - intros i Hi Hic Hii.
    destruct (Hbefore i (Hall i Hi)) as [?|[Hf|(b' & c' & Hb' & Hc' & Hneq)]];
      [done|congruence|].
    exists b', c'. split; [done|]. split; [done|].
    intros Habs. apply deq_spec in Habs. congruence.
Qed.

(** *** The closing loop picks the first minimiser *)

Section ClosingFirst.

Context {D : Type} `{DoubleLaws D}.

Variable graph : list (list D).
Variable startNode : Z.
Hypothesis Hwf : well_formed graph startNode.

Let n := Z.of_nat (length graph).
Let s := startNode - 1.

Lemma closing_first dp m last :
  shaped (2 ^ n) n dp ->
  closing graph n (2 ^ n) startNode dp = Ok (m, last) ->
  forall i, 0 <= i < last -> i <> s ->
    exists a, get2 dp (2 ^ n - 1) i = Ok a /\
              dlt m (dadd a (edge graph i s)) = true.
Proof.
  intros Hsh Hrun.
  pose proof (n_range graph startNode Hwf) as Hn. fold n in Hn.
  pose proof (s_range graph startNode Hwf) as Hs. fold n s in Hs.
  assert (0 < 2 ^ n) as Hpow by (apply Z.pow_pos_nonneg; lia).
  pose (Q := fun (k : Z) (st : D * Z) =>
    snd st < k /\
    (forall i, 0 <= i < k -> i <> s ->
       exists a, get2 dp (2 ^ n - 1) i = Ok a /\
                 dle (fst st) (dadd a (edge graph i s))) /\
    (forall i, 0 <= i < snd st -> i <> s ->
       exists a, get2 dp (2 ^ n - 1) i = Ok a /\
                 dlt (fst st) (dadd a (edge graph i s)) = true)).
  unfold closing in Hrun.
  destruct (for_upto_inv Q n
    (fun i '(minDistance, lastNode) =>
       if i =? startNode - 1 then Ok (minDistance, lastNode)
       else
         let* a := get2 dp (2 ^ n - 1) i in
         let* c := get2 graph i (startNode - 1) in
         let cost := dadd a c in
         if dlt cost minDistance then Ok (cost, i) else Ok (minDistance, lastNode))
    (INF, -1)) as ([m' last'] & Hrun' & _ & _ & Hfirst).
  - lia.
  - unfold Q. simpl. split; [lia|]. split; intros; lia.
  - intros k [m0 l0] Hk (Hlt & Hlow & Hfirst). unfold Q in *. simpl in *. fold s.
    destruct (Z.eqb_spec k s) as [->|Hks].
    + exists (m0, l0). split; [done|]. simpl. split; [lia|]. split; [|done].
      intros i Hi Hne. apply Hlow; [lia|done].
    + destruct (get2_shaped_Ok dp _ _ (2 ^ n - 1) k Hsh) as [a Ha]; [lia|lia|].
      rewrite Ha. simpl. rewrite (graph_get graph startNode Hwf k s) by (fold n; lia).
      simpl. destruct (dlt (dadd a (edge graph k s)) m0) eqn:Hcmp.
      * exists (dadd a (edge graph k s), k). split; [done|]. simpl.
        split; [lia|]. split.
        -- intros i Hi Hne. destruct (Z.eq_dec i k) as [->|Hik].
           ++ exists a. split; [done|apply dle_refl].
           ++ destruct (Hlow i) as (b & Hb & Hmb); [lia|done|].
              exists b. split; [done|].
              eapply dle_trans; [by apply dlt_dle|done].
        -- intros i Hi Hne. destruct (Hlow i) as (b & Hb & Hmb); [lia|done|].
           exists b. split; [done|]. by eapply dlt_le_trans.
      * exists (m0, l0). split; [done|]. simpl. split; [lia|]. split; [|done].
        intros i Hi Hne. destruct (Z.eq_dec i k) as [->|Hik].
        -- by exists a.
        -- apply Hlow; [lia|done].
  - pose proof (eq_trans (eq_sym Hrun') Hrun) as Heq.
    injection Heq as -> ->. exact Hfirst.
Qed.

End ClosingFirst.

(** X5: on a well-formed input the closing loop, when it picks a last
    location at all, picks the one of least index among those whose
    closing cost [dp[full][i] + graph[i][start]] is least: no location
    has a smaller closing cost, and every location of smaller index has a
    strictly larger one. *)
Theorem closing_picks_first_minimum {D : Type} `{DoubleLaws D}
    (graph : list (list D)) (startNode : Z)
    (dp : list (list D)) (m : D) (last : Z) :
  let n := Z.of_nat (length graph) in
  let s := startNode - 1 in
  well_formed graph startNode ->
  solve_table graph startNode = Ok (dp, m, last) ->
  last <> -1 ->
  (exists a, get2 dp (2 ^ n - 1) last = Ok a /\ m = dadd a (edge graph last s)) /\
  (forall i, 0 <= i < n -> i <> s ->
     exists a, get2 dp (2 ^ n - 1) i = Ok a /\ dle m (dadd a (edge graph i s))) /\
  (forall i, 0 <= i < last -> i <> s ->
     exists a, get2 dp (2 ^ n - 1) i = Ok a /\
               dlt m (dadd a (edge graph i s)) = true).
Proof.
  intros n s Hwf Hsolve Hlast.
  destruct (solve_table_total graph startNode Hwf)
    as (dp' & m' & last' & Hrun & Hsh & _ & Hlow & Hatt).
  rewrite Hsolve in Hrun. injection Hrun as <- <- <-.
  destruct (solve_table_Ok_inv graph startNode dp m last Hsolve)
    as (_ & dp0 & _ & _ & Hclose).
  split; [|split; [exact Hlow|]].
  - destruct Hatt as [[_ ?]|(_ & _ & _ & a & Ha & Hm)]; [done|by exists a].
  - by apply (closing_first graph startNode Hwf dp m last).
Qed.

Lemma closing_picks_first_minimum_witness :
  exists dp,
    solve_table classic4 1 = Ok (dp, 35, 2) /\
    (forall i, 0 <= i < 2 -> i <> 0 ->
       exists a, get2 dp (2 ^ 4 - 1) i = Ok a /\
                 dlt 35 (dadd a (edge classic4 i 0)) = true).
Proof.
  eexists. split; [vm_compute; reflexivity|].
  eapply (closing_picks_first_minimum classic4 1 _ 35 2).
  - split; [repeat constructor|simpl; lia].
  - vm_compute. reflexivity.
  - lia.
Defined.

Lemma find_pred_takes_first_match_witness :
  exists dp,
    solve_table classic4 1 = Ok (dp, 35, 2) /\
    find_pred classic4 dp 15 2 11 (seqZ 0 4) = Ok (Some 3) /\
    forall i, 0 <= i < 3 -> i <> 2 -> in_subset 15 i = true ->
      exists a b c, get2 dp 15 2 = Ok a /\ get2 dp 11 i = Ok b /\
                    get2 classic4 i 2 = Ok c /\ a <> dadd b c.
Proof.
  assert (exists dp, solve_table classic4 1 = Ok (dp, 35, 2)) as [dp Hdp]
    by (eexists; vm_compute; reflexivity).
  exists dp. split; [exact Hdp|].
  assert (find_pred classic4 dp 15 2 11 (seqZ 0 4) = Ok (Some 3)) as Hfind.
  { vm_compute in Hdp. injection Hdp as <-. vm_compute. reflexivity. }
  split; [exact Hfind|].
  destruct (find_pred_takes_first_match classic4 dp 4 15 2 11 3 Hfind)
    as (_ & _ & _ & a & Ha & _ & Hbefore).
  intros i Hi Hne Hin. destruct (Hbefore i Hi Hne Hin) as (b & c & Hb & Hc & Hneq).
  exists a, b, c. split; [exact Ha|]. split; [exact Hb|]. split; [exact Hc|exact Hneq].
Defined.

(** *** The shape of any returned route *)

Lemma find_pred_Some_in {D : Type} `{DoubleOps D}
    (graph dp : list (list D)) subset cur prev l p :
  find_pred graph dp subset cur prev l = Ok (Some p) -> p ∈ l.
Proof.
  intros Hrun.
  destruct (find_pred_Some_inv _ _ _ _ _ _ _ Hrun) as (l1 & l2 & _ & _ & _ & -> & _).
  apply elem_of_app. right. by left.
Qed.

(** The [while] loop only appends, and what it appends are locations of
    [1 .. n] other than the start. *)
Lemma reconstruct_appends {D : Type} `{DoubleOps D}
    (graph dp : list (list D)) n startNode fuel :
  forall subset cur path result,
    cur = startNode - 1 \/ 0 <= cur < n ->
    reconstruct fuel graph dp n startNode subset cur path = Ok result ->
    exists ext,
      result = path ++ ext /\
      Forall (fun k => 1 <= k <= n /\ k <> startNode) ext /\
      (cur <> startNode - 1 -> ext <> []).
Proof.
  induction fuel as [|fuel IH]; intros subset cur path result Hcur Hrun; simpl in Hrun.
  - destruct (Z.eqb_spec cur (startNode - 1)) as [Heq|Hne]; [|done].
    injection Hrun as <-. exists []. by rewrite app_nil_r.
  - destruct (Z.eqb_spec cur (startNode - 1)) as [Heq|Hne].
    { injection Hrun as <-. exists []. by rewrite app_nil_r. }
    destruct Hcur as [?|Hcur]; [done|].
    destruct (shl1 cur) as [b| |]; simpl in Hrun; try done.
    destruct (find_pred graph dp subset cur (Z.lxor subset b) (seqZ 0 n))
      as [[i|]| |] eqn:Hfind; simpl in Hrun; try done.
    + apply find_pred_Some_in, elem_of_seqZ in Hfind.
      assert (i = startNode - 1 \/ 0 <= i < n) as Hi by (right; lia).
      destruct (IH _ _ _ _ Hi Hrun) as (ext & -> & Hall & _).
      exists ((cur + 1) :: ext). split; [by rewrite <- app_assoc|].
      split; [|done]. apply Forall_cons. split; [|done]. lia.
    + assert (cur = startNode - 1 \/ 0 <= cur < n) as Hc by (by right).
      destruct (IH _ _ _ _ Hc Hrun) as (ext & -> & Hall & _).
      exists ((cur + 1) :: ext). split; [by rewrite <- app_assoc|].
      split; [|done]. apply Forall_cons. split; [|done]. lia.
Qed.

(** X6: on any input whatever, a route that [heldKarp] returns begins and
    ends with the start and has, between the two, at least one location;
    every location in between lies in [1 .. n] and is not the start. *)
Theorem heldKarp_route_frame {D : Type} `{DoubleLaws D}
    (graph : list (list D)) (startNode : Z) (fuel : nat) (bestRoute : list Z)
    (m : D) (route : list Z) :
  heldKarp fuel graph startNode bestRoute = Ok (m, route) ->
  exists interior,
    route = startNode :: interior ++ [startNode] /\
    interior <> [] /\
    Forall (fun k => 1 <= k <= Z.of_nat (length graph) /\ k <> startNode) interior.
Proof.
  intros Hrun. unfold heldKarp in Hrun.
  destruct (solve_table graph startNode) as [[[dp m0] last]| |] eqn:Hsolve;
    cbn [bind] in Hrun; try done.
  destruct (reconstruct fuel graph dp _ startNode _ last [startNode])
    as [path| |] eqn:Hrec; cbn [bind] in Hrun; try done.
  injection Hrun as _ <-.
  destruct (solve_table_Ok_inv graph startNode dp m0 last Hsolve)
    as (_ & dp0 & Hinit & _ & Hclose).
  apply init_table_Ok_inv in Hinit as [Hs _].
  destruct (closing_Ok_inv _ _ _ _ _ _ _ Hclose) as [[_ ->]|(_ & Hl & Hne)].
  { exfalso. by eapply reconstruct_minus_one. }
  destruct (reconstruct_appends _ _ _ _ _ _ _ _ _ (or_intror Hl) Hrec)
    as (ext & -> & Hall & Hnonempty).
  exists (reverse ext). split; [|split].
  - by rewrite reverse_snoc, reverse_app, reverse_singleton.
  - intros Hnil. apply Hnonempty; [done|].
    by rewrite <- (reverse_involutive ext), Hnil.
  - by rewrite reverse_Permutation.
Qed.

Lemma heldKarp_route_frame_witness :
  exists interior,
    [1; 2; 1] = 1 :: interior ++ [1] /\
    interior <> [] /\
    Forall (fun k => 1 <= k <= Z.of_nat (length neg2) /\ k <> 1) interior.
Proof.
  apply (heldKarp_route_frame neg2 1 2 [] (-2) [1; 2; 1]).
  vm_compute. reflexivity.
Defined.

(** *** A search that finds nothing *)



(** *** The entries the function reads *)

Lemma foldM_ext {S A} (body body' : A -> S -> outcome S) l :
  (forall a s, a ∈ l -> body a s = body' a s) ->
  forall s, foldM body l s = foldM body' l s.
Proof.
  induction l as [|a l IH]; intros Hext s; simpl; [done|].
  rewrite Hext by (by left). destruct (body' a s); simpl; try done.
  apply IH. intros b t Hb. apply Hext. by right.
Qed.

Lemma closing_last_range {D : Type} `{DoubleOps D}
    (graph dp : list (list D)) n subsetCount startNode m last :
  closing graph n subsetCount startNode dp = Ok (m, last) ->
  last = -1 \/ 0 <= last < n.
Proof.
  unfold closing, for_upto. intros Hrun.
  refine (foldM_Ok_inv (fun st : D * Z => snd st = -1 \/ 0 <= snd st < n)
            _ (seqZ 0 n) (INF, -1) (m, last) _ _ Hrun); [by left|].
  intros i [m0 l0] [m1 l1] Hi%elem_of_seqZ HP Hbody. simpl in *.
  destruct (i =? startNode - 1); [by injection Hbody as <- <-|].
  destruct (get2 dp (subsetCount - 1) i) as [a| |]; simpl in Hbody; try done.
  destruct (get2 graph i (startNode - 1)) as [c| |]; simpl in Hbody; try done.
  destruct (dlt (dadd a c) m0); injection Hbody as <- <-; [right; lia|done].
Qed.

Section Agreement.

Context {D : Type} `{DoubleOps D}.

Variables graph graph' : list (list D).

Let n := Z.of_nat (length graph).

Hypothesis Hrows : length graph' = length graph.
Hypothesis Hagree : forall j i,
  0 <= j < n -> 0 <= i < n -> j <> i -> get2 graph j i = get2 graph' j i.

Lemma forward_agree subsetCount dp :
  forward graph n subsetCount dp = forward graph' n subsetCount dp.
Proof.
  unfold forward, for_upto. apply foldM_ext. intros S dp1 _.
  unfold loop_i, for_upto. apply foldM_ext. intros i dp2 Hi%elem_of_seqZ.
  unfold body_i. destruct (negb (in_subset S i)); [done|].
  unfold loop_j, for_upto. apply foldM_ext. intros j dp3 Hj%elem_of_seqZ.
  unfold body_j. destruct (Z.eqb_spec i j) as [->|Hne].
  - by rewrite orb_true_r.
  - rewrite orb_false_r. destruct (negb (in_subset S j)); [done|].
    unfold relax. by rewrite (Hagree j i) by lia.
Qed.

Lemma closing_agree subsetCount startNode dp :
  0 <= startNode - 1 < n ->
  closing graph n subsetCount startNode dp = closing graph' n subsetCount startNode dp.
Proof.
  intros Hs. unfold closing, for_upto. apply foldM_ext.
  intros i [m last] Hi%elem_of_seqZ.
  destruct (Z.eqb_spec i (startNode - 1)) as [->|Hne]; [done|].
  by rewrite (Hagree i (startNode - 1)) by lia.
Qed.

Lemma find_pred_agree dp subset cur prev l :
  0 <= cur < n -> (forall i, i ∈ l -> 0 <= i < n) ->
  find_pred graph dp subset cur prev l = find_pred graph' dp subset cur prev l.
Proof.
  intros Hc. induction l as [|i rest IH]; intros Hl; simpl; [done|].
  assert (find_pred graph dp subset cur prev rest
          = find_pred graph' dp subset cur prev rest) as Hrest.
  { apply IH. intros k Hk. apply Hl. by right. }
  destruct (Z.eqb_spec i cur) as [->|Hne]; simpl; [done|].
  destruct (negb (in_subset subset i)); [done|].
  assert (0 <= i < n) as Hi by (apply Hl; by left).
  rewrite (Hagree i cur Hi Hc Hne). by rewrite Hrest.
Qed.

Lemma reconstruct_agree dp startNode fuel :
  forall subset cur path,
    cur = -1 \/ 0 <= cur < n ->
    reconstruct fuel graph dp n startNode subset cur path
    = reconstruct fuel graph' dp n startNode subset cur path.
Proof.
  induction fuel as [|fuel IH]; intros subset cur path Hcur; simpl; [done|].
  destruct (cur =? startNode - 1); [done|].
  destruct Hcur as [->|Hcur]; [done|].
  destruct (shl1 cur) as [b| |]; simpl; try done.
  rewrite (find_pred_agree dp subset cur (Z.lxor subset b) (seqZ 0 n) Hcur)
    by (intros i Hi%elem_of_seqZ; lia).
  destruct (find_pred graph' dp subset cur (Z.lxor subset b) (seqZ 0 n))
    as [[i|]| |] eqn:Hfind; simpl; try done.
  - apply IH. right. apply find_pred_Some_in, elem_of_seqZ in Hfind. lia.
  - apply IH. by right.
Qed.

(** Two matrices with the same number [n] of rows that agree on the
    off-diagonal entries of their first [n] columns give the same run. *)
Lemma heldKarp_agree fuel startNode bestRoute bestRoute' :
  heldKarp fuel graph startNode bestRoute = heldKarp fuel graph' startNode bestRoute'.
Proof.
  assert (solve_table graph startNode = solve_table graph' startNode) as Hsolve.
  { unfold solve_table. rewrite Hrows. fold n.
    destruct (31 <=? n); [done|].
    destruct (init_table n (2 ^ n) startNode) as [dp0| |] eqn:Hinit; simpl; try done.
    apply init_table_Ok_inv in Hinit.
    rewrite forward_agree.
    destruct (forward graph' n (2 ^ n) dp0) as [dp| |]; simpl; try done.
    by rewrite closing_agree by lia. }
  unfold heldKarp. rewrite <- Hsolve, Hrows. fold n.
  destruct (solve_table graph startNode) as [[[dp m] last]| |] eqn:Hrun;
    cbn [bind]; try done.
  destruct (solve_table_Ok_inv graph startNode dp m last Hrun)
    as (_ & dp0 & _ & _ & Hclose).
  fold n in Hclose. apply closing_last_range in Hclose.
  by rewrite reconstruct_agree.
Qed.

End Agreement.

Lemma get2_insert_ne {A} (m : list (list A)) r c x row j i :
  (j, i) <> (r, c) -> 0 <= r -> 0 <= c ->
  m !! Z.to_nat r = Some row ->
  get2 (<[Z.to_nat r := <[Z.to_nat c := x]> row]> m) j i = get2 m j i.
Proof.
  intros Hne Hr Hc Hrow. unfold get2, at_.
  destruct (Z.ltb_spec j 0) as [|Hj]; [done|].
  destruct (Z.eq_dec j r) as [->|Hjr].
  - rewrite list_lookup_insert_eq by (by eapply lookup_lt_Some).
    rewrite Hrow. simpl.
    destruct (Z.ltb_spec i 0) as [|Hi]; [done|].
    rewrite list_lookup_insert_ne; [done|].
    intros Heq. apply Hne. f_equal. lia.
  - rewrite list_lookup_insert_ne; [done|]. lia.
Qed.

(** X8: the diagonal of the matrix is never consulted: overwriting a
    diagonal entry [graph[k][k]] with any value changes nothing in the
    outcome of the call. *)
Theorem heldKarp_ignores_diagonal {D : Type} `{DoubleOps D}
    (graph graph' : list (list D)) (k : Z) (x : D)
    (startNode : Z) (fuel : nat) (bestRoute : list Z) :
  set2 graph k k x = Ok graph' ->
  heldKarp fuel graph' startNode bestRoute = heldKarp fuel graph startNode bestRoute.
Proof.
  intros Hset. symmetry.
  destruct (set2_Ok_inv _ _ _ _ _ Hset) as (row & a & Ha & Hrow & ->).
  apply get2_Ok in Ha as (Hk & _ & _).
  apply heldKarp_agree.
  - by rewrite length_insert.
  - intros j i _ _ Hne. symmetry. apply get2_insert_ne; try done.
    intros [= -> ->]. done.
Qed.

Lemma heldKarp_ignores_diagonal_witness :
  heldKarp 4 [[0; 10; 15; 20]; [5; 0; 9; 10]; [6; 13; 999; 12]; [8; 8; 9; 0]] 1 []
  = heldKarp 4 classic4 1 [].
Proof.
  apply (heldKarp_ignores_diagonal classic4 _ 2 999 1 4 []). reflexivity.
Defined.

(** X9: entries beyond the first [n] columns, [n] the number of rows, are
    never read: a matrix with longer rows gives the same outcome as the
    matrix cut to its first [n] columns. *)
Theorem heldKarp_ignores_extra_columns {D : Type} `{DoubleOps D}
    (graph : list (list D)) (startNode : Z) (fuel : nat) (bestRoute : list Z) :
  heldKarp fuel graph startNode bestRoute
  = heldKarp fuel (take (length graph) <$> graph) startNode bestRoute.
Proof.
  apply heldKarp_agree.
  - by rewrite length_fmap.
  - intros j i Hj Hi _. unfold get2, at_.
    destruct (Z.ltb_spec j 0); [lia|]. rewrite list_lookup_fmap.
    destruct (graph !! Z.to_nat j) as [row|]; simpl; [|done].
    destruct (Z.ltb_spec i 0); [lia|].
    rewrite lookup_take_lt by lia. done.
Qed.

Lemma heldKarp_ignores_extra_columns_example :
  heldKarp 2 wide2 1 [] = Ok (7, [1; 2; 1]) /\
  heldKarp 2 [[0; 3]; [4; 0]] 1 [] = Ok (7, [1; 2; 1]).
Proof. split; vm_compute; reflexivity. Qed.

Lemma foldM_Ok_mid {S A} (body : A -> S -> outcome S) l a :
  forall s s', foldM body l s = Ok s' -> a ∈ l ->
  exists s1 s2, body a s1 = Ok s2.
Proof.
  induction l as [|b l IH]; intros s s' Hrun Hin; [by apply elem_of_nil in Hin|].
  simpl in Hrun. destruct (body b s) as [s1| |] eqn:Hbody; simpl in Hrun; try done.
  apply elem_of_cons in Hin as [->|Hin]; [by exists s, s1|].
  by apply (IH s1 s').
Qed.

Lemma foldM_no_fuel {S A} (body : A -> S -> outcome S) l :
  (forall a s, body a s <> OutOfFuel) ->
  forall s, foldM body l s <> OutOfFuel.
Proof.
  intros Hbody. induction l as [|a l IH]; intros s; simpl; [done|].
  destruct (body a s) as [s1| |] eqn:Ha; simpl; [apply IH|done|].
  by apply Hbody in Ha.
Qed.

Lemma set2_cases {A} (m : list (list A)) r c x :
  set2 m r c x = Undefined \/ exists m', set2 m r c x = Ok m'.
Proof.
  unfold set2. destruct (at_cases m r) as [->|(row & -> & _)]; [by left|].
  simpl. destruct (at_cases row c) as [->|(a & -> & _)]; [by left|].
  right. by eexists.
Qed.

(** Lines 24-57 never run out of rounds: they either end or are undefined. *)
Lemma solve_table_no_fuel {D : Type} `{DoubleOps D}
    (graph : list (list D)) startNode :
  solve_table graph startNode <> OutOfFuel.
Proof.
  unfold solve_table. destruct (31 <=? Z.of_nat (length graph)); [done|].
  set (n := Z.of_nat (length graph)).
  assert (@init_table D _ n (2 ^ n) startNode = OutOfFuel -> False) as Hinit.
  { unfold init_table, shl1.
    destruct ((0 <=? startNode - 1) && (startNode - 1 <? 31)); simpl; [|done].
    match goal with |- set2 ?m ?r ?c ?x = _ -> _ =>
      destruct (set2_cases m r c x) as [->|[m' ->]]; done end. }
  assert (forall S i j dp, relax graph S i j dp <> OutOfFuel) as Hrelax.
  { intros S i j dp. unfold relax.
    destruct (get2_cases dp S i) as [->|[a ->]]; [done|]. simpl.
    destruct (get2_cases dp (Z.lxor S (Z.shiftl 1 i)) j) as [->|[b ->]]; [done|]. simpl.
    destruct (get2_cases graph j i) as [->|[c ->]]; [done|]. simpl.
    match goal with |- set2 ?m ?r ?c ?x <> _ =>
      destruct (set2_cases m r c x) as [->|[m' ->]]; done end. }
  assert (forall dp, forward graph n (2 ^ n) dp <> OutOfFuel) as Hfw.
  { intros dp. apply foldM_no_fuel. intros S dp1. apply foldM_no_fuel.
    intros i dp2. unfold body_i. destruct (negb (in_subset S i)); [done|].
    apply foldM_no_fuel. intros j dp3. unfold body_j.
    destruct (negb (in_subset S j) || (i =? j)); [done|apply Hrelax]. }
  assert (forall dp, closing graph n (2 ^ n) startNode dp <> OutOfFuel) as Hcl.
  { intros dp. apply foldM_no_fuel. intros i [m last].
    destruct (i =? startNode - 1); [done|].
    destruct (get2_cases dp (2 ^ n - 1) i) as [->|[a ->]]; [done|]. simpl.
    destruct (get2_cases graph i (startNode - 1)) as [->|[c ->]]; [done|]. simpl.
    by destruct (dlt (dadd a c) m). }
  destruct (init_table n (2 ^ n) startNode) as [dp0| |] eqn:Hi; simpl;
    [|done|exfalso; by apply Hinit].
  destruct (forward graph n (2 ^ n) dp0) as [dp| |] eqn:Hf; simpl;
    [|done|by apply Hfw in Hf].
  destruct (closing graph n (2 ^ n) startNode dp) as [[m last]| |] eqn:Hc; simpl;
    [done|done|by apply Hcl in Hc].
Qed.

(** X10: a matrix that lacks an off-diagonal entry of its first [n]
    columns (a row too short) makes the call undefined: the forward pass
    reads every such entry. *)
Theorem heldKarp_missing_entry_undefined {D : Type} `{DoubleOps D}
    (graph : list (list D)) (startNode : Z) (fuel : nat) (bestRoute : list Z)
    (j i : Z) :
  let n := Z.of_nat (length graph) in
  0 <= j < n -> 0 <= i < n -> j <> i ->
  (forall c, get2 graph j i <> Ok c) ->
  heldKarp fuel graph startNode bestRoute = Undefined.
Proof.
  intros n Hj Hi Hne Hmiss. unfold heldKarp.
  destruct (solve_table graph startNode) as [[[dp m] last]| |] eqn:Hsolve;
    cbn [bind]; [|done|by apply solve_table_no_fuel in Hsolve].
  exfalso.
  destruct (solve_table_Ok_inv graph startNode dp m last Hsolve)
    as (Hn30 & dp0 & _ & Hfw & _).
  fold n in Hn30, Hfw.
  assert (0 < 2 ^ n) as Hpow by (apply Z.pow_pos_nonneg; lia).
  unfold forward, for_upto in Hfw.
  destruct (foldM_Ok_mid _ _ (2 ^ n - 1) _ _ Hfw) as (dp1 & dp2 & Hloop_i).
  { apply elem_of_seqZ. lia. }
  unfold loop_i, for_upto in Hloop_i.
  destruct (foldM_Ok_mid _ _ i _ _ Hloop_i) as (dp3 & dp4 & Hbody_i).
  { apply elem_of_seqZ. lia. }
  unfold body_i in Hbody_i.
  rewrite in_subset_testbit, testbit_full in Hbody_i by lia. simpl in Hbody_i.
  unfold loop_j, for_upto in Hbody_i.
  destruct (foldM_Ok_mid _ _ j _ _ Hbody_i) as (dp5 & dp6 & Hbody_j).
  { apply elem_of_seqZ. lia. }
  unfold body_j in Hbody_j.
  rewrite in_subset_testbit, testbit_full in Hbody_j by lia. simpl in Hbody_j.
  replace (i =? j) with false in Hbody_j by (symmetry; apply Z.eqb_neq; lia).
  unfold relax in Hbody_j.
  destruct (get2 dp5 (2 ^ n - 1) i); simpl in Hbody_j; try done.
  destruct (get2 dp5 (Z.lxor (2 ^ n - 1) (Z.shiftl 1 i)) j); simpl in Hbody_j; try done.
  destruct (get2 graph j i) as [c| |] eqn:Hc; simpl in Hbody_j; try done.
  by apply (Hmiss c).
Qed.

Lemma heldKarp_missing_entry_undefined_witness :
  heldKarp 4 short4 1 [] = Undefined.
Proof.
  apply (heldKarp_missing_entry_undefined short4 1 4 [] 3 2).
  - simpl. lia.
  - simpl. lia.
  - lia.
  - intros c. vm_compute. discriminate.
Defined.

(** *** The sign of the returned cost *)

Lemma edge_nonneg {D : Type} `{DoubleLaws D} (graph : list (list D)) j i :
  nonneg graph -> dle dzero (edge graph j i).
Proof.
  intros Hnn. unfold edge.
  destruct (get2 graph j i) as [c| |] eqn:Hc; try apply dle_refl.
  apply get2_Ok in Hc as (_ & _ & row & Hrow & Hc).
  unfold nonneg in Hnn. rewrite Forall_forall in Hnn.
  assert (Forall (dle dzero) row) as Hr.
  { apply Hnn, list_elem_of_lookup. eauto. }
  rewrite Forall_forall in Hr. apply Hr, list_elem_of_lookup. eauto.
Qed.

Lemma walk_from_nonneg {D : Type} `{DoubleLaws D} (graph : list (list D)) w :
  nonneg graph ->
  forall acc u, dle dzero acc -> dle dzero (walk_from graph acc u w).
Proof.
  intros Hnn. induction w as [|v w IH]; intros acc u Hacc; simpl; [done|].
  apply IH. eapply dle_trans; [exact Hacc|]. apply dadd_nonneg. by apply edge_nonneg.
Qed.

(** X11: on a valid input the cost [heldKarp] returns is never negative
    (and, as on every input, it is below [INF]). *)
Theorem heldKarp_cost_nonneg {D : Type} `{DoubleLaws D}
    (graph : list (list D)) (startNode : Z) (fuel : nat) (bestRoute : list Z)
    (m : D) (route : list Z) :
  valid_input graph startNode ->
  heldKarp fuel graph startNode bestRoute = Ok (m, route) ->
  dle dzero m /\ dlt m INF = true.
Proof.
  intros Hvalid Hrun.
  destruct (heldKarp_returns_inv graph startNode fuel bestRoute m route Hvalid Hrun)
    as (_ & dp & last & visited & a & _ & _ & _ & _ & Hm & Hlt & _ & _ & Hcost & _).
  split; [|exact Hlt]. destruct Hvalid as (_ & Hnn & _).
  rewrite Hm. eapply dle_trans; [|apply dadd_nonneg; by apply edge_nonneg].
  rewrite <- Hcost. simpl. apply walk_from_nonneg; [done|apply dle_refl].
Qed.

Lemma heldKarp_cost_nonneg_witness :
  heldKarp 4 classic4 1 [] = Ok (35, [1; 2; 4; 3; 1]) /\
  dle 0 35 /\ dlt 35 (@INF Z _) = true.
Proof.
  split; [vm_compute; reflexivity|].
  change (dle (@dzero Z _) 35 /\ dlt 35 (@INF Z _) = true).
  apply (heldKarp_cost_nonneg classic4 1 4 [] 35 [1; 2; 4; 3; 1]).
  - exact classic4_valid.
  - vm_compute. reflexivity.
Defined.

(** *** The column of the start *)

(** X12: on a valid input of at most 30 locations the forward pass never
    lets a path come back to the start: in the table [heldKarp] goes on
    to use, the base cell [dp[1 << s][s]] still holds [0] and every other
    cell of the start's column holds [INF]. *)
Theorem start_column_after_forward {D : Type} `{DoubleLaws D}
    (graph : list (list D)) (startNode : Z) :
  let n := Z.of_nat (length graph) in
  let s := startNode - 1 in
  valid_input graph startNode -> n <= 30 ->
  exists dp m last,
    solve_table graph startNode = Ok (dp, m, last) /\
    get2 dp (Z.shiftl 1 s) s = Ok dzero /\
    forall S, 0 <= S < 2 ^ n -> S <> Z.shiftl 1 s -> get2 dp S s = Ok INF.
Proof.
  intros n s Hvalid Hn30.
  destruct (valid_well_formed graph startNode Hvalid Hn30) as [Hwf Hnn].
  pose proof (s_range graph startNode Hwf) as Hs. fold n s in Hs.
  destruct (solve_table_spec graph startNode Hwf Hnn)
    as (dp & m & last & Hsolve & Hsh & Hfin & _).
  fold n s in Hsh, Hfin.
  exists dp, m, last. split; [exact Hsolve|]. split.
  - destruct (Hfin (Z.shiftl 1 s) s (pow2_lt n s Hs) Hs) as (v & Hv & _ & Hlb & _).
    assert (dle v dzero) as Hle.
    { apply (Hlb [s]). by apply simple_path_start. }
    assert (dlt v INF = true) as Hlt.
    { eapply dle_lt_trans; [exact Hle|apply dzero_lt_INF]. }
    destruct (start_cell graph startNode Hwf dp Hfin _ v (pow2_lt n s Hs) Hv Hlt)
      as [_ ->]. exact Hv.
  - intros S HS Hne. destruct (Hfin S s HS Hs) as (v & Hv & Hle & _).
    destruct (dlt v INF) eqn:Hlt.
    + destruct (start_cell graph startNode Hwf dp Hfin S v HS Hv Hlt) as [-> _]. done.
    + rewrite Hv. f_equal. by apply dle_antisym.
Qed.

Lemma start_column_after_forward_witness :
  exists dp m last,
    solve_table classic4 1 = Ok (dp, m, last) /\
    get2 dp (Z.shiftl 1 0) 0 = Ok 0 /\
    forall S, 0 <= S < 2 ^ 4 -> S <> Z.shiftl 1 0 -> get2 dp S 0 = Ok 2147483647.
Proof.
  apply (start_column_after_forward classic4 1 classic4_valid). simpl. lia.
Defined.

(** ** The console *)

Section Console.

Context {D : Type} `{DoubleOps D}.

(** A loop whose rounds only append to the output. *)
Lemma foldM_emit {A} (f : A -> list (event D)) (l : list A) :
  forall cout,
    foldM (fun a cout => Ok (cout ++ f a)) l cout = Ok (cout ++ flat_map f l).
Proof.
  induction l as [|a l IH]; intros cout; simpl.
  - by rewrite app_nil_r.
  - by rewrite IH, <- app_assoc.
Qed.

Lemma printLine_spec (ch : ascii) (length : Z) (cout : list (event D)) :
  printLine ch length cout
  = Ok (cout ++ replicate (Z.to_nat length) (Put_char ch) ++ [Put_endl]).
Proof.
  unfold printLine. destruct (Z.le_gt_cases length 0) as [Hneg|Hpos].
  - rewrite for_upto_nonpos by done. simpl.
    replace (Z.to_nat length) with 0%nat by lia. done.
  - destruct (for_upto_inv
      (fun k c => c = cout ++ replicate (Z.to_nat k) (Put_char ch)) length
      (fun _ cout => Ok (cout ++ [Put_char ch])) cout) as (c & -> & ->).
    + lia.
    + simpl. by rewrite app_nil_r.
    + intros k c Hk ->. eexists. split; [done|].
      replace (Z.to_nat (k + 1)) with (Datatypes.S (Z.to_nat k)) by lia.
      by rewrite replicate_S_end, app_assoc.
    + simpl. by rewrite <- app_assoc.
Qed.

Lemma printMatrix_spec (matrix : list (list D)) (cout : list (event D)) :
  printMatrix matrix cout
  = Ok (cout
        ++ [Put_text (String.String (ascii_of_nat 10) "Distance Matrix:"%string);
            Put_endl]
        ++ flat_map (fun row =>
             flat_map (fun val => [Set_width 8; Put_double val; Put_text " "%string]) row
             ++ [Put_endl]) matrix).
Proof.
  unfold printMatrix.
  rewrite (foldM_ext _ (fun row cout =>
      Ok (cout ++ (flat_map (fun val =>
                     [Set_width 8; Put_double val; Put_text " "%string]) row
                   ++ [Put_endl])))).
  - by rewrite foldM_emit, <- app_assoc.
  - intros row c _. rewrite foldM_emit. simpl. by rewrite <- app_assoc.
Qed.

Lemma print_locations_spec (bestRoute : list Z) (cout : list (event D)) :
  print_locations bestRoute cout
  = Ok (cout
        ++ [Put_text (String.String (ascii_of_nat 10)
                        "Locations in the route (one by one):"%string); Put_endl]
        ++ flat_map (fun location =>
             [Put_text "Location "%string; Put_int location; Put_endl]) bestRoute).
Proof.
  unfold print_locations. by rewrite foldM_emit, <- app_assoc.
Qed.

Lemma arrows_snoc (l : list Z) r :
  @arrows D (l ++ [r])
  = flat_map (fun r' => [Put_int r'; Put_text " -> "%string]) l ++ [Put_int r].
Proof.
  destruct l as [|r0 l]; [done|]. simpl. f_equal.
  induction l as [|r1 l IH]; simpl; [done|].
  by rewrite IH.
Qed.

Lemma print_route_spec (bestRoute : list Z) (cout : list (event D)) :
  Z.of_nat (length bestRoute) <= 2 ^ 64 ->
  print_route bestRoute cout
  = Ok (cout ++ [Put_text "Route: "%string] ++ arrows bestRoute ++ [Put_endl]).
Proof.
  intros Hsize.
  set (size := Z.of_nat (length bestRoute)) in *.
  set (c0 := cout ++ [Put_text "Route: "%string]).
  cut (exists c,
    for_upto size (fun i cout =>
       let* r := at_ bestRoute i in
       let cout := cout ++ [Put_int r] in
       if i <? (size - 1) mod 2 ^ 64 then Ok (cout ++ [Put_text " -> "%string])
       else Ok cout) c0 = Ok c
    /\ c = c0 ++ arrows bestRoute).
  { intros (c & Hrun & ->). unfold print_route. cbv zeta in Hrun |- *.
    fold size c0. rewrite Hrun. simpl. unfold c0. by rewrite <- !app_assoc. }
  destruct (for_upto_inv
    (fun k c =>
       c = c0 ++ (if k <? size
                  then flat_map (fun r' => [Put_int r'; Put_text " -> "%string])
                         (take (Z.to_nat k) bestRoute)
                  else arrows bestRoute)) size
    (fun i cout =>
       let* r := at_ bestRoute i in
       let cout := cout ++ [Put_int r] in
       if i <? (size - 1) mod 2 ^ 64 then Ok (cout ++ [Put_text " -> "%string])
       else Ok cout) c0) as (c & Hrun & Hc).
  - lia.
  - destruct (Z.ltb_spec 0 size) as [|Hzero]; [simpl; by rewrite app_nil_r|].
    assert (bestRoute = []) as -> by (destruct bestRoute; [done|simpl in *; lia]).
    simpl. by rewrite app_nil_r.
  - intros k c Hk ->.
    destruct (lookup_lt_is_Some_2 bestRoute (Z.to_nat k)) as [r Hr]; [lia|].
    assert (at_ bestRoute k = Ok r) as -> by (apply at_Ok; split; [lia|done]).
    simpl. replace (k <? size) with true by (symmetry; apply Z.ltb_lt; lia).
    rewrite Z.mod_small by lia.
    replace (Z.to_nat (k + 1)) with (Datatypes.S (Z.to_nat k)) by lia.
    destruct (Z.ltb_spec k (size - 1)) as [Hlt|Hlast].
    + eexists. split; [done|].
      replace (k + 1 <? size) with true by (symmetry; apply Z.ltb_lt; lia).
      rewrite (take_S_r _ _ _ Hr), flat_map_app. simpl.
      by rewrite <- !app_assoc.
    + eexists. split; [done|].
      replace (k + 1 <? size) with false by (symmetry; apply Z.ltb_ge; lia).
      assert (bestRoute = take (Z.to_nat k) bestRoute ++ [r]) as Hall.
      { rewrite <- (take_S_r _ _ _ Hr), take_ge; [done|]. lia. }
      rewrite Hall at 2. by rewrite arrows_snoc, <- !app_assoc.
  - exists c. split; [done|]. by rewrite Z.ltb_irrefl in Hc.
Qed.

(** *** The matrix that is read *)

Lemma seqZ_snoc (k : Z) : 0 <= k -> seqZ 0 (k + 1) = seqZ 0 k ++ [k].
Proof.
  intros Hk. rewrite seqZ_app by lia. f_equal.
Qed.

Lemma matrix_of_length (n : Z) (cell : Z -> Z -> D) :
  length (matrix_of n cell) = Z.to_nat n.
Proof. unfold matrix_of. by rewrite length_fmap, length_seqZ. Qed.

Lemma matrix_of_lookup (n : Z) (cell : Z -> Z -> D) (r : nat) :
  Z.of_nat r < n ->
  matrix_of n cell !! r = Some (cell (Z.of_nat r) <$> seqZ 0 n).
Proof.
  intros Hr. unfold matrix_of. rewrite list_lookup_fmap.
  by rewrite lookup_seqZ_lt by done.
Qed.

Lemma matrix_of_shaped (n : Z) (cell : Z -> Z -> D) :
  0 <= n -> shaped n n (matrix_of n cell).
Proof.
  intros Hn. split.
  - rewrite matrix_of_length. lia.
  - unfold matrix_of. apply Forall_fmap, Forall_forall. intros i _. simpl.
    rewrite length_fmap, length_seqZ. lia.
Qed.

Lemma matrix_of_square (n : Z) (cell : Z -> Z -> D) : square (matrix_of n cell).
Proof.
  unfold square. rewrite matrix_of_length. unfold matrix_of.
  apply Forall_fmap, Forall_forall. intros i _. simpl.
  by rewrite length_fmap, length_seqZ.
Qed.

Lemma matrix_of_get2 (n : Z) (cell : Z -> Z -> D) (r c : Z) :
  0 <= r < n -> 0 <= c < n -> get2 (matrix_of n cell) r c = Ok (cell r c).
Proof.
  intros Hr Hc. apply get2_Ok. split; [lia|]. split; [lia|].
  exists (cell r <$> seqZ 0 n). split.
  - rewrite matrix_of_lookup by lia. by rewrite Z2Nat.id by lia.
  - rewrite list_lookup_fmap, lookup_seqZ_lt by lia. simpl.
    by rewrite Z2Nat.id by lia.
Qed.

(** Two matrices of one shape with the same cells are equal. *)
Lemma shaped_ext {A} (R C : Z) (m m' : list (list A)) :
  Z.of_nat (length m) = R -> Forall (fun r => Z.of_nat (length r) = C) m ->
  Z.of_nat (length m') = R -> Forall (fun r => Z.of_nat (length r) = C) m' ->
  (forall r c, 0 <= r < R -> 0 <= c < C -> get2 m r c = get2 m' r c) ->
  m = m'.
Proof.
  intros HR HC HR' HC' Hcells.
  apply list_eq_same_length with (n := length m); [lia|done|].
  intros i row row' Hi Hrow Hrow'.
  rewrite Forall_forall in HC, HC'.
  assert (Z.of_nat (length row) = C) as Hlen
    by (apply HC, list_elem_of_lookup; eauto).
  assert (Z.of_nat (length row') = C) as Hlen'
    by (apply HC', list_elem_of_lookup; eauto).
  apply list_eq_same_length with (n := length row); [lia|done|].
  intros j a a' Hj Ha Ha'.
  assert (get2 m (Z.of_nat i) (Z.of_nat j) = Ok a) as Hget.
  { apply get2_Ok. split; [lia|]. split; [lia|]. exists row.
    by rewrite !Nat2Z.id. }
  assert (get2 m' (Z.of_nat i) (Z.of_nat j) = Ok a') as Hget'.
  { apply get2_Ok. split; [lia|]. split; [lia|]. exists row'.
    by rewrite !Nat2Z.id. }
  rewrite Hcells in Hget by lia. congruence.
Qed.

(** Lines 130-137 build the matrix of the values read, after one prompt
    for every cell. *)
Lemma read_graph_spec (n : Z) (cell : Z -> Z -> D) (cout : list (event D)) :
  0 <= n ->
  read_graph n cell cout
  = Ok (cout
        ++ [Put_text "Enter the distance matrix (space-separated row-wise):"%string;
            Put_endl]
        ++ flat_map (fun i =>
             flat_map (fun j =>
               [Put_text "Enter time for ["%string; Put_int (i + 1);
                Put_text "]["%string; Put_int (j + 1); Put_text "]: "%string])
               (seqZ 0 n)) (seqZ 0 n),
        matrix_of n cell).
Proof.
  intros Hn. unfold read_graph.
  replace (n <? 0) with false by (symmetry; apply Z.ltb_ge; lia).
  cbn [bind].
  set (prompt := fun i j : Z =>
    [@Put_text D "Enter time for ["%string; Put_int (i + 1);
     Put_text "]["%string; Put_int (j + 1); Put_text "]: "%string]).
  set (c0 := cout ++ _).
  set (g0 := replicate (Z.to_nat n) (replicate (Z.to_nat n) dzero)).
  assert (shaped n n g0) as Hsh0.
  { split.
    - unfold g0. rewrite length_replicate. lia.
    - unfold g0. apply Forall_replicate. rewrite length_replicate. lia. }
  assert (forall r c, 0 <= r < n -> 0 <= c < n -> get2 g0 r c = Ok dzero) as Hg0.
  { intros r c Hr Hc. apply get2_Ok. split; [lia|]. split; [lia|].
    exists (replicate (Z.to_nat n) dzero).
    split; apply lookup_replicate_2; lia. }
  destruct (for_upto_inv
    (fun k '(c, g) =>
       c = c0 ++ flat_map (fun i => flat_map (prompt i) (seqZ 0 n)) (seqZ 0 k) /\
       shaped n n g /\
       forall r c', 0 <= r < n -> 0 <= c' < n ->
         get2 g r c' = Ok (if r <? k then cell r c' else dzero)) n
    (fun i =>
       for_upto n (fun j '(cout, graph) =>
         let cout := cout ++ prompt i j in
         let* graph := set2 graph i j (cell i j) in
         Ok (cout, graph))) (c0, g0)) as ([c g] & Hrun & Hc & Hsh & Hcells).
  - done.
  - split; [by rewrite app_nil_r|]. split; [done|].
    intros r c' Hr Hc'. replace (r <? 0) with false by (symmetry; apply Z.ltb_ge; lia).
    by apply Hg0.
  - intros i [c g] Hi (-> & Hsh & Hcells).
    destruct (for_upto_inv
      (fun k '(c, g) =>
         c = (c0 ++ flat_map (fun i => flat_map (prompt i) (seqZ 0 n)) (seqZ 0 i))
             ++ flat_map (prompt i) (seqZ 0 k) /\
         shaped n n g /\
         forall r c', 0 <= r < n -> 0 <= c' < n ->
           get2 g r c'
           = Ok (if (r <? i) || ((r =? i) && (c' <? k)) then cell r c' else dzero)) n
      (fun j '(cout, graph) =>
         let cout := cout ++ prompt i j in
         let* graph := set2 graph i j (cell i j) in
         Ok (cout, graph))
      (c0 ++ flat_map (fun i => flat_map (prompt i) (seqZ 0 n)) (seqZ 0 i), g))
      as ([c1 g1] & Hrun1 & -> & Hsh1 & Hcells1).
    + done.
    + split; [by rewrite app_nil_r|]. split; [done|].
      intros r c' Hr Hc'. rewrite Hcells by done.
      replace (c' <? 0) with false by (symmetry; apply Z.ltb_ge; lia).
      by rewrite andb_false_r, orb_false_r.
    + intros j [c1 g1] Hj (-> & Hsh1 & Hcells1).
      destruct (set2_spec g1 n n i j _ (cell i j) Hsh1 (Hcells1 i j Hi Hj))
        as (g2 & Hset & Hsh2 & Hnew & Hold).
      exists ((c0 ++ flat_map (fun i => flat_map (prompt i) (seqZ 0 n)) (seqZ 0 i))
              ++ flat_map (prompt i) (seqZ 0 (j + 1)), g2).
      split.
      * cbv zeta. rewrite Hset. cbn [bind].
        rewrite seqZ_snoc, flat_map_app by lia. simpl.
        by rewrite <- !app_assoc.
      * split; [done|]. split; [done|].
        intros r c' Hr Hc'.
        destruct (decide ((r, c') = (i, j))) as [[= -> ->]|Hne].
        { rewrite Hnew. rewrite Z.eqb_refl.
          replace (j <? j + 1) with true by (symmetry; apply Z.ltb_lt; lia).
          by rewrite orb_true_r. }
        rewrite Hold by done. rewrite Hcells1 by done.
        f_equal.
        destruct (Z.ltb_spec r i); [done|]. simpl.
        destruct (Z.eqb_spec r i) as [->|]; [|done]. simpl.
        assert (c' <> j) by congruence.
        destruct (Z.ltb_spec c' j), (Z.ltb_spec c' (j + 1)); try done; lia.
    + exists (c0 ++ flat_map (fun i => flat_map (prompt i) (seqZ 0 n)) (seqZ 0 (i + 1)), g1).
      split.
      * rewrite Hrun1. f_equal. f_equal.
        rewrite seqZ_snoc, flat_map_app by lia. simpl.
        by rewrite app_nil_r, <- !app_assoc.
      * split; [done|]. split; [done|].
        intros r c' Hr Hc'. rewrite Hcells1 by done. f_equal.
        destruct (Z.ltb_spec r i), (Z.ltb_spec r (i + 1)); try lia; try done.
        simpl. destruct (Z.eqb_spec r i); simpl.
        -- replace (c' <? n) with true by (symmetry; apply Z.ltb_lt; lia). done.
        -- lia.
        -- destruct (Z.eqb_spec r i); [lia|done].
  - transitivity (Ok (c, g)); [exact Hrun|]. f_equal. f_equal.
    + rewrite Hc. unfold c0. by rewrite <- app_assoc.
    + destruct Hsh as [HR HC].
      destruct (matrix_of_shaped n cell Hn) as [HR' HC'].
      apply (shaped_ext n n); try done.
      intros r c' Hr Hc'. rewrite Hcells by done.
      rewrite matrix_of_get2 by done.
      by replace (r <? n) with true by (symmetry; apply Z.ltb_lt; lia).
Qed.

End Console.

(** ** The program *)

Lemma app_skip {A} (x l b r : list A) : l = b ++ r -> x ++ l = (x ++ b) ++ r.
Proof. intros ->. by rewrite app_assoc. Qed.

Lemma app_stop {A} (x l r : list A) : l = r -> x ++ l = [] ++ x ++ r.
Proof. by intros ->. Qed.

Section Main.

Context {D : Type} `{DoubleLaws D}.

(** What [report] sends to the console: the rows of the matrix, the line
    of the route and the line of the minimum distance, in this order. *)
Lemma report_spec (graph : list (list D)) (minDistance : D) (bestRoute : list Z)
    (cout : list (event D)) :
  Z.of_nat (length bestRoute) <= 2 ^ 64 ->
  exists before mid1 mid2 after,
    report graph minDistance bestRoute cout
    = Ok (cout ++ before
          ++ flat_map (fun row =>
               flat_map (fun val =>
                 [Set_width 8; Put_double val; Put_text " "%string]) row
               ++ [Put_endl]) graph
          ++ mid1
          ++ [Put_text "Route: "%string] ++ arrows bestRoute ++ [Put_endl]
          ++ mid2
          ++ [Put_text "Minimum distance: "%string; Set_fixed; Set_precision 2;
              Put_double minDistance; Put_text " units"%string; Put_endl]
          ++ after).
Proof.
  intros Hsize. unfold report. cbv zeta.
  rewrite printLine_spec. cbn [bind].
  rewrite printLine_spec. cbn [bind].
  rewrite printMatrix_spec. cbn [bind].
  rewrite printLine_spec. cbn [bind].
  rewrite printLine_spec. cbn [bind].
  rewrite print_route_spec by done. cbn [bind].
  rewrite print_locations_spec. cbn [bind].
  rewrite printLine_spec. cbn [bind].
  rewrite printLine_spec.
  do 4 eexists. f_equal.
  etrans; [rewrite <- !app_assoc; reflexivity|]. f_equal.
  do 7 refine (app_skip _ _ _ _ _). refine (app_stop _ _ _ _).
  do 5 refine (app_skip _ _ _ _ _). refine (app_stop _ _ _ _).
  f_equal. f_equal.
  do 4 refine (app_skip _ _ _ _ _). refine (app_stop _ _ _ _).
  reflexivity.
Qed.

Lemma matrix_of_nonneg (n : Z) (cell : Z -> Z -> D) :
  (forall i j, 0 <= i < n -> 0 <= j < n -> dle dzero (cell i j)) ->
  nonneg (matrix_of n cell).
Proof.
  intros Hcell. unfold nonneg, matrix_of.
  apply Forall_fmap, Forall_forall. intros i Hi. simpl.
  apply Forall_fmap, Forall_forall. intros j Hj. simpl.
  apply elem_of_seqZ in Hi, Hj. apply Hcell; lia.
Qed.

Lemma main_run (fuel : nat) (n : Z) (cell : Z -> Z -> D) (startNode : Z)
    (m : D) (route : list Z) :
  0 <= n ->
  heldKarp fuel (matrix_of n cell) startNode [] = Ok (m, route) ->
  Z.of_nat (length route) <= 2 ^ 64 ->
  exists before mid1 mid2 after,
    main fuel n cell startNode
    = Ok (before
          ++ flat_map (fun row =>
               flat_map (fun val =>
                 [Set_width 8; Put_double val; Put_text " "%string]) row
               ++ [Put_endl]) (matrix_of n cell)
          ++ mid1
          ++ [Put_text "Route: "%string] ++ arrows route ++ [Put_endl]
          ++ mid2
          ++ [Put_text "Minimum distance: "%string; Set_fixed; Set_precision 2;
              Put_double m; Put_text " units"%string; Put_endl]
          ++ after, 0).
Proof.
  intros Hn Hrun Hsize. unfold main. cbv zeta.
  rewrite read_graph_spec by done. cbn [bind]. rewrite Hrun. cbn [bind].
  match goal with
  | |- context [report _ _ _ ?c] =>
      destruct (report_spec (matrix_of n cell) m route c Hsize)
        as (before & mid1 & mid2 & after & ->)
  end.
  cbn [bind]. eexists (_ ++ before), mid1, mid2, after.
  f_equal. f_equal. refine (app_assoc _ _ _).
Qed.

End Main.

(** X13: [printLine] never fails and appends to the console exactly
    [length] copies of the character followed by one line end; for a
    length that is zero or negative the loop does not run and only the
    line end is printed. *)
Theorem printLine_prints_length_chars {D : Type} `{DoubleOps D}
    (ch : ascii) (length : Z) (cout : list (event D)) :
  printLine ch length cout
  = Ok (cout ++ replicate (Z.to_nat (Z.max 0 length)) (Put_char ch) ++ [Put_endl]).
Proof.
  rewrite printLine_spec.
  by replace (Z.to_nat (Z.max 0 length)) with (Z.to_nat length) by lia.
Qed.

(** X14: [printMatrix] never fails, whatever the shape of the matrix
    (empty, ragged): after the heading it prints the rows in order, one
    line per row, every value in a field of width 8 followed by one
    space. *)
Theorem printMatrix_prints_rows {D : Type} `{DoubleOps D}
    (matrix : list (list D)) (cout : list (event D)) :
  printMatrix matrix cout
  = Ok (cout
        ++ [Put_text (String.String (ascii_of_nat 10) "Distance Matrix:"%string);
            Put_endl]
        ++ flat_map (fun row =>
             flat_map (fun val =>
               [Set_width 8; Put_double val; Put_text " "%string]) row
             ++ [Put_endl]) matrix).
Proof. apply printMatrix_spec. Qed.

(** X15: for a number of locations [n >= 0] the input loop of [main]
    never fails; it prompts for the cells row by row with 1-based indices
    and builds the [n] by [n] matrix whose entry [(i, j)] is the value
    read for that cell. *)
Theorem read_graph_builds_matrix {D : Type} `{DoubleOps D}
    (n : Z) (cell : Z -> Z -> D) (cout : list (event D)) :
  0 <= n ->
  exists graph,
    read_graph n cell cout
    = Ok (cout
          ++ [Put_text "Enter the distance matrix (space-separated row-wise):"%string;
              Put_endl]
          ++ flat_map (fun i =>
               flat_map (fun j =>
                 [Put_text "Enter time for ["%string; Put_int (i + 1);
                  Put_text "]["%string; Put_int (j + 1); Put_text "]: "%string])
                 (seqZ 0 n)) (seqZ 0 n),
          graph) /\
    Z.of_nat (length graph) = n /\ square graph /\
    forall i j, 0 <= i < n -> 0 <= j < n -> get2 graph i j = Ok (cell i j).
Proof.
  intros Hn. exists (matrix_of n cell).
  split; [by apply read_graph_spec|].
  split; [rewrite matrix_of_length; lia|].
  split; [apply matrix_of_square|].
  intros i j Hi Hj. by apply matrix_of_get2.
Qed.

Lemma read_graph_builds_matrix_witness :
  exists graph,
    read_graph 2 (fun i j => 10 * i + j) []
    = Ok ([Put_text "Enter the distance matrix (space-separated row-wise):"%string;
           Put_endl;
           Put_text "Enter time for ["%string; Put_int 1; Put_text "]["%string;
           Put_int 1; Put_text "]: "%string;
           Put_text "Enter time for ["%string; Put_int 1; Put_text "]["%string;
           Put_int 2; Put_text "]: "%string;
           Put_text "Enter time for ["%string; Put_int 2; Put_text "]["%string;
           Put_int 1; Put_text "]: "%string;
           Put_text "Enter time for ["%string; Put_int 2; Put_text "]["%string;
           Put_int 2; Put_text "]: "%string], graph) /\
    Z.of_nat (length graph) = 2 /\ square graph /\
    forall i j, 0 <= i < 2 -> 0 <= j < 2 -> get2 graph i j = Ok (10 * i + j).
Proof.
  destruct (read_graph_builds_matrix 2 (fun i j => 10 * i + j) [])
    as (graph & Hrun & Hrest); [lia|].
  exists graph. split; [exact Hrun|exact Hrest].
Defined.

(** X16: the route line of [main] never fails: it prints the entries of
    the route in order with an arrow between each two neighbours and none
    after the last; for an empty route, where [size() - 1] wraps around,
    it prints only the title and the line end. *)
Theorem print_route_joins_with_arrows {D : Type} `{DoubleOps D}
    (bestRoute : list Z) (cout : list (event D)) :
  Z.of_nat (length bestRoute) <= 2 ^ 64 ->
  print_route bestRoute cout
  = Ok (cout ++ [Put_text "Route: "%string] ++ arrows bestRoute ++ [Put_endl]).
Proof. apply print_route_spec. Qed.

Lemma print_route_joins_with_arrows_witness :
  print_route [1; 2; 1] ([] : list (event Z))
  = Ok ([Put_text "Route: "%string; Put_int 1; Put_text " -> "%string; Put_int 2;
         Put_text " -> "%string; Put_int 1; Put_endl])
  /\ print_route [] ([] : list (event Z))
     = Ok [Put_text "Route: "%string; Put_endl].
Proof.
  split.
  - apply (print_route_joins_with_arrows (D := Z) [1; 2; 1] []). simpl. lia.
  - apply (print_route_joins_with_arrows (D := Z) [] []). simpl. lia.
Defined.

(** X17: [main] has no check of what it reads: for a number of locations
    [n >= 0] and any cells, unless [2 <= n <= 30] and the start is in
    [1 .. n], the run is undefined: the call of [heldKarp] is. *)
Theorem main_outside_range_undefined {D : Type} `{DoubleOps D}
    (fuel : nat) (n : Z) (cell : Z -> Z -> D) (startNode : Z) :
  0 <= n ->
  ~ (2 <= n <= 30 /\ 1 <= startNode <= n) ->
  main (S fuel) n cell startNode = Undefined.
Proof.
  intros Hn Hout. unfold main. cbv zeta.
  rewrite read_graph_spec by done. cbn [bind].
  assert (Z.of_nat (length (matrix_of n cell)) = n) as Hlen
    by (rewrite matrix_of_length; lia).
  destruct (decide (1 <= startNode <= n)) as [Hs|Hs].
  - destruct (Z.le_gt_cases 31 n) as [Hbig|Hsmall].
    + unfold heldKarp. rewrite solve_table_too_many by lia. done.
    + assert (n = 1) as -> by lia. assert (startNode = 1) as -> by lia.
      reflexivity.
  - rewrite heldKarp_bad_start by (rewrite Hlen; done). done.
Qed.

Lemma main_outside_range_undefined_witness :
  main 1 1 (fun _ _ => 0) 1 = Undefined /\
  main 1 3 (fun i j => i + j) 4 = Undefined.
Proof.
  split.
  - apply (main_outside_range_undefined (D := Z) 0 1 (fun _ _ => 0) 1); lia.
  - apply (main_outside_range_undefined (D := Z) 0 3 (fun i j => i + j) 4); lia.
Defined.

(** X18: for [2 <= n <= 30] locations, non-negative cells, a start in
    [1 .. n] and some Hamiltonian cycle of cost below [INF], [main]
    terminates with status [0]; what it has printed contains, in this
    order, the rows of the matrix it read, the line of a route and the
    line of a minimum distance, where the route is (0-based) a
    Hamiltonian cycle from the start, the distance is the cost of that
    very route and no Hamiltonian cycle from the start costs less. *)
Theorem main_prints_optimal_route {D : Type} `{DoubleLaws D}
    (fuel : nat) (n : Z) (cell : Z -> Z -> D) (startNode : Z) :
  2 <= n <= 30 -> 1 <= startNode <= n ->
  (forall i j, 0 <= i < n -> 0 <= j < n -> dle dzero (cell i j)) ->
  (exists t, tour n (startNode - 1) t /\
             dlt (walk_cost (matrix_of n cell) t) INF = true) ->
  (Z.to_nat n <= fuel)%nat ->
  exists m route before mid1 mid2 after,
    main fuel n cell startNode
    = Ok (before
          ++ flat_map (fun row =>
               flat_map (fun val =>
                 [Set_width 8; Put_double val; Put_text " "%string]) row
               ++ [Put_endl]) (matrix_of n cell)
          ++ mid1
          ++ [Put_text "Route: "%string] ++ arrows route ++ [Put_endl]
          ++ mid2
          ++ [Put_text "Minimum distance: "%string; Set_fixed; Set_precision 2;
              Put_double m; Put_text " units"%string; Put_endl]
          ++ after, 0) /\
    tour n (startNode - 1) ((fun k => k - 1) <$> route) /\
    walk_cost (matrix_of n cell) ((fun k => k - 1) <$> route) = m /\
    forall t, tour n (startNode - 1) t -> dle m (walk_cost (matrix_of n cell) t).
Proof.
  intros [Hn2 Hn30] Hs Hcell Htour Hfuel.
  set (graph := matrix_of n cell) in *.
  assert (Z.of_nat (length graph) = n) as Hlen
    by (unfold graph; rewrite matrix_of_length; lia).
  assert (valid_input graph startNode) as Hvalid.
  { split; [apply matrix_of_square|]. split; [by apply matrix_of_nonneg|].
    by rewrite Hlen. }
  destruct (valid_well_formed graph startNode Hvalid) as [Hwf Hnn];
    [by rewrite Hlen|].
  destruct (heldKarp_ok graph startNode Hwf Hnn fuel [])
    as (dp0 & m & last0 & visited0 & _ & _ & _ & _ & _ & _ & _ & _ & _ & _
        & _ & _ & Hrun).
  { by rewrite Hlen. }
  { by rewrite Hlen. }
  { by rewrite Hlen. }
  destruct (heldKarp_returns_inv graph startNode fuel [] m _ Hvalid Hrun)
    as (_ & dp & last & visited & a & _ & _ & _ & _ & Hm & _ & Hroute & Hvis
        & Hcost & Hlb).
  pose proof (full_path_length graph startNode last _ Hvis) as Hfull.
  rewrite Hlen in Hvis, Hlb, Hfull.
  rewrite Hroute in Hrun.
  destruct (main_run fuel n cell startNode m _ ltac:(lia) Hrun)
    as (before & mid1 & mid2 & after & Hmain).
  { rewrite length_cons, length_app, length_reverse, length_fmap. simpl.
    simpl in Hfull. rewrite length_reverse in Hfull.
    assert (2 ^ 5 <= 2 ^ 64) by (apply Z.pow_le_mono_r; lia). lia. }
  exists m, (startNode :: reverse ((fun k => k + 1) <$> visited) ++ [startNode]),
    before, mid1, mid2, after.
  split; [exact Hmain|].
  assert ((fun k => k - 1) <$> (startNode :: reverse ((fun k => k + 1) <$> visited)
                                 ++ [startNode])
          = (startNode - 1 :: reverse visited) ++ [startNode - 1]) as ->.
  { rewrite fmap_cons, fmap_app, fmap_reverse, fmap_pred_succ. done. }
  destruct (tour_of_path graph n (startNode - 1) last _ Hvis) as [Ht Hc].
  split; [exact Ht|]. split; [|exact Hlb].
  by rewrite Hc, Hcost, Hm.
Qed.

Lemma main_prints_optimal_route_witness :
  exists m route before mid1 mid2 after,
    main 2 2 (fun i j => if i =? j then 0 else 5) 1
    = Ok (before
          ++ flat_map (fun row =>
               flat_map (fun val =>
                 [Set_width 8; Put_double val; Put_text " "%string]) row
               ++ [Put_endl]) [[0; 5]; [5; 0]]
          ++ mid1
          ++ [Put_text "Route: "%string] ++ arrows route ++ [Put_endl]
          ++ mid2
          ++ [Put_text "Minimum distance: "%string; Set_fixed; Set_precision 2;
              Put_double m; Put_text " units"%string; Put_endl]
          ++ after, 0) /\
    tour 2 0 ((fun k => k - 1) <$> route) /\
    walk_cost [[0; 5]; [5; 0]] ((fun k => k - 1) <$> route) = m.
Proof.
  destruct (main_prints_optimal_route (D := Z) 2 2
              (fun i j => if i =? j then 0 else 5) 1)
    as (m & route & before & mid1 & mid2 & after & Hmain & Ht & Hc & _).
  - lia.
  - lia.
  - intros i j _ _. unfold dle. simpl. destruct (i =? j); reflexivity.
  - exists [0; 1; 0]. split; [exact two_tour|reflexivity].
  - simpl. lia.
  - exists m, route, before, mid1, mid2, after.
    split; [exact Hmain|]. split; [exact Ht|exact Hc].
Defined.
